(** * setlist_to_playlist: a shallow embedding of [setlist_to_playlist.py]

    The script has two pipelines.  [SetlistClient] downloads setlists from
    setlist.fm with a retry loop and writes them to JSON files;
    [SpotifyClient] reads such documents, searches every song on Spotify and
    appends the matches to a playlist.

    Conventions of the embedding:
    - Python [int] is [Z]; [str] is [string]; a [set] of strings is a
      [gset string]; the files are a [gmap] from path to content.
    - What the script cannot decide by itself is supplied from outside
      (Section variables): the answers of the remote services, the answer of
      the operating system when a file is opened and written, [json.dumps],
      and [str.lower], whose Unicode case mapping is a table of the Python
      runtime.
    - An exception that the script does not catch ends the run; which
      exception it is belongs to the result.
    - JSON documents are records that follow the schema of the two services
      (only the keys the script reads, plus a few it does not read, so that
      "the same document" is a meaningful statement).  Indexing a list with
      [[0]] can still fail, which is modelled ([IndexError]).
    - The logger is a list of structured entries in chronological order; every
      call of [self._logger.<level>] is recorded, whatever the level.
    - The n-th HTTP request of a run gets the response [server n request].
    - A [while] loop is run by a fuel-indexed runner that returns [None] when
      the fuel is exhausted; totality is a theorem, not part of a definition. *)

From Stdlib Require Import ZArith Lia Ascii.
From stdpp Require Import base gmap strings list pretty.

Local Open Scope Z_scope.

(** ** Logging *)

Inductive Level := DEBUG | INFO | WARNING | ERROR.

(** One constructor per format string of the script, carrying the arguments
    of [format] in the order of the source. *)
Inductive Msg :=
  | NoSetlistFound (artist formatted_date : string)
  | RetriableError (artist formatted_date reason : string) (retry : Z)
  | HttpError (reason artist formatted_date : string)
  | MaxRetriesReached (artist formatted_date : string)
  | TrackMismatch (artist_found artist track_found track : string)
  | PlaylistNotFound (playlist : string)
  | AddingSong (artist song : string) (playlist : option string)
  | SongNotFound (artist song : string)
  | ConcertAdded (concert : string)
  | NoMatchingTracks (concert : string).

Definition LogEntry : Type := Level * Msg.

Global Instance Level_eq_dec : EqDecision Level.
Proof. solve_decision. Defined.

(** ** Setlist documents (setlist.fm search response) *)

Record Song := { song_name : string; song_info : string }.
Record SetItem := { set_name : string; set_song : list Song }.
Record Artist := { artist_mbid : string; artist_name : string }.
(** [sl_sets s] is [s["sets"]["set"]]. *)
Record Setlist := {
  sl_id : string;
  sl_eventDate : string;
  sl_artist : Artist;
  sl_sets : list SetItem
}.
Record SetlistJson := {
  sj_itemsPerPage : Z;
  sj_page : Z;
  sj_total : Z;
  sj_setlist : list Setlist
}.

(** ** Exceptions *)

(** The exceptions that can end a run.  [OSError] stands for the subclasses
    of [OSError] other than [FileNotFoundError]. *)
Inductive Exn :=
  | ValueError
  | IndexError
  | OverflowError
  | FileNotFoundError
  | OSError.

(** A value, or the exception raised instead of it. *)
Inductive Try (A : Type) :=
  | Val (a : A)
  | Exc (e : Exn).
Arguments Val {A} a.
Arguments Exc {A} e.

Global Instance Try_bind : MBind Try := fun A B f x =>
  match x with
  | Val a => f a
  | Exc e => Exc e
  end.

(** The value, when there is one. *)
Definition value {A : Type} (x : Try A) : option A :=
  match x with
  | Val a => Some a
  | Exc _ => None
  end.

(** ** Dates ([datetime.date]) *)

Record Date := { year : Z; month : Z; day : Z }.

Definition is_leap (y : Z) : bool :=
  bool_decide (y mod 4 = 0) && (negb (bool_decide (y mod 100 = 0)) || bool_decide (y mod 400 = 0)).

Definition days_in_month (y m : Z) : Z :=
  if bool_decide (m = 2) then (if is_leap y then 29 else 28)
  else if bool_decide (m = 4 ∨ m = 6 ∨ m = 9 ∨ m = 11) then 30
  else 31.

(** The arguments of [datetime.date] are converted to C [int]s first. *)
Definition fits_c_int (z : Z) : bool :=
  bool_decide (- 2 ^ 31 <= z < 2 ^ 31).

(** [datetime.date(y, m, d)] of CPython: [OverflowError] when an argument
    does not fit a C [int], [ValueError] when the arguments fit and the date
    does not exist. *)
Definition datetime_date (y m d : Z) : Try Date :=
  if negb (fits_c_int y && fits_c_int m && fits_c_int d) then Exc OverflowError
  else if bool_decide (1 <= y <= 9999 ∧ 1 <= m <= 12 ∧ 1 <= d <= days_in_month y m)
  then Val {| year := y; month := m; day := d |}
  else Exc ValueError.

Fixpoint zeros (n : nat) : string :=
  match n with
  | O => EmptyString
  | S n => String "0"%char (zeros n)
  end.

(** The [%0<width>d] of a non-negative number. *)
Definition zfill (width : nat) (z : Z) : string :=
  let digits := pretty z in
  zeros (width - String.length digits) +:+ digits.

(** [str(d)], which is what ["{}".format(d)] prints: [YYYY-MM-DD]. *)
Definition date_str (d : Date) : string :=
  zfill 4 (year d) +:+ "-" +:+ zfill 2 (month d) +:+ "-" +:+ zfill 2 (day d).

(** [d.strftime("%d-%m-%Y")].  The C library decides how [%Y] prints a year
    below 1000; here it is printed as glibc does, without padding. *)
Definition strftime_dmy (d : Date) : string :=
  zfill 2 (day d) +:+ "-" +:+ zfill 2 (month d) +:+ "-" +:+ pretty (year d).

(** ** HTTP *)

(** [params] of [requests.get]; URL and headers are constants of the
    configuration and are left out. *)
Record Request := { artistName : string; date : string }.

Record Response := {
  status_code : Z;
  reason : string;
  json : SetlistJson
}.

(** ** State of a [SetlistClient] run *)

Record World := {
  fs : gmap string string;      (* path -> file content *)
  log : list LogEntry;          (* calls of the logger, oldest first *)
  sent : list Request           (* HTTP requests issued, oldest first *)
}.

Definition logger (lvl : Level) (m : Msg) (w : World) : World :=
  {| fs := fs w; log := log w ++ [(lvl, m)]; sent := sent w |}.

Definition record_request (r : Request) (w : World) : World :=
  {| fs := fs w; log := log w; sent := sent w ++ [r] |}.

Definition write_file (path content : string) (w : World) : World :=
  {| fs := <[path := content]> (fs w); log := log w; sent := sent w |}.

(** What the operating system does with
    [with open(path, "w") as f: f.write(text)]. *)
Inductive WriteResult :=
  | Written                              (* the statement completes *)
  | OpenFailed (e : Exn)                 (* [open] raises: no file is touched *)
  | WriteFailed (e : Exn) (partial : string).
      (* the file was opened, hence created or emptied, and [write] or the
         closing of the file raises: the file holds [partial] *)

(** What one iteration of a loop with an early [return] does. *)
Inductive Step (S R : Type) :=
  | Continue (s : S)
  | Return (r : R).
Arguments Continue {S R} s.
Arguments Return {S R} r.

(** * SetlistClient.__get_setlist *)

Section GetSetlist.

(** [self._setlist_num_retries] and [self._setlist_retriable_errors]. *)
Variable setlist_num_retries : Z.
Variable setlist_retriable_errors : gset string.
(** The service: the response to the n-th request of the run. *)
Variable server : nat -> Request -> Response.

(** [requests.get(...)]: the request is recorded and answered. *)
Definition requests_get (params : Request) (w : World) : Response * World :=
  (server (length (sent w)) params, record_request params w).

(** The test [(setlists) and (len(setlists[0]["sets"]["set"]) > 0)]. *)
Definition has_setlist (setlists : list Setlist) : bool :=
  match setlists with
  | [] => false
  | s0 :: _ => bool_decide (0 < Z.of_nat (length (sl_sets s0)))
  end.

(** One pass through the [while]: the test of the loop, then its body.
    The loop variable is [num_retries]; a [Return] carries the value
    returned by the method and the state it leaves.  When the test of the
    loop fails, the two statements after the loop run. *)
Definition get_setlist_iter (artist_name formatted_date : string)
    (st : Z * World) : Step (Z * World) (option SetlistJson * World) :=
  let '(num_retries, w) := st in
  if bool_decide (num_retries <= setlist_num_retries) then
    let params := {| artistName := artist_name; date := formatted_date |} in
    let '(response, w) := requests_get params w in
    if bool_decide (status_code response = 200) then
      let setlist_json := json response in
      let setlists := sj_setlist setlist_json in
      if has_setlist setlists then
        Return (Some setlist_json, w)
      else
        Return (None, logger ERROR (NoSetlistFound artist_name formatted_date) w)
    else
      if bool_decide (reason response ∈ setlist_retriable_errors) then
        let num_retries := num_retries + 1 in
        Continue (num_retries,
                  logger INFO (RetriableError artist_name formatted_date
                                 (reason response) num_retries) w)
      else
        Return (None, logger ERROR (HttpError (reason response) artist_name
                                      formatted_date) w)
  else
    Return (None, logger ERROR (MaxRetriesReached artist_name formatted_date) w).

(** The [while] loop; [None] means that [fuel] passes were not enough. *)
Fixpoint get_setlist_loop (fuel : nat) (artist_name formatted_date : string)
    (st : Z * World) : option (option SetlistJson * World) :=
  match fuel with
  | O => None
  | S fuel =>
      match get_setlist_iter artist_name formatted_date st with
      | Return r => Some r
      | Continue st => get_setlist_loop fuel artist_name formatted_date st
      end
  end.

(** [__get_setlist]: the date is formatted, [num_retries = 0], then the
    loop. *)
Definition get_setlist (fuel : nat) (artist_name : string) (concert_date : Date)
    (w : World) : option (option SetlistJson * World) :=
  let formatted_date := strftime_dmy concert_date in
  let num_retries := 0 in
  get_setlist_loop fuel artist_name formatted_date (num_retries, w).

End GetSetlist.

(** * SetlistClient.write_concerts_to_json *)

(** A [float]: a finite value is the fraction [num/den] (every finite
    [float64] is such a fraction); [Infinity] is [inf] or [-inf]. *)
Inductive Float :=
  | Finite (num : Z) (den : positive)
  | Infinity
  | NaN.

(** A cell of the data frame.  [read_csv] chooses the type of a column from
    its text: integers, floats or booleans when every cell of the column
    parses as one, strings otherwise (with [keep_default_na=False] an empty
    cell is the empty string). *)
Inductive Cell :=
  | CInt (z : Z)
  | CFloat (x : Float)
  | CBool (b : bool)
  | CStr (s : string).

(** One row of the concerts file. *)
Record Row := {
  Group : string;
  Day : Cell;
  Month : Cell;
  Year : Cell;
  JSON_Day : Cell;
  JSON_Month : Cell;
  JSON_Year : Cell
}.

(** Python's truth value of a cell: [not c] is [negb (truthy c)]. *)
Definition truthy (c : Cell) : bool :=
  match c with
  | CInt z => bool_decide (z ≠ 0)
  | CFloat (Finite num _) => bool_decide (num ≠ 0)
  | CFloat _ => true
  | CBool b => b
  | CStr s => bool_decide (s ≠ EmptyString)
  end.

(** How a run of a pipeline ends. *)
Inductive Outcome (W : Type) :=
  | Finished (w : W)
  | Raised (e : Exn) (w : W)
  | OutOfFuel.
Arguments Finished {W} w.
Arguments Raised {W} e w.
Arguments OutOfFuel {W}.

Section WriteConcerts.

Variable setlist_num_retries : Z.
Variable setlist_retriable_errors : gset string.
Variable server : nat -> Request -> Response.
(** [self._setlists_dir]. *)
Variable setlists_dir : string.
(** [int(s)] on a string, [None] when it raises (a [ValueError]). *)
Variable int_of_str : string -> option Z.
(** [json.dumps(obj, indent=4)]. *)
Variable json_dumps : SetlistJson -> string.
(** The operating system: what becomes of writing [text] to the file at
    [path], opened with mode ["w"], in the state [w] of the run. *)
Variable os_write : string -> string -> World -> WriteResult.

(** [int(c)]: a float is truncated towards zero, [int(nan)] raises
    [ValueError] and [int(inf)] raises [OverflowError]; [int(True)] is 1. *)
Definition int (c : Cell) : Try Z :=
  match c with
  | CInt z => Val z
  | CFloat (Finite num den) => Val (num ÷ Z.pos den)
  | CFloat Infinity => Exc OverflowError
  | CFloat NaN => Exc ValueError
  | CBool b => Val (if b then 1 else 0)
  | CStr s =>
      match int_of_str s with
      | Some z => Val z
      | None => Exc ValueError
      end
  end.

(** [datetime.date(int(y), int(m), int(d))]: the arguments are evaluated from
    left to right, then the constructor is called. *)
Definition date_of_cells (y m d : Cell) : Try Date :=
  y ← int y; m ← int m; d ← int d; datetime_date y m d.

(** [with open(path, "w") as json_file: json_file.write(text)]. *)
Definition write_text (path text : string) (w : World) : Outcome World :=
  match os_write path text w with
  | Written => Finished (write_file path text w)
  | OpenFailed e => Raised e w
  | WriteFailed e partial => Raised e (write_file path partial w)
  end.

Definition write_setlist_to_json (setlist_name setlist_dir : string)
    (setlist_object : SetlistJson) (w : World) : Outcome World :=
  let local_output_file := setlist_dir +:+ "/" +:+ setlist_name in
  let json_object := json_dumps setlist_object in
  write_text local_output_file json_object w.

(** The body of the [for index, row in concerts_df.iterrows()] loop. *)
Definition concert_iter (fuel : nat) (setlist_dir : string) (index : Z)
    (row : Row) (w : World) : Outcome World :=
  let group := Group row in
  let day := Day row in
  let month := Month row in
  let year := Year row in
  let json_day := JSON_Day row in
  let json_month := JSON_Month row in
  let json_year := JSON_Year row in
  let json_day := if negb (truthy json_day) then day else json_day in
  let json_month := if negb (truthy json_month) then month else json_month in
  let json_year := if negb (truthy json_year) then year else json_year in
  match date_of_cells year month day with
  | Exc e => Raised e w
  | Val concert_date =>
      match date_of_cells json_year json_month json_day with
      | Exc e => Raised e w
      | Val playlist_date =>
          match get_setlist setlist_num_retries setlist_retriable_errors server
                  fuel group concert_date w with
          | None => OutOfFuel
          | Some (Some result, w) =>
              let setlist_name :=
                date_str playlist_date +:+ "_" +:+ pretty (index + 1) +:+ "_"
                  +:+ group +:+ ".json" in
              write_setlist_to_json setlist_name setlist_dir result w
          | Some (None, w) => Finished w
          end
      end
  end.

(** The [for] loop over the rows; the index of a data frame read by
    [read_csv] counts the rows from 0. *)
Fixpoint concerts_loop (fuel : nat) (setlist_dir : string) (index : Z)
    (rows : list Row) (w : World) : Outcome World :=
  match rows with
  | [] => Finished w
  | row :: rows =>
      match concert_iter fuel setlist_dir index row w with
      | Finished w => concerts_loop fuel setlist_dir (index + 1) rows w
      | stop => stop
      end
  end.

(** [write_concerts_to_json], from the data frame on. *)
Definition write_concerts_to_json (fuel : nat) (concerts_df : list Row)
    (output_dir : string) (w : World) : Outcome World :=
  let setlist_dir := setlists_dir +:+ "/" +:+ output_dir in
  concerts_loop fuel setlist_dir 0 concerts_df w.

End WriteConcerts.

(** * SpotifyClient *)

(** ** Spotify objects *)

Record SpArtist := { sp_artist_id : string; sp_artist_name : string }.
Record Track := {
  track_artists : list SpArtist;
  track_name : string;
  track_uri : string
}.
Record Playlist := { playlist_id : string; playlist_name : string }.

(** The calls of the Spotify client ([self._sp]) that the script makes. *)
Inductive Call :=
  | Search (q : string)                       (* search(q, type="track", limit=1) *)
  | CurrentUser                               (* current_user() *)
  | UserPlaylists (user : string)             (* user_playlists(user) *)
  | UserPlaylistCreate (user name : string)   (* user_playlist_create(user, name) *)
  | PlaylistAddItems (playlist : string) (items : list string).

(** State of a [SpotifyClient] run. *)
Record Client := {
  sp_log : list LogEntry;       (* calls of the logger, oldest first *)
  sp_calls : list Call          (* calls of the Spotify API, oldest first *)
}.

Definition sp_logger (lvl : Level) (m : Msg) (c : Client) : Client :=
  {| sp_log := sp_log c ++ [(lvl, m)]; sp_calls := sp_calls c |}.

Definition sp_call (k : Call) (c : Client) : Client :=
  {| sp_log := sp_log c; sp_calls := sp_calls c ++ [k] |}.

(** A value together with the state, or an exception that ends the run. *)
Inductive Result (A : Type) :=
  | Ok (a : A) (c : Client)
  | Fail (e : Exn) (c : Client).
Arguments Ok {A} a c.
Arguments Fail {A} e c.


(** Python's truth value of what [__search_spotify_track] returns:
    [None] and the empty string are false. *)
Definition uri_truthy (track_uri : option string) : bool :=
  match track_uri with
  | None => false
  | Some uri => bool_decide (uri ≠ EmptyString)
  end.

Section Spotify.

(** [str.lower] of the Python runtime: [str_lower s] is [s.lower()]. *)
Variable str_lower : string -> string.

(** The service.  The catalogue and the account do not change under the
    script's feet: a query has one answer during a run. *)
Variable search : string -> list Track.                (* results["tracks"]["items"] *)
Variable current_user : string.                         (* current_user()["id"] *)
Variable user_playlists : string -> list Playlist.      (* user_playlists(u)["items"] *)
Variable user_playlist_create : string -> string -> Playlist.

Definition search_spotify_track (track_name0 artist_name0 : string)
    (c : Client) : Result (option string) :=
  let query := track_name0 +:+ " " +:+ artist_name0 in
  let results := search query in
  let c := sp_call (Search query) c in
  match results with
  | result :: _ =>
      match track_artists result with
      | [] => Fail IndexError c
      | artist0 :: _ =>
          let artist_found := sp_artist_name artist0 in
          let track_found := track_name result in
          let uri := track_uri result in
          let c :=
            if bool_decide (str_lower artist_found ≠ str_lower artist_name0)
               || bool_decide (str_lower track_found ≠ str_lower track_name0)
            then sp_logger WARNING
                   (TrackMismatch artist_found artist_name0 track_found track_name0) c
            else c in
          Ok (Some uri) c
      end
  | [] => Ok None c
  end.

(** The [for playlist in playlists["items"]] loop with its early [return]. *)
Fixpoint playlists_loop (playlist_name0 : string) (items : list Playlist)
    : option string :=
  match items with
  | [] => None
  | playlist :: items =>
      if bool_decide (playlist_name playlist = playlist_name0)
      then Some (playlist_id playlist)
      else playlists_loop playlist_name0 items
  end.

Definition get_playlist_id_by_name (playlist_name0 : string) (c : Client)
    : option string * Client :=
  let user_id := current_user in
  let c := sp_call CurrentUser c in
  let playlists := user_playlists user_id in
  let c := sp_call (UserPlaylists user_id) c in
  (playlists_loop playlist_name0 playlists, c).

Definition create_spotify_playlist (playlist_name0 : string) (c : Client)
    : string * Client :=
  let user_id := current_user in
  let c := sp_call CurrentUser c in
  let playlist := user_playlist_create user_id playlist_name0 in
  let c := sp_call (UserPlaylistCreate user_id playlist_name0) c in
  (playlist_id playlist, c).

Definition add_tracks_to_playlist (playlist_id0 : string)
    (track_uris : list string) (c : Client) : Client :=
  sp_call (PlaylistAddItems playlist_id0 track_uris) c.

(** [for song in set_item["song"]]: [track_uris] is the list being built. *)
Fixpoint songs_loop (artist_name0 : string) (playlist_name0 : option string)
    (songs : list Song) (track_uris : list string) (c : Client)
    : Result (list string) :=
  match songs with
  | [] => Ok track_uris c
  | song :: songs =>
      let song_name0 := song_name song in
      match search_spotify_track song_name0 artist_name0 c with
      | Fail e c => Fail e c
      | Ok track_uri c =>
          if uri_truthy track_uri then
            (* [track_uri] is a non-empty string on this branch *)
            let track_uris := track_uris ++ [default EmptyString track_uri] in
            let c := sp_logger DEBUG
                       (AddingSong artist_name0 song_name0 playlist_name0) c in
            songs_loop artist_name0 playlist_name0 songs track_uris c
          else
            let c := sp_logger ERROR (SongNotFound artist_name0 song_name0) c in
            songs_loop artist_name0 playlist_name0 songs track_uris c
      end
  end.

(** [for set_item in setlist_json["setlist"][0]["sets"]["set"]]. *)
Fixpoint sets_loop (artist_name0 : string) (playlist_name0 : option string)
    (sets : list SetItem) (track_uris : list string) (c : Client)
    : Result (list string) :=
  match sets with
  | [] => Ok track_uris c
  | set_item :: sets =>
      match songs_loop artist_name0 playlist_name0 (set_song set_item)
              track_uris c with
      | Fail e c => Fail e c
      | Ok track_uris c => sets_loop artist_name0 playlist_name0 sets track_uris c
      end
  end.

(** The body of [for concert_name, setlist_json in concerts_dict.items()]. *)
Definition concert_body (playlist_id0 : string) (playlist_name0 : option string)
    (concert_name : string) (setlist_json : SetlistJson) (c : Client)
    : Result unit :=
  let track_uris := [] in
  match sj_setlist setlist_json with
  | [] => Fail IndexError c
  | setlist0 :: _ =>
      let artist_name0 := artist_name (sl_artist setlist0) in
      match sets_loop artist_name0 playlist_name0 (sl_sets setlist0)
              track_uris c with
      | Fail e c => Fail e c
      | Ok track_uris c =>
          match track_uris with
          | _ :: _ =>
              let c := add_tracks_to_playlist playlist_id0 track_uris c in
              Ok tt (sp_logger INFO (ConcertAdded concert_name) c)
          | [] => Ok tt (sp_logger ERROR (NoMatchingTracks concert_name) c)
          end
      end
  end.

Fixpoint concerts_dict_loop (playlist_id0 : string)
    (playlist_name0 : option string)
    (items : list (string * SetlistJson)) (c : Client) : Result unit :=
  match items with
  | [] => Ok tt c
  | (concert_name, setlist_json) :: items =>
      match concert_body playlist_id0 playlist_name0 concert_name
              setlist_json c with
      | Fail e c => Fail e c
      | Ok _ c => concerts_dict_loop playlist_id0 playlist_name0 items c
      end
  end.

(** The first statement of [populate_year_spotify_playlist]: which playlist
    is filled.  [playlist_name0 = None] is Python's [None]. *)
Definition resolve_playlist (input_dir : string)
    (playlist_name0 : option string) (c : Client) : string * Client :=
  match playlist_name0 with
  | Some name =>
      let '(playlist_id0, c) := get_playlist_id_by_name name c in
      match playlist_id0 with
      | None =>
          let c := sp_logger INFO (PlaylistNotFound name) c in
          create_spotify_playlist name c
      | Some playlist_id0 => (playlist_id0, c)
      end
  | None => create_spotify_playlist ("Concerts_" +:+ input_dir) c
  end.

(** [populate_year_spotify_playlist]; [concerts_dict] is what
    [__read_setlists_from_json(input_dir)] returned, in the order of
    [items()]. *)
Definition populate_year_spotify_playlist (input_dir : string)
    (playlist_name0 : option string)
    (concerts_dict : list (string * SetlistJson)) (c : Client) : Result unit :=
  let '(playlist_id0, c) := resolve_playlist input_dir playlist_name0 c in
  concerts_dict_loop playlist_id0 playlist_name0 concerts_dict c.

End Spotify.

(** * Notions the properties are stated with *)

(** ** The retry loop *)

Section FetchSpec.

Variable setlist_retriable_errors : gset string.

(** The three kinds of response the loop tells apart. *)
Definition success (r : Response) : Prop := status_code r = 200.

Definition retriable_failure (r : Response) : Prop :=
  status_code r ≠ 200 ∧ reason r ∈ setlist_retriable_errors.

Definition fatal_failure (r : Response) : Prop :=
  status_code r ≠ 200 ∧ reason r ∉ setlist_retriable_errors.

End FetchSpec.

(** The query of a fetch. *)
Definition query_of (artist : string) (concert_date : Date) : Request :=
  {| artistName := artist; date := strftime_dmy concert_date |}.

(** The response to the [i]-th request of a fetch that starts in [w]. *)
Definition nth_response (server : nat -> Request -> Response) (w : World)
    (q : Request) (i : nat) : Response :=
  server (length (sent w) + i)%nat q.

(** The log entries of the retries number [n+1], [n+2], ... whose failure
    reasons are [reasons]. *)
Fixpoint retry_entries (artist formatted_date : string) (n : Z)
    (reasons : list string) : list LogEntry :=
  match reasons with
  | [] => []
  | r :: reasons =>
      (INFO, RetriableError artist formatted_date r (n + 1))
        :: retry_entries artist formatted_date (n + 1) reasons
  end.

(** The reasons of the first [k] responses of a fetch. *)
Definition first_reasons (server : nat -> Request -> Response) (w : World)
    (q : Request) (k : nat) : list string :=
  (fun i => reason (nth_response server w q i)) <$> seq 0 k.

(** The state after [k] more retries of a fetch whose counter is [n] in state
    [w]: [k] requests sent, [k] retries logged, nothing else changed. *)
Definition after_retries_from (server : nat -> Request -> Response) (n : Z)
    (w : World) (artist : string) (concert_date : Date) (k : nat) : World :=
  let q := query_of artist concert_date in
  {| fs := fs w;
     log := log w ++ retry_entries artist (strftime_dmy concert_date) n
                        (first_reasons server w q k);
     sent := sent w ++ replicate k q |}.

(** The state after the first [k] retries of a fetch that started in [w]. *)
Definition after_retries (server : nat -> Request -> Response) (w : World)
    (artist : string) (concert_date : Date) (k : nat) : World :=
  after_retries_from server 0 w artist concert_date k.

(** The number of requests a fetch has issued. *)
Definition requests_issued (w w' : World) : nat :=
  (length (sent w') - length (sent w))%nat.

(** ** What a successful response contains *)

(** The response holds a setlist with at least one set, at any position. *)
Definition some_setlist_has_sets (doc : SetlistJson) : Prop :=
  exists s, s ∈ sj_setlist doc /\ sl_sets s <> [].

(** The first setlist of the response exists and has at least one set. *)
Definition first_setlist_has_sets (doc : SetlistJson) : Prop :=
  exists s0 rest, sj_setlist doc = s0 :: rest /\ sl_sets s0 <> [].

(** ** Output files of the fetcher *)

(** The cell a component of the display date is read from: the override when
    it is present (neither empty nor zero nor [False], which is what Python's
    [not] tests), the cell of the concert date otherwise. *)
Definition display_cell (override base : Cell) : Cell :=
  match override with
  | CInt 0 => base
  | CFloat (Finite 0 _) => base
  | CBool false => base
  | CStr EmptyString => base
  | _ => override
  end.

(** [<display-date>_<sequence>_<group>.json] for the row at position
    [position], counted from 0. *)
Definition generated_name (display_date : Date) (position : Z)
    (group : string) : string :=
  date_str display_date +:+ "_" +:+ pretty (position + 1) +:+ "_" +:+ group
    +:+ ".json".

Section RowSpec.

Variable setlist_num_retries : Z.
Variable setlist_retriable_errors : gset string.
Variable server : nat -> Request -> Response.
Variable int_of_str : string -> option Z.

(** The concert date (the date that is queried) and the display date of a
    row. *)
Definition concert_date_of (row : Row) : option Date :=
  value (date_of_cells int_of_str (Year row) (Month row) (Day row)).

Definition display_date_of (row : Row) : option Date :=
  value (date_of_cells int_of_str
           (display_cell (JSON_Year row) (Year row))
           (display_cell (JSON_Month row) (Month row))
           (display_cell (JSON_Day row) (Day row))).

(** The exception of a row whose dates cannot both be built: that of the
    concert date, which is built first, or else that of the display date. *)
Definition date_error_of (row : Row) : option Exn :=
  match date_of_cells int_of_str (Year row) (Month row) (Day row) with
  | Exc e => Some e
  | Val _ =>
      match date_of_cells int_of_str
              (display_cell (JSON_Year row) (Year row))
              (display_cell (JSON_Month row) (Month row))
              (display_cell (JSON_Day row) (Day row)) with
      | Exc e => Some e
      | Val _ => None
      end
  end.

(** The file a row yields when it is processed at position [position] in
    state [w]: its generated name and the setlist that was fetched; [None]
    when the row is not matched. *)
Definition row_file (fuel : nat) (position : Z) (row : Row) (w : World)
    : option (string * SetlistJson) :=
  cd ← concert_date_of row;
  pd ← display_date_of row;
  match get_setlist setlist_num_retries setlist_retriable_errors server
          fuel (Group row) cd w with
  | Some (Some result, _) => Some (generated_name pd position (Group row), result)
  | _ => None
  end.

End RowSpec.

(** ** Characters of a generated name *)

Fixpoint occurs (a : ascii) (s : string) : Prop :=
  match s with
  | EmptyString => False
  | String b s => a = b \/ occurs a s
  end.

Definition digit (a : ascii) : Prop :=
  (48 <= nat_of_ascii a <= 57)%nat.

(** ** Case-insensitive comparison *)

(** A string of ASCII characters. *)
Fixpoint is_ascii (s : string) : Prop :=
  match s with
  | EmptyString => True
  | String a s => (nat_of_ascii a < 128)%nat /\ is_ascii s
  end.

(** What [str.lower] does to a string of ASCII characters: the letters A to Z
    become a to z, every other character stays. *)
Definition lower_ascii (a : ascii) : ascii :=
  let n := nat_of_ascii a in
  if bool_decide (65 <= n <= 90)%nat then ascii_of_nat (n + 32) else a.

Fixpoint ascii_lower (s : string) : string :=
  match s with
  | EmptyString => EmptyString
  | String a s => String (lower_ascii a) (ascii_lower s)
  end.

(** [f] is [str.lower] as far as the ASCII strings go. *)
Definition lowers_ascii (f : string -> string) : Prop :=
  forall s, is_ascii s -> f s = ascii_lower s.

(** Without [lower], on the character codes: two characters are the
    same letter when they are equal or when one is an upper-case letter and
    the other is 32 codes further, which is its lower-case form. *)
Definition upper_case (a : ascii) : Prop :=
  (65 <= nat_of_ascii a <= 90)%nat.

Definition same_letter (a b : ascii) : Prop :=
  a = b
  \/ (upper_case a /\ nat_of_ascii b = (nat_of_ascii a + 32)%nat)
  \/ (upper_case b /\ nat_of_ascii a = (nat_of_ascii b + 32)%nat).

Fixpoint eq_nocase (s t : string) : Prop :=
  match s, t with
  | EmptyString, EmptyString => True
  | String a s, String b t => same_letter a b /\ eq_nocase s t
  | _, _ => False
  end.

(** ** Track resolution *)

(** The query for a song, and the songs of a setlist in the order played. *)
Definition query_for (artist : string) (s : Song) : string :=
  song_name s +:+ " " +:+ artist.

Definition all_songs (sets : list SetItem) : list Song :=
  concat (set_song <$> sets).

Section ResolutionSpec.

Variable search : string -> list Track.

(** The top result of the search for a song, if there is one. *)
Definition top_hit (artist : string) (s : Song) : option Track :=
  head (search (query_for artist s)).

(** The identifiers of the songs that have a top result, in order. *)
Definition resolved_ids (artist : string) (songs : list Song) : list string :=
  omap (fun s => track_uri <$> top_hit artist s) songs.

(** The songs without a result, in order. *)
Definition no_hit (artist : string) (s : Song) : bool :=
  match top_hit artist s with
  | None => true
  | Some _ => false
  end.

Definition unmatched (artist : string) (songs : list Song) : list Song :=
  List.filter (no_hit artist) songs.

(** What Spotify guarantees about a track: it has an artist and its URI is
    not empty. *)
Definition catalogue_ok : Prop :=
  forall q t, head (search q) = Some t ->
    track_artists t <> [] /\ track_uri t <> EmptyString.

End ResolutionSpec.

Definition is_error (e : LogEntry) : bool := bool_decide (e.1 = ERROR).

Definition not_found_entries (artist : string) (songs : list Song)
    : list LogEntry :=
  (fun s => (ERROR, SongNotFound artist (song_name s))) <$> songs.

(** The calls that change a playlist, and the searches. *)
Definition is_mutation (k : Call) : bool :=
  match k with
  | PlaylistAddItems _ _ => true
  | _ => false
  end.

(** The one call that submits a batch; no call for an empty batch. *)
Definition submission (playlist : string) (batch : list string) : list Call :=
  match batch with
  | [] => []
  | _ :: _ => [PlaylistAddItems playlist batch]
  end.

(** * Sample data *)

Definition empty_world : World := {| fs := ∅; log := []; sent := [] |}.

Definition bastille_day : Date := {| year := 2023; month := 7; day := 14 |}.

Definition song (name : string) : Song :=
  {| song_name := name; song_info := EmptyString |}.

Definition the_band : Artist :=
  {| artist_mbid := "mbid-1"; artist_name := "The Band" |}.

Definition full_setlist : Setlist :=
  {| sl_id := "63de4613"; sl_eventDate := "14-07-2023"; sl_artist := the_band;
     sl_sets := [ {| set_name := "Set 1"; set_song := [song "Song A"; song "Song B"] |} ] |}.

Definition bare_setlist : Setlist :=
  {| sl_id := "0bd6f2a1"; sl_eventDate := "14-07-2023"; sl_artist := the_band;
     sl_sets := [] |}.

Definition doc_of (setlists : list Setlist) : SetlistJson :=
  {| sj_itemsPerPage := 20; sj_page := 1;
     sj_total := Z.of_nat (length setlists); sj_setlist := setlists |}.

Definition ok_response (doc : SetlistJson) : Response :=
  {| status_code := 200; reason := "OK"; json := doc |}.

Definition error_response (code : Z) (why : string) : Response :=
  {| status_code := code; reason := why; json := doc_of [] |}.

Definition sample_retriable : gset string :=
  {[ "Bad Gateway"; "Service Unavailable" ]}.

(** Two transient failures, then the setlist. *)
Definition flaky_server (n : nat) (q : Request) : Response :=
  match n with
  | 0%nat => error_response 503 "Service Unavailable"
  | 1%nat => error_response 502 "Bad Gateway"
  | _ => ok_response (doc_of [full_setlist])
  end.

Definition down_server (n : nat) (q : Request) : Response :=
  error_response 503 "Service Unavailable".

Definition missing_server (n : nat) (q : Request) : Response :=
  error_response 404 "Not Found".

(** A search result whose first setlist has no sets and whose second has. *)
Definition second_only_server (n : nat) (q : Request) : Response :=
  ok_response (doc_of [bare_setlist; full_setlist]).

Definition no_result_server (n : nat) (q : Request) : Response :=
  ok_response (doc_of []).

(** ** Sample concerts *)

Definition row_of (group : string) (d : Date) (override : option Date) : Row :=
  {| Group := group;
     Day := CInt (day d); Month := CInt (month d); Year := CInt (year d);
     JSON_Day := from_option (fun o => CInt (day o)) (CStr EmptyString) override;
     JSON_Month := from_option (fun o => CInt (month o)) (CStr EmptyString) override;
     JSON_Year := from_option (fun o => CInt (year o)) (CStr EmptyString) override |}.

Definition new_year : Date := {| year := 2024; month := 1; day := 1 |}.
Definition next_day : Date := {| year := 2023; month := 7; day := 15 |}.

Definition other_setlist : Setlist :=
  {| sl_id := "7bc1d2e4"; sl_eventDate := "15-07-2023"; sl_artist := the_band;
     sl_sets := [ {| set_name := "Set 1"; set_song := [song "Song C"] |} ] |}.

(** Answers by the date that is asked for. *)
Definition dated_server (n : nat) (q : Request) : Response :=
  if bool_decide (date q = "14-07-2023") then ok_response (doc_of [full_setlist])
  else if bool_decide (date q = "15-07-2023") then ok_response (doc_of [other_setlist])
  else error_response 404 "Not Found".

(** Stand-ins for [int] on strings and [json.dumps]: the sample rows hold
    numbers, and the sample documents are told apart by their setlist ids. *)
Definition sample_int_of_str (s : string) : option Z := None.

Definition sample_dumps (doc : SetlistJson) : string :=
  String.concat "," (sl_id <$> sj_setlist doc).

(** Two tables for the same output directory.  The second row of the first
    table and the only row of the second table carry the same override date. *)
Definition first_table : list Row :=
  [ row_of "The Band" bastille_day None;
    row_of "The Band" next_day (Some new_year) ].

Definition plain_row : Row := row_of "The Band" bastille_day None.
Definition renamed_row : Row := row_of "The Band" next_day (Some new_year).
Definition clashing_row : Row := row_of "The Band" bastille_day (Some new_year).

(** The state a run leaves, for a run that finishes. *)
Definition final_world (o : Outcome World) : World :=
  match o with
  | Finished w => w
  | _ => empty_world
  end.

(** A later run of the script: the files are those the earlier run left,
    the client is a new one. *)
Definition next_run (w : World) : World :=
  {| fs := fs w; log := []; sent := [] |}.

(** ** Sample catalogue and account *)

Definition empty_client : Client := {| sp_log := []; sp_calls := [] |}.

Definition track (artist name uri : string) : Track :=
  {| track_artists := [ {| sp_artist_id := "a1"; sp_artist_name := artist |} ];
     track_name := name; track_uri := uri |}.

(** The catalogue knows "Song A" by The Band and nothing else. *)
Definition sample_search (q : string) : list Track :=
  if bool_decide (q = "Song A The Band")
  then [track "The Band" "Song A" "spotify:track:A"]
  else [].

(** Catalogues that answer the query "song artist" with a track whose names
    differ from the query in case only, or with a track by someone else. *)
Definition search_same_names (q : string) : list Track :=
  if bool_decide (q = "song artist")
  then [track "Artist" "Song" "spotify:track:1"] else [].

Definition search_other_artist (q : string) : list Track :=
  if bool_decide (q = "song artist")
  then [track "Other Artist" "song" "spotify:track:2"] else [].

Definition sample_user : string := "user-1".

Definition sample_playlists (user : string) : list Playlist :=
  [ {| playlist_id := "p1"; playlist_name := "Summer" |};
    {| playlist_id := "p2"; playlist_name := "Concerts" |};
    {| playlist_id := "p3"; playlist_name := "Concerts" |} ].

Definition sample_create (user name : string) : Playlist :=
  {| playlist_id := "new:" +:+ name; playlist_name := name |}.

(** A catalogue without any track. *)
Definition silent_search (q : string) : list Track := [].

(** * Further notions *)

(** ** What a fetch adds to the log *)

Definition is_retry (e : LogEntry) : bool :=
  match e.2 with
  | RetriableError _ _ _ _ => true
  | _ => false
  end.

(** The entries logged between two states of a run. *)
Definition new_entries (w w' : World) : list LogEntry :=
  drop (length (log w)) (log w').

Section FetchEnding.

Variable setlist_num_retries : Z.
Variable setlist_retriable_errors : gset string.
Variable server : nat -> Request -> Response.

Local Abbreviation fatal := (fatal_failure setlist_retriable_errors).

(** How a fetch can end.  After [k] retriable failures, either the counter
    has passed the maximum, or the next response is a success with or without
    a setlist, or it is a failure that is not retriable. *)
Inductive Ending (a : string) (d : Date) (n : Z) (w : World) (k : nat)
    : option SetlistJson -> World -> Prop :=
  | MaxReached :
      setlist_num_retries < n + Z.of_nat k ->
      Ending a d n w k None
        (logger ERROR (MaxRetriesReached a (strftime_dmy d))
           (after_retries_from server n w a d k))
  | Found :
      n + Z.of_nat k <= setlist_num_retries ->
      success (nth_response server w (query_of a d) k) ->
      has_setlist (sj_setlist (json (nth_response server w (query_of a d) k))) = true ->
      Ending a d n w k (Some (json (nth_response server w (query_of a d) k)))
        (record_request (query_of a d) (after_retries_from server n w a d k))
  | NotFound :
      n + Z.of_nat k <= setlist_num_retries ->
      success (nth_response server w (query_of a d) k) ->
      has_setlist (sj_setlist (json (nth_response server w (query_of a d) k))) = false ->
      Ending a d n w k None
        (logger ERROR (NoSetlistFound a (strftime_dmy d))
           (record_request (query_of a d) (after_retries_from server n w a d k)))
  | Failed :
      n + Z.of_nat k <= setlist_num_retries ->
      fatal (nth_response server w (query_of a d) k) ->
      Ending a d n w k None
        (logger ERROR (HttpError (reason (nth_response server w (query_of a d) k))
                         a (strftime_dmy d))
           (record_request (query_of a d) (after_retries_from server n w a d k))).

End FetchEnding.

(** ** How a run ends *)

(** The run ended in state [w'], finished or stopped by an exception. *)
Definition ended (o : Outcome World) (w' : World) : Prop :=
  o = Finished w' \/ exists e, o = Raised e w'.

(** A row whose override date does not exist, a table that holds it, and a
    state with a file outside the output directory. *)
Definition bad_override_row : Row :=
  row_of "The Band" bastille_day (Some {| year := 2023; month := 2; day := 30 |}).

Definition broken_table : list Row := [plain_row; bad_override_row; renamed_row].

Definition unknown_row : Row := row_of "The Band" new_year None.

(** A row whose year does not fit a C [int]. *)
Definition far_year_row : Row :=
  row_of "The Band" {| year := 2147483648; month := 7; day := 14 |} None.


(** ** SetlistClient.__completeConfiguration *)

(** [s.split(sep)] for a separator of one character: the fields between the
    separators, empty fields included; never an empty list. *)
Fixpoint str_split (sep : ascii) (s : string) : list string :=
  match s with
  | EmptyString => [EmptyString]
  | String c s =>
      if bool_decide (c = sep) then EmptyString :: str_split sep s
      else match str_split sep s with
           | field :: fields => String c field :: fields
           | [] => [String c EmptyString]
           end
  end.

(** [set(value.split(","))]. *)
Definition retriable_errors_of (value : string) : gset string :=
  list_to_set (str_split ","%char value).

(** The two settings of the retry loop, from their values in the
    configuration file; [None] when [int] raises. *)
Definition complete_configuration (int_of_str : string -> option Z)
    (setlist_num_retries_value setlist_retriable_errors_value : string)
    : option (Z * gset string) :=
  n ← int_of_str setlist_num_retries_value;
  Some (n, retriable_errors_of setlist_retriable_errors_value).

(** A service that answers every request with the reason the operator meant
    to make retriable. *)
Definition unavailable_server (n : nat) (q : Request) : Response :=
  error_response 503 "Service Unavailable".

(** ** Runs of the playlist builder *)

(** The state a computation leaves, whether it returns or raises. *)
Definition result_client {A : Type} (r : Result A) : Client :=
  match r with
  | Ok _ c => c
  | Fail _ c => c
  end.

Definition nonempty (u : string) : bool := bool_decide (u <> EmptyString).

(** The calls a run may make once the playlist is known: searches, and
    submissions of a batch without empty identifier to that playlist. *)
Definition allowed_call (playlist : string) (k : Call) : Prop :=
  match k with
  | Search _ => True
  | PlaylistAddItems p items =>
      p = playlist /\ items <> [] /\ Forall (fun u => u <> EmptyString) items
  | _ => False
  end.

Section BuilderSpec.

Variable search : string -> list Track.

(** The identifiers that end up in a batch: those of the top results that
    are not the empty string. *)
Definition accepted_ids (artist : string) (songs : list Song) : list string :=
  List.filter nonempty (resolved_ids search artist songs).

(** Every top result for these songs names at least one artist. *)
Definition artists_known (artist : string) (songs : list Song) : Prop :=
  Forall (fun s => forall t, top_hit search artist s = Some t ->
                             track_artists t <> []) songs.

(** The document can be processed: it has a first setlist, and the top
    results for its songs name an artist. *)
Definition processable (doc : SetlistJson) : Prop :=
  exists setlist0 later,
    sj_setlist doc = setlist0 :: later /\
    artists_known (artist_name (sl_artist setlist0)) (all_songs (sl_sets setlist0)).

(** The calls for one concert: a search per song of the first setlist, then
    the submission of the batch. *)
Definition concert_calls (playlist : string) (doc : SetlistJson) : list Call :=
  match sj_setlist doc with
  | [] => []
  | setlist0 :: _ =>
      let artist := artist_name (sl_artist setlist0) in
      let songs := all_songs (sl_sets setlist0) in
      (Search <$> (query_for artist <$> songs))
        ++ submission playlist (accepted_ids artist songs)
  end.

Definition run_calls (playlist : string)
    (concerts_dict : list (string * SetlistJson)) : list Call :=
  concat ((fun item => concert_calls playlist item.2) <$> concerts_dict).

End BuilderSpec.

(** A catalogue whose track for "Song A" has an empty identifier, and one
    that returns a second item after the top result. *)
Definition blank_search (q : string) : list Track :=
  if bool_decide (q = "Song A The Band") then [track "The Band" "Song A" EmptyString]
  else if bool_decide (q = "Song B The Band")
       then [track "The Band" "Song B" "spotify:track:B"]
       else [].

Definition crowded_search (q : string) : list Track :=
  match sample_search q with
  | t :: l => t :: track "Someone" "Else" "spotify:track:Z" :: l
  | [] => []
  end.

(** Dictionaries of concerts: two that can be processed, and the same with a
    document without setlist in between. *)
Definition sample_dict : list (string * SetlistJson) :=
  [ ("c1", doc_of [full_setlist]); ("c2", doc_of [other_setlist]) ].

Definition broken_dict : list (string * SetlistJson) :=
  [ ("c1", doc_of [full_setlist]); ("c0", doc_of []); ("c2", doc_of [other_setlist]) ].

(** ** Reading the setlists back: [list_files] and [__read_setlists_from_json] *)

(** [s.startswith(p)] and [s.endswith(p)]. *)
Fixpoint startswith (s p : string) : bool :=
  match p, s with
  | EmptyString, _ => true
  | String a p, String b s => bool_decide (a = b) && startswith s p
  | String _ _, EmptyString => false
  end.

Fixpoint endswith (s p : string) : bool :=
  bool_decide (s = p)
  || match s with
     | EmptyString => false
     | String _ s => endswith s p
     end.

Fixpoint occursb (a : ascii) (s : string) : bool :=
  match s with
  | EmptyString => false
  | String b s => bool_decide (a = b) || occursb a s
  end.

(** [os.path.join(a, b)] of [posixpath]. *)
Definition path_join (a b : string) : string :=
  if startswith b "/" then b
  else if bool_decide (a = EmptyString) || endswith a "/" then a +:+ b
  else a +:+ "/" +:+ b.

(** [os.path.split(p)[1]] of [posixpath]: what follows the last slash. *)
Fixpoint basename (p : string) : string :=
  match p with
  | EmptyString => EmptyString
  | String c rest => if occursb "/" p then basename rest else p
  end.

(** [s.split(sep)[0]] for a separator that is not empty: what comes before
    the first occurrence of the separator, all of [s] when there is none. *)
Fixpoint before_first (sep s : string) : string :=
  if startswith s sep then EmptyString
  else match s with
       | EmptyString => EmptyString
       | String c s => String c (before_first sep s)
       end.

(** ** A sample file system *)

(** The directory [dir] exists and has no subdirectory.  A file can be opened
    for writing when it lies directly in [dir]; for any other path [open]
    raises [FileNotFoundError], as the directory of the file is missing (and
    [dir/] itself is a directory).  A file that is open is written in
    full. *)
Definition directory_os (dir : string) (path text : string) (w : World)
    : WriteResult :=
  if bool_decide (path = dir +:+ "/" +:+ basename path) then
    if bool_decide (basename path = EmptyString) then OpenFailed OSError
    else Written
  else OpenFailed FileNotFoundError.

Definition sample_os : string -> string -> World -> WriteResult :=
  directory_os "setlists/2023".


(** [d[k] = v] on a dictionary that keeps the order of insertion. *)
Fixpoint dict_set {V : Type} (k : string) (v : V) (d : list (string * V))
    : list (string * V) :=
  match d with
  | [] => [(k, v)]
  | (k', v') :: d =>
      if bool_decide (k' = k) then (k, v) :: d else (k', v') :: dict_set k v d
  end.

Fixpoint dict_get {V : Type} (k : string) (d : list (string * V)) : option V :=
  match d with
  | [] => None
  | (k', v') :: d => if bool_decide (k' = k) then Some v' else dict_get k d
  end.

Section ReadSetlists.

(** The directory tree as the script sees it: the names in a directory in
    the order [listdir] gives them, which paths are regular files, and the
    text of a file. *)
Variable listdir : string -> list string.
Variable isfile : string -> bool.
Variable file_text : string -> string.
(** [json.load] on the text of a file, [None] when it raises. *)
Variable json_load : string -> option SetlistJson.
(** [self._setlists_dir]. *)
Variable setlists_dir : string.

Definition list_files (directory ext : string) : list string :=
  let onlyfiles :=
    path_join directory <$>
      List.filter (fun f => isfile (path_join directory f) && endswith f ext)
        (listdir directory) in
  onlyfiles.

(** The key of a file in the dictionary. *)
Definition concert_file_name (concert : string) : string :=
  before_first ".json" (basename concert).

(** The loop over the files; [None] when [json.load] raises. *)
Fixpoint read_loop (concerts_files : list string)
    (concerts_dict : list (string * SetlistJson))
    : option (list (string * SetlistJson)) :=
  match concerts_files with
  | [] => Some concerts_dict
  | concert :: concerts_files =>
      let name := concert_file_name concert in
      match json_load (file_text concert) with
      | None => None
      | Some json_object =>
          read_loop concerts_files (dict_set name json_object concerts_dict)
      end
  end.

Definition read_setlists_from_json (input_dir : string)
    : option (list (string * SetlistJson)) :=
  let year_dir := setlists_dir +:+ "/" +:+ input_dir in
  let concerts_files := list_files year_dir ".json" in
  read_loop concerts_files [].

(** [populate_year_spotify_playlist] with its reading of the directory: the
    playlist is resolved first, then the files are read ([json.load] raises a
    [ValueError]), then the concerts are processed. *)
Definition populate_from_directory (str_lower : string -> string)
    (search : string -> list Track)
    (current_user : string) (user_playlists : string -> list Playlist)
    (user_playlist_create : string -> string -> Playlist)
    (input_dir : string) (playlist_name0 : option string) (c : Client)
    : Result unit :=
  let '(playlist_id0, c) :=
    resolve_playlist current_user user_playlists user_playlist_create
      input_dir playlist_name0 c in
  match read_setlists_from_json input_dir with
  | None => Fail ValueError c
  | Some concerts_dict =>
      concerts_dict_loop str_lower search playlist_id0 playlist_name0 concerts_dict c
  end.

End ReadSetlists.

(** ** A sample directory *)

(** The output directory holds the file of a concert, a text file, a
    directory whose name ends with [.json], and a second file whose name has
    the same part before the first [.json]. *)
Definition sample_listdir (directory : string) : list string :=
  if bool_decide (directory = "setlists/2023")
  then [ "2023-07-14_1_The Band.json"; "notes.txt"; "archive.json";
         "2023-07-14_1_The Band.json.json" ]
  else [].

Definition sample_isfile (path : string) : bool :=
  negb (bool_decide (path = "setlists/2023/archive.json")).

(** The text of a sample file is its path, which is enough to tell the
    files apart. *)
Definition sample_file_text (path : string) : string := path.

Definition sample_json_load (text : string) : option SetlistJson :=
  if bool_decide (text = "setlists/2023/2023-07-14_1_The Band.json")
  then Some (doc_of [full_setlist])
  else if bool_decide (text = "setlists/2023/2023-07-14_1_The Band.json.json")
       then Some (doc_of [other_setlist])
       else None.

(** The same directory with a file that is not JSON. *)
Definition corrupt_listdir (directory : string) : list string :=
  if bool_decide (directory = "setlists/2023")
  then [ "2023-07-14_1_The Band.json"; "broken.json" ]
  else [].

(** ** The [--debug] flag and the level of the log file *)

(** [False if not flag else flag == 'True'], for the value of [--debug]
    ([None] when the option is absent). *)
Definition debug_of_flag (flag : option string) : bool :=
  match flag with
  | None => false
  | Some value =>
      if bool_decide (value = EmptyString) then false
      else bool_decide (value = "True")
  end.

(** [logging.DEBUG if debug == True else logging.INFO]. *)
Definition log_level (debug : bool) : Level :=
  if debug then DEBUG else INFO.

(** The numbers of the levels in [logging]. *)
Definition levelno (l : Level) : Z :=
  match l with
  | DEBUG => 10
  | INFO => 20
  | WARNING => 30
  | ERROR => 40
  end.

(** What reaches the log file: the logger and its file handler are both set
    to [log_level], and a record passes when its level is not below it. *)
Definition log_file (debug : bool) (entries : list LogEntry) : list LogEntry :=
  List.filter (fun e => bool_decide (levelno (log_level debug) <= levelno e.1))
    entries.

Definition is_debug (e : LogEntry) : bool := bool_decide (e.1 = DEBUG).

(** * Theorems *)

Section GetSetlistFacts.

Variable setlist_num_retries : Z.
Variable setlist_retriable_errors : gset string.
Variable server : nat -> Request -> Response.

Local Abbreviation iter := (get_setlist_iter setlist_num_retries setlist_retriable_errors server).
Local Abbreviation loop := (get_setlist_loop setlist_num_retries setlist_retriable_errors server).
Local Abbreviation fetch := (get_setlist setlist_num_retries setlist_retriable_errors server).
Local Abbreviation retriable := (retriable_failure setlist_retriable_errors).
Local Abbreviation fatal := (fatal_failure setlist_retriable_errors).

Lemma retriable_not_success r : retriable r -> ~ success r.
Proof. intros [Hs _] H. exact (Hs H). Qed.

Lemma response_cases r : success r \/ retriable r \/ fatal r.
Proof.
  unfold success, retriable_failure, fatal_failure.
  destruct (decide (status_code r = 200)); [by left|right].
  destruct (decide (reason r ∈ setlist_retriable_errors)); [left|right]; done.
Qed.

(** The four ways through one pass of the loop. *)
Lemma iter_exit a fd n w :
  setlist_num_retries < n ->
  iter a fd (n, w) = Return (None, logger ERROR (MaxRetriesReached a fd) w).
Proof.
  intros Hn. unfold get_setlist_iter.
  rewrite bool_decide_eq_false_2 by lia. reflexivity.
Qed.

Lemma iter_retry a fd n w :
  let q := {| artistName := a; date := fd |} in
  let r := server (length (sent w)) q in
  n <= setlist_num_retries -> retriable r ->
  iter a fd (n, w)
  = Continue (n + 1, logger INFO (RetriableError a fd (reason r) (n + 1))
                       (record_request q w)).
Proof.
  intros q r Hn [Hs Hr]. unfold get_setlist_iter, requests_get.
  rewrite bool_decide_eq_true_2 by lia. fold q r.
  rewrite (bool_decide_eq_false_2 _ Hs), (bool_decide_eq_true_2 _ Hr).
  reflexivity.
Qed.

Lemma iter_fatal a fd n w :
  let q := {| artistName := a; date := fd |} in
  let r := server (length (sent w)) q in
  n <= setlist_num_retries -> fatal r ->
  iter a fd (n, w)
  = Return (None, logger ERROR (HttpError (reason r) a fd) (record_request q w)).
Proof.
  intros q r Hn [Hs Hr]. unfold get_setlist_iter, requests_get.
  rewrite bool_decide_eq_true_2 by lia. fold q r.
  rewrite (bool_decide_eq_false_2 _ Hs), (bool_decide_eq_false_2 _ Hr).
  reflexivity.
Qed.

Lemma iter_success a fd n w :
  let q := {| artistName := a; date := fd |} in
  let r := server (length (sent w)) q in
  n <= setlist_num_retries -> success r ->
  iter a fd (n, w)
  = if has_setlist (sj_setlist (json r))
    then Return (Some (json r), record_request q w)
    else Return (None, logger ERROR (NoSetlistFound a fd) (record_request q w)).
Proof.
  intros q r Hn Hs. unfold get_setlist_iter, requests_get.
  rewrite bool_decide_eq_true_2 by lia. fold q r.
  rewrite (bool_decide_eq_true_2 _ Hs).
  by destruct (has_setlist _).
Qed.

Lemma first_reasons_S w q k :
  first_reasons server w q (S k)
  = reason (server (length (sent w)) q)
      :: first_reasons server (record_request q w) q k.
Proof.
  unfold first_reasons, nth_response. cbn [seq fmap list_fmap].
  rewrite Nat.add_0_r. f_equal.
  rewrite <- fmap_S_seq, <- list_fmap_compose.
  apply list_fmap_ext. intros _ i _. cbn.
  rewrite length_app. cbn. do 2 f_equal. lia.
Qed.

(** [k] retriable failures in a row, within the budget, are [k] passes that
    each send the query once more and count one retry. *)
Lemma loop_retries k : forall fuel a d n w,
  ((0 < k)%nat -> n + Z.of_nat k <= setlist_num_retries + 1) ->
  (forall i, (i < k)%nat -> retriable (nth_response server w (query_of a d) i)) ->
  loop (k + fuel) a (strftime_dmy d) (n, w)
  = loop fuel a (strftime_dmy d)
      (n + Z.of_nat k, after_retries_from server n w a d k).
Proof.
  induction k as [|k IH]; intros fuel a d n w Hn Hr.
  - cbn [Nat.add]. rewrite Z.add_0_r. do 2 f_equal.
    unfold after_retries_from, first_reasons. cbn.
    rewrite !app_nil_r. by destruct w.
  - cbn [Nat.add get_setlist_loop].
    pose proof (Hr 0%nat ltac:(lia)) as H0.
    unfold nth_response in H0. rewrite Nat.add_0_r in H0.
    rewrite iter_retry by (done || lia).
    set (q := query_of a d) in *. fold q.
    set (r0 := server (length (sent w)) q) in *.
    set (w1 := logger _ _ _).
    rewrite IH; [|lia|].
    + f_equal. f_equal; [lia|].
      unfold after_retries_from. fold q. rewrite first_reasons_S. fold r0.
      subst w1. cbn. rewrite <- !app_assoc. cbn.
      replace (first_reasons server (logger INFO
                 (RetriableError a (strftime_dmy d) (reason r0) (n + 1))
                 (record_request q w)) q k)
        with (first_reasons server (record_request q w) q k) by reflexivity.
      reflexivity.
    + intros i Hi. specialize (Hr (S i) ltac:(lia)).
      unfold nth_response in *. subst w1. cbn.
      rewrite length_app. cbn.
      by replace (length (sent w) + 1 + i)%nat with (length (sent w) + S i)%nat by lia.
Qed.

(** From any counter [n], the loop returns within [max + 1 - n] further
    requests, all of them the same query. *)
Lemma loop_total a d (m : nat) : forall n w,
  Z.to_nat (setlist_num_retries + 1 - n) = m ->
  exists r w' k,
    (k <= m)%nat /\
    sent w' = sent w ++ replicate k (query_of a d) /\
    forall fuel, (m < fuel)%nat ->
      loop fuel a (strftime_dmy d) (n, w) = Some (r, w').
Proof.
  induction m as [|m IH]; intros n w Hm.
  - exists None, (logger ERROR (MaxRetriesReached a (strftime_dmy d)) w), 0%nat.
    split; [lia|]. split; [cbn; by rewrite app_nil_r|].
    intros [|fuel] Hf; [lia|]. cbn [get_setlist_loop].
    rewrite iter_exit by lia. reflexivity.
  - assert (n <= setlist_num_retries) as Hn by lia.
    destruct (response_cases (server (length (sent w)) (query_of a d)))
      as [Hs|[Hr|Hf]].
    + destruct (has_setlist (sj_setlist (json
                 (server (length (sent w)) (query_of a d))))) eqn:Hhas.
      * eexists _, _, 1%nat. split; [lia|]. split; [|intros [|fuel] Hfu; [lia|]].
        2:{ cbn [get_setlist_loop]. rewrite iter_success by done.
            unfold query_of in Hhas. rewrite Hhas. reflexivity. }
        reflexivity.
      * eexists _, _, 1%nat. split; [lia|]. split; [|intros [|fuel] Hfu; [lia|]].
        2:{ cbn [get_setlist_loop]. rewrite iter_success by done.
            unfold query_of in Hhas. rewrite Hhas. reflexivity. }
        reflexivity.
    + destruct (IH (n + 1) (logger INFO
                  (RetriableError a (strftime_dmy d)
                     (reason (server (length (sent w)) (query_of a d))) (n + 1))
                  (record_request (query_of a d) w)) ltac:(lia))
        as (res & w' & k & Hk & Hsent & Hrun).
      exists res, w', (S k). split; [lia|]. split.
      * rewrite Hsent. cbn. by rewrite <- app_assoc.
      * intros [|fuel] Hfu; [lia|]. cbn [get_setlist_loop].
        rewrite iter_retry by done. apply Hrun. lia.
    + eexists _, _, 1%nat. split; [lia|]. split; [|intros [|fuel] Hfu; [lia|]].
      2:{ cbn [get_setlist_loop]. rewrite iter_fatal by done. reflexivity. }
      reflexivity.
Qed.

(** Every pass either returns or adds one to a counter that was within the
    budget, after exactly one more request. *)
Lemma iter_progress a fd n w :
  (exists res, iter a fd (n, w) = Return res) \/
  (exists w', iter a fd (n, w) = Continue (n + 1, w') /\
              n <= setlist_num_retries /\
              sent w' = sent w ++ [ {| artistName := a; date := fd |} ]).
Proof.
  destruct (decide (n <= setlist_num_retries)) as [Hn|Hn].
  - set (q := {| artistName := a; date := fd |}).
    destruct (response_cases (server (length (sent w)) q)) as [Hs|[Hr|Hf]].
    + left. rewrite iter_success by done. destruct (has_setlist _); eauto.
    + right. rewrite iter_retry by done. eauto.
    + left. rewrite iter_fatal by done. eauto.
  - left. rewrite iter_exit by lia. eauto.
Qed.

(** C10.  The fetch loop terminates whatever the service answers: each pass
    through the loop either returns or increments the retry counter, which
    the loop test keeps within the configured maximum; so the fetch returns
    (any fuel above max+1 passes is enough, and the result does not depend
    on it) after at most max+1 requests. *)
Theorem get_setlist_terminates (artist : string) (d : Date) (w : World) :
  exists r w',
    (forall fuel, (Z.to_nat (setlist_num_retries + 1) < fuel)%nat ->
       fetch fuel artist d w = Some (r, w')) /\
    Z.of_nat (requests_issued w w') <= Z.max 0 (setlist_num_retries + 1) /\
    (forall n w0,
       (exists res, iter artist (strftime_dmy d) (n, w0) = Return res) \/
       (exists w1, iter artist (strftime_dmy d) (n, w0) = Continue (n + 1, w1) /\
                   n <= setlist_num_retries /\
                   requests_issued w0 w1 = 1%nat)).
Proof.
  destruct (loop_total artist d (Z.to_nat (setlist_num_retries + 1)) 0 w)
    as (r & w' & k & Hk & Hsent & Hrun); [f_equal; lia|].
  exists r, w'. split; [exact Hrun|]. split.
  - unfold requests_issued. rewrite Hsent, length_app, length_replicate. lia.
  - intros n w0.
    destruct (iter_progress artist (strftime_dmy d) n w0)
      as [?|(w1 & Hi & Hn & Hs)]; [by left|right].
    exists w1. repeat split; try done.
    unfold requests_issued. rewrite Hs, length_app. cbn. lia.
Qed.

(** The fetch after [k] retriable failures within the budget. *)
Lemma fetch_after_retries k fuel a d w :
  ((0 < k)%nat -> Z.of_nat k <= setlist_num_retries + 1) ->
  (forall i, (i < k)%nat -> retriable (nth_response server w (query_of a d) i)) ->
  fetch (k + fuel) a d w
  = loop fuel a (strftime_dmy d) (Z.of_nat k, after_retries server w a d k).
Proof.
  intros Hk Hr. unfold get_setlist. rewrite loop_retries by (done || lia).
  reflexivity.
Qed.

Lemma after_retries_next a d w k :
  server (length (sent (after_retries server w a d k))) (query_of a d)
  = nth_response server w (query_of a d) k.
Proof.
  unfold nth_response, after_retries, after_retries_from. cbn.
  by rewrite length_app, length_replicate.
Qed.

Lemma iter_success_after a d w k :
  let q := query_of a d in
  let r := nth_response server w q k in
  Z.of_nat k <= setlist_num_retries -> success r ->
  iter a (strftime_dmy d) (Z.of_nat k, after_retries server w a d k)
  = if has_setlist (sj_setlist (json r))
    then Return (Some (json r), record_request q (after_retries server w a d k))
    else Return (None, logger ERROR (NoSetlistFound a (strftime_dmy d))
                         (record_request q (after_retries server w a d k))).
Proof.
  intros q r Hk Hs. subst q r. rewrite <- (after_retries_next a d w k) in *.
  by rewrite iter_success.
Qed.

Lemma iter_fatal_after a d w k :
  let q := query_of a d in
  let r := nth_response server w q k in
  Z.of_nat k <= setlist_num_retries -> fatal r ->
  iter a (strftime_dmy d) (Z.of_nat k, after_retries server w a d k)
  = Return (None, logger ERROR (HttpError (reason r) a (strftime_dmy d))
                    (record_request q (after_retries server w a d k))).
Proof.
  intros q r Hk Hs. subst q r. rewrite <- (after_retries_next a d w k) in *.
  by rewrite iter_fatal.
Qed.

Lemma sent_after_request a d w k :
  sent (record_request (query_of a d) (after_retries server w a d k))
  = sent w ++ replicate (S k) (query_of a d).
Proof. cbn. by rewrite <- app_assoc, <- replicate_cons_app. Qed.

(** C1.  Retry policy of the fetch, in terms of the responses [resp 0],
    [resp 1], ... that the service gives to this fetch:
    (i) when every response is a failure with a retriable reason, the fetch
    sends max+1 requests (the first one and max retries; none when max is
    negative), then logs that the maximum is reached and returns nothing;
    (ii) when the first k responses (k at most max) are retriable failures and
    the next one is not, the fetch returns after exactly k retries: k+1
    requests, k retry entries in the log, followed by at most one error;
    (iii) when that next response is a failure whose reason is not retriable,
    the fetch logs the error and returns nothing with no further request; for
    k = 0 this is the immediate failure on the first response. *)
Theorem get_setlist_retry_policy (artist : string) (d : Date) (w : World) :
  let q := query_of artist d in
  let resp := nth_response server w q in
  let fd := strftime_dmy d in
  ((forall i, (i < Z.to_nat (setlist_num_retries + 1))%nat -> retriable (resp i)) ->
   forall fuel, (Z.to_nat (setlist_num_retries + 1) < fuel)%nat ->
     fetch fuel artist d w
     = Some (None, logger ERROR (MaxRetriesReached artist fd)
                     (after_retries server w artist d
                        (Z.to_nat (setlist_num_retries + 1)))))
  /\
  (forall k : nat,
     Z.of_nat k <= setlist_num_retries ->
     (forall i, (i < k)%nat -> retriable (resp i)) ->
     ~ retriable (resp k) ->
     forall fuel, (k < fuel)%nat ->
       exists r w' tail,
         fetch fuel artist d w = Some (r, w') /\
         sent w' = sent w ++ replicate (S k) q /\
         log w' = log w ++ retry_entries artist fd 0 (first_reasons server w q k)
                        ++ tail /\
         (tail = [] \/ exists m, tail = [(ERROR, m)]))
  /\
  (forall k : nat,
     Z.of_nat k <= setlist_num_retries ->
     (forall i, (i < k)%nat -> retriable (resp i)) ->
     fatal (resp k) ->
     forall fuel, (k < fuel)%nat ->
       fetch fuel artist d w
       = Some (None, logger ERROR (HttpError (reason (resp k)) artist fd)
                       (record_request q (after_retries server w artist d k)))).
Proof.
  intros q resp fd. split; [|split].
  - intros Hr fuel Hfuel.
    replace fuel with (Z.to_nat (setlist_num_retries + 1)
                       + S (fuel - Z.to_nat (setlist_num_retries + 1) - 1))%nat by lia.
    rewrite fetch_after_retries; [|lia|done].
    cbn [get_setlist_loop]. rewrite iter_exit by lia. reflexivity.
  - intros k Hk Hr Hnr fuel Hfuel.
    replace fuel with (k + S (fuel - k - 1))%nat by lia.
    rewrite fetch_after_retries; [|lia|done].
    cbn [get_setlist_loop].
    destruct (response_cases (resp k)) as [Hs|[?|Hf]]; [| done |].
    + rewrite iter_success_after by done. fold q resp.
      destruct (has_setlist _).
      * eexists _, _, []. split; [reflexivity|].
        split; [apply sent_after_request|]. cbn. rewrite app_nil_r. auto.
      * eexists _, _, [_]. split; [reflexivity|].
        split; [apply sent_after_request|]. cbn. rewrite <- app_assoc. eauto.
    + rewrite iter_fatal_after by done. fold q resp.
      eexists _, _, [_]. split; [reflexivity|].
      split; [apply sent_after_request|]. cbn. rewrite <- app_assoc. eauto.
  - intros k Hk Hr Hf fuel Hfuel.
    replace fuel with (k + S (fuel - k - 1))%nat by lia.
    rewrite fetch_after_retries; [|lia|done].
    cbn [get_setlist_loop]. by rewrite iter_fatal_after.
Qed.

Lemma has_setlist_spec doc :
  has_setlist (sj_setlist doc) = true <-> first_setlist_has_sets doc.
Proof.
  unfold first_setlist_has_sets. destruct (sj_setlist doc) as [|s0 rest]; cbn.
  - split; [done|]. by intros (? & ? & ? & _).
  - rewrite bool_decide_eq_true. split.
    + intros Hlen. exists s0, rest. split; [done|].
      intros Hnil. rewrite Hnil in Hlen. cbn in Hlen. lia.
    + intros (s & r & [= -> ->] & Hne). destruct (sl_sets s); [done|cbn; lia].
Qed.

(** C2 (as amended).  When the response that ends the fetch is a success
    (status 200), possibly after retries: if the first setlist of the
    response exists and has at least one set, the fetch returns the response
    document as it is and logs nothing; otherwise it logs the not-found error
    and returns nothing.  Later setlists of the response are not looked at. *)
Theorem get_setlist_success (artist : string) (d : Date) (w : World) (k : nat) :
  let q := query_of artist d in
  let resp := nth_response server w q in
  Z.of_nat k <= setlist_num_retries ->
  (forall i, (i < k)%nat -> retriable (resp i)) ->
  success (resp k) ->
  forall fuel, (k < fuel)%nat ->
    (first_setlist_has_sets (json (resp k)) ->
     fetch fuel artist d w
     = Some (Some (json (resp k)),
             record_request q (after_retries server w artist d k)))
    /\
    (~ first_setlist_has_sets (json (resp k)) ->
     fetch fuel artist d w
     = Some (None, logger ERROR (NoSetlistFound artist (strftime_dmy d))
                     (record_request q (after_retries server w artist d k)))).
Proof.
  intros q resp Hk Hr Hs fuel Hfuel.
  replace fuel with (k + S (fuel - k - 1))%nat by lia.
  rewrite fetch_after_retries; [|lia|done].
  cbn [get_setlist_loop]. rewrite iter_success_after by done. fold q resp.
  pose proof (has_setlist_spec (json (resp k))) as Hspec.
  destruct (has_setlist _); split; intros H; try done.
  - destruct H. by apply Hspec.
  - apply Hspec in H. done.
Qed.

(** A fetch writes no file, and every request it sends is its query. *)
Lemma loop_frame fuel a fd : forall n w r w',
  loop fuel a fd (n, w) = Some (r, w') ->
  fs w' = fs w /\
  exists k, sent w' = sent w ++ replicate k {| artistName := a; date := fd |}.
Proof.
  induction fuel as [|fuel IH]; intros n w r w' Hrun; [done|].
  cbn [get_setlist_loop] in Hrun.
  destruct (decide (n <= setlist_num_retries)) as [Hn|Hn].
  - set (q := {| artistName := a; date := fd |}) in *.
    destruct (response_cases (server (length (sent w)) q)) as [Hs|[Hr|Hf]].
    + rewrite iter_success in Hrun by done. fold q in Hrun.
      destruct (has_setlist _); injection Hrun as <- <-;
        (split; [reflexivity|by exists 1%nat]).
    + rewrite iter_retry in Hrun by done. fold q in Hrun.
      apply IH in Hrun as [Hfs [k Hk]]. split; [exact Hfs|].
      exists (S k). rewrite Hk. cbn. by rewrite <- app_assoc.
    + rewrite iter_fatal in Hrun by done. fold q in Hrun.
      injection Hrun as <- <-. split; [reflexivity|by exists 1%nat].
  - rewrite iter_exit in Hrun by lia. injection Hrun as <- <-.
    split; [reflexivity|]. exists 0%nat. cbn. by rewrite app_nil_r.
Qed.

Lemma get_setlist_frame fuel a d w r w' :
  fetch fuel a d w = Some (r, w') ->
  fs w' = fs w /\ exists k, sent w' = sent w ++ replicate k (query_of a d).
Proof. apply loop_frame. Qed.

End GetSetlistFacts.

(** ** The retry loop on the sample servers *)

Lemma sample_retriable_elem r :
  r ∈ sample_retriable <-> r = "Bad Gateway" \/ r = "Service Unavailable".
Proof.
  unfold sample_retriable. by rewrite elem_of_union, !elem_of_singleton.
Qed.

Lemma down_server_retriable n q : retriable_failure sample_retriable (down_server n q).
Proof. split; [cbn; lia|]. apply sample_retriable_elem. by right. Qed.

Lemma missing_server_fatal n q : fatal_failure sample_retriable (missing_server n q).
Proof.
  split; [cbn; lia|]. rewrite sample_retriable_elem. by intros [H|H].
Qed.

Lemma flaky_server_retriable n q :
  (n < 2)%nat -> retriable_failure sample_retriable (flaky_server n q).
Proof.
  intros Hn. destruct n as [|[|n]]; [| |lia];
    (split; [cbn; lia|]; apply sample_retriable_elem; cbn; auto).
Qed.

Lemma flaky_server_success n q : (2 <= n)%nat -> success (flaky_server n q).
Proof. intros Hn. destruct n as [|[|n]]; [lia|lia|reflexivity]. Qed.

(** With a maximum of 2 retries: a service that is down gets 3 requests; one
    that fails twice and then answers gets 3 requests and 2 retries; a
    not-found failure ends the fetch at the first request. *)
Lemma get_setlist_retry_policy_witness :
  (requests_issued empty_world <$>
     (snd <$> get_setlist 2 sample_retriable down_server 4
                "The Band" bastille_day empty_world)) = Some 3%nat
  /\ (exists r w' tail,
        get_setlist 2 sample_retriable flaky_server 3
          "The Band" bastille_day empty_world = Some (r, w') /\
        sent w' = replicate 3 (query_of "The Band" bastille_day) /\
        log w' = [ (INFO, RetriableError "The Band" "14-07-2023" "Service Unavailable" 1);
                   (INFO, RetriableError "The Band" "14-07-2023" "Bad Gateway" 2) ]
                 ++ tail /\
        (tail = [] \/ exists m, tail = [(ERROR, m)]))
  /\ get_setlist 2 sample_retriable missing_server 1
       "The Band" bastille_day empty_world
     = Some (None, {| fs := ∅;
                      log := [(ERROR, HttpError "Not Found" "The Band" "14-07-2023")];
                      sent := [query_of "The Band" bastille_day] |}).
Proof.
  pose proof (get_setlist_retry_policy 2 sample_retriable down_server
                "The Band" bastille_day empty_world) as (Hdown & _ & _).
  pose proof (get_setlist_retry_policy 2 sample_retriable flaky_server
                "The Band" bastille_day empty_world) as (_ & Hflaky & _).
  pose proof (get_setlist_retry_policy 2 sample_retriable missing_server
                "The Band" bastille_day empty_world) as (_ & _ & Hmissing).
  split; [|split].
  - rewrite (Hdown (fun i _ => down_server_retriable _ _) 4%nat ltac:(cbn; lia)).
    reflexivity.
  - apply (Hflaky 2%nat ltac:(lia)).
    + intros i Hi. apply flaky_server_retriable. cbn. lia.
    + intros Hr. apply (retriable_not_success _ _ Hr). by apply flaky_server_success.
    + lia.
  - rewrite (Hmissing 0%nat ltac:(lia) ltac:(intros; lia)
               (missing_server_fatal _ _) 1%nat ltac:(lia)).
    reflexivity.
Defined.

(** With a maximum of 2 retries the fetch from a service that is down returns
    with 4 passes of fuel, after no more than 3 requests. *)
Lemma get_setlist_terminates_witness :
  exists r w',
    get_setlist 2 sample_retriable down_server 4 "The Band" bastille_day
      empty_world = Some (r, w')
    /\ Z.of_nat (requests_issued empty_world w') <= 3.
Proof.
  destruct (get_setlist_terminates 2 sample_retriable down_server
              "The Band" bastille_day empty_world) as (r & w' & Hrun & Hreq & _).
  exists r, w'. split; [apply Hrun; cbn; lia|exact Hreq].
Defined.

(** The answer arrives after two retries and its first setlist has a set:
    the document is returned as it came. *)
Lemma get_setlist_success_witness :
  get_setlist 2 sample_retriable flaky_server 3 "The Band" bastille_day
    empty_world
  = Some (Some (doc_of [full_setlist]),
          record_request (query_of "The Band" bastille_day)
            (after_retries flaky_server empty_world "The Band" bastille_day 2)).
Proof.
  apply (get_setlist_success 2 sample_retriable flaky_server
           "The Band" bastille_day empty_world 2).
  - lia.
  - intros i Hi. apply flaky_server_retriable. cbn. lia.
  - by apply flaky_server_success.
  - lia.
  - exists full_setlist, []. split; [reflexivity|done].
Defined.

(** C2 as stated fails: the response is a success and contains a setlist
    with a set (the second one), yet the fetch returns nothing and logs that
    no setlist was found, because the first setlist has no sets. *)
Lemma get_setlist_second_setlist_ignored :
  success (second_only_server 0 (query_of "The Band" bastille_day))
  /\ some_setlist_has_sets
       (json (second_only_server 0 (query_of "The Band" bastille_day)))
  /\ get_setlist 2 sample_retriable second_only_server 3 "The Band"
       bastille_day empty_world
     = Some (None, {| fs := ∅;
                      log := [(ERROR, NoSetlistFound "The Band" "14-07-2023")];
                      sent := [query_of "The Band" bastille_day] |}).
Proof.
  split; [reflexivity|]. split.
  - exists full_setlist. split; [|done]. cbn. apply list_elem_of_In. cbn. auto.
  - vm_compute. reflexivity.
Qed.

(** * The output files of [write_concerts_to_json] *)

Section WriteConcertsFacts.

Variable setlist_num_retries : Z.
Variable setlist_retriable_errors : gset string.
Variable server : nat -> Request -> Response.
Variable setlists_dir : string.
Variable int_of_str : string -> option Z.
Variable json_dumps : SetlistJson -> string.
Variable os_write : string -> string -> World -> WriteResult.

Local Abbreviation fetch := (get_setlist setlist_num_retries setlist_retriable_errors server).
Local Abbreviation body :=
  (concert_iter setlist_num_retries setlist_retriable_errors server int_of_str
     json_dumps os_write).
Local Abbreviation rows_loop :=
  (concerts_loop setlist_num_retries setlist_retriable_errors server int_of_str
     json_dumps os_write).
Local Abbreviation run :=
  (write_concerts_to_json setlist_num_retries setlist_retriable_errors server
     setlists_dir int_of_str json_dumps os_write).
Local Abbreviation file_of :=
  (row_file setlist_num_retries setlist_retriable_errors server int_of_str).

(** The fallback of the source is [display_cell]. *)
Lemma display_cell_eq override base :
  (if negb (truthy override) then base else override) = display_cell override base.
Proof.
  destruct override as [z|[num den| |]|[]|s]; cbn; try reflexivity.
  - destruct z; reflexivity.
  - destruct num; reflexivity.
  - destruct s; reflexivity.
Qed.

Lemma value_Some {A : Type} (x : Try A) a : value x = Some a <-> x = Val a.
Proof. destruct x; cbn; split; congruence. Qed.

Lemma value_None {A : Type} (x : Try A) : value x = None <-> exists e, x = Exc e.
Proof.
  destruct x as [a|e]; cbn; split; try done.
  - by intros [e [=]].
  - by exists e.
Qed.



(** The two exceptions of [int] and of [datetime.date]. *)
Lemma int_raises c e :
  int int_of_str c = Exc e -> e = ValueError \/ e = OverflowError.
Proof.
  destruct c as [z|[num den| |]|b|s]; cbn; try done.
  - intros [= <-]. by right.
  - intros [= <-]. by left.
  - destruct (int_of_str s); [done|]. intros [= <-]. by left.
Qed.

Lemma datetime_date_raises y m d e :
  datetime_date y m d = Exc e ->
  e = (if fits_c_int y && fits_c_int m && fits_c_int d
       then ValueError else OverflowError).
Proof.
  unfold datetime_date. destruct (_ && _); cbn.
  - case_bool_decide; [done|]. by intros [= <-].
  - by intros [= <-].
Qed.

Lemma date_of_cells_raises y m d e :
  date_of_cells int_of_str y m d = Exc e -> e = ValueError \/ e = OverflowError.
Proof.
  unfold date_of_cells, mbind, Try_bind.
  destruct (int int_of_str y) as [zy|] eqn:Hy; [|intros [= <-]; by eapply int_raises].
  destruct (int int_of_str m) as [zm|] eqn:Hm; [|intros [= <-]; by eapply int_raises].
  destruct (int int_of_str d) as [zd|] eqn:Hd; [|intros [= <-]; by eapply int_raises].
  intros H. apply datetime_date_raises in H as ->.
  destruct (_ && _); auto.
Qed.

(** The rows whose dates cannot both be built are those with an exception. *)
Lemma date_error_of_None row :
  date_error_of int_of_str row = None <->
  exists cd pd, concert_date_of int_of_str row = Some cd /\
                display_date_of int_of_str row = Some pd.
Proof.
  unfold date_error_of, concert_date_of, display_date_of.
  destruct (date_of_cells _ (Year row) _ _) as [cd|e]; cbn.
  - destruct (date_of_cells _ _ _ _) as [pd|e]; cbn.
    + split; [intros _; by exists cd, pd|done].
    + split; [done|]. by intros (? & ? & _ & [=]).
  - split; [done|]. by intros (? & ? & [=] & _).
Qed.

Lemma date_error_of_Some row :
  concert_date_of int_of_str row = None \/ display_date_of int_of_str row = None ->
  exists e, date_error_of int_of_str row = Some e /\
            (e = ValueError \/ e = OverflowError).
Proof.
  unfold date_error_of, concert_date_of, display_date_of.
  destruct (date_of_cells _ (Year row) _ _) as [cd|e] eqn:Hcd; cbn.
  - destruct (date_of_cells _ (display_cell _ _) _ _) as [pd|e] eqn:Hpd; cbn.
    + by intros [[=]|[=]].
    + intros _. exists e. split; [done|]. by eapply date_of_cells_raises.
  - intros _. exists e. split; [done|]. by eapply date_of_cells_raises.
Qed.

(** Writing a file: the three answers of the operating system. *)
Lemma write_text_Finished path text w w' :
  write_text os_write path text w = Finished w' ->
  os_write path text w = Written /\ w' = write_file path text w.
Proof. unfold write_text. destruct (os_write path text w); [|done..]. by intros [= <-]. Qed.

Lemma write_text_ended path text w w' :
  ended (write_text os_write path text w) w' ->
  w' = w \/ exists content, w' = write_file path content w.
Proof.
  unfold write_text, ended.
  destruct (os_write path text w) as [|e|e partial];
    intros [[=]|[e' [=]]]; subst; eauto.
Qed.

Lemma write_text_fuel path text w : write_text os_write path text w <> OutOfFuel.
Proof. unfold write_text. by destruct (os_write path text w). Qed.

(** The loop over a table that is cut in two. *)
Lemma concerts_loop_app fuel dir pre : forall index rest w,
  rows_loop fuel dir index (pre ++ rest) w
  = match rows_loop fuel dir index pre w with
    | Finished w1 => rows_loop fuel dir (index + Z.of_nat (length pre)) rest w1
    | stop => stop
    end.
Proof.
  induction pre as [|row pre IH]; intros index rest w.
  - cbn. by rewrite Z.add_0_r.
  - cbn [app concerts_loop length]. destruct (body fuel dir index row w); try done.
    rewrite IH. by replace (index + 1 + Z.of_nat (length pre))
                  with (index + Z.of_nat (S (length pre))) by lia.
Qed.

(** What one pass of the loop does with a row whose dates exist. *)
Lemma concert_iter_dates fuel dir index row w cd pd :
  concert_date_of int_of_str row = Some cd ->
  display_date_of int_of_str row = Some pd ->
  body fuel dir index row w
  = match fetch fuel (Group row) cd w with
    | None => OutOfFuel
    | Some (Some result, w') =>
        write_text os_write
          (dir +:+ "/" +:+ generated_name pd index (Group row))
          (json_dumps result) w'
    | Some (None, w') => Finished w'
    end.
Proof.
  unfold concert_date_of, display_date_of, concert_iter. intros Hcd Hpd.
  apply value_Some in Hcd, Hpd.
  rewrite !display_cell_eq, Hcd, Hpd. reflexivity.
Qed.

(** A row with a date that cannot be built raises before anything is done. *)
Lemma concert_iter_invalid fuel dir index row w e :
  date_error_of int_of_str row = Some e ->
  body fuel dir index row w = Raised e w.
Proof.
  unfold date_error_of, concert_iter. rewrite !display_cell_eq.
  destruct (date_of_cells _ (Year row) _ _) as [cd|e1]; [|by intros [= <-]].
  destruct (date_of_cells _ _ _ _) as [pd|e1]; [done|by intros [= <-]].
Qed.


(** A row that is not matched leaves the files as they are. *)
Lemma concert_iter_unmatched fuel dir index row w w' :
  body fuel dir index row w = Finished w' ->
  file_of fuel index row w = None ->
  fs w' = fs w.
Proof.
  unfold row_file. intros Hrow.
  destruct (date_error_of int_of_str row) as [e|] eqn:He;
    [by rewrite (concert_iter_invalid _ _ _ _ _ e He) in Hrow|].
  apply date_error_of_None in He as (cd & pd & Hcd & Hpd).
  rewrite (concert_iter_dates _ _ _ _ _ cd pd Hcd Hpd) in Hrow.
  rewrite Hcd, Hpd. cbn.
  destruct (fetch fuel (Group row) cd w) as [[[result|] w1]|] eqn:Hf; try done.
  injection Hrow as <-. intros _. by apply get_setlist_frame in Hf as [-> _].
Qed.

(** A row that is matched writes its file, whatever the path held before. *)
Lemma concert_iter_matched fuel dir index row w w' name result :
  body fuel dir index row w = Finished w' ->
  file_of fuel index row w = Some (name, result) ->
  fs w' = <[dir +:+ "/" +:+ name := json_dumps result]> (fs w).
Proof.
  unfold row_file. intros Hrow.
  destruct (date_error_of int_of_str row) as [e|] eqn:He;
    [by rewrite (concert_iter_invalid _ _ _ _ _ e He) in Hrow|].
  apply date_error_of_None in He as (cd & pd & Hcd & Hpd).
  rewrite (concert_iter_dates _ _ _ _ _ cd pd Hcd Hpd) in Hrow.
  rewrite Hcd, Hpd. cbn.
  destruct (fetch fuel (Group row) cd w) as [[[res|] w1]|] eqn:Hf; try done.
  intros [= <- <-]. apply write_text_Finished in Hrow as [_ ->].
  apply get_setlist_frame in Hf as [Hfs _]. cbn. by rewrite Hfs.
Qed.

(** C8.  Two matched rows that generate the same file name, the second
    processed while the file of the first is still in place: the file first
    holds the setlist of the earlier row, and after the later row it holds
    the setlist of the later row.  Nothing checks whether the path is taken:
    the files after the later row are those before it with the path set to
    the later setlist. *)
Theorem later_row_overwrites (fuel : nat) (dir : string) (i1 i2 : Z)
    (row1 row2 : Row) (w w1 wb w2 : World) (name : string)
    (setlist1 setlist2 : SetlistJson) :
  let path := dir +:+ "/" +:+ name in
  body fuel dir i1 row1 w = Finished w1 ->
  file_of fuel i1 row1 w = Some (name, setlist1) ->
  fs wb !! path = fs w1 !! path ->
  body fuel dir i2 row2 wb = Finished w2 ->
  file_of fuel i2 row2 wb = Some (name, setlist2) ->
  fs wb !! path = Some (json_dumps setlist1) /\
  fs w2 !! path = Some (json_dumps setlist2) /\
  fs w2 = <[path := json_dumps setlist2]> (fs wb).
Proof.
  intros path H1 Hf1 Hkeep H2 Hf2.
  pose proof (concert_iter_matched _ _ _ _ _ _ _ _ H1 Hf1) as Hw1.
  pose proof (concert_iter_matched _ _ _ _ _ _ _ _ H2 Hf2) as Hw2.
  fold path in Hw1, Hw2. split; [|split].
  - rewrite Hkeep, Hw1. apply lookup_insert_eq.
  - rewrite Hw2. apply lookup_insert_eq.
  - exact Hw2.
Qed.

End WriteConcertsFacts.

(** ** The sample tables *)



(** A first run writes [2024-01-01_1_The Band.json] for the concert of
    15-07-2023; a later run into the same directory generates the same name
    for the concert of 14-07-2023 and the file then holds that setlist. *)
Lemma later_row_overwrites_witness :
  fs (final_world
        (concert_iter 2 sample_retriable dated_server sample_int_of_str
           sample_dumps sample_os 4 "setlists/2023" 0 renamed_row empty_world))
    !! "setlists/2023/2024-01-01_1_The Band.json" = Some "7bc1d2e4"
  /\
  fs (final_world
        (concert_iter 2 sample_retriable dated_server sample_int_of_str
           sample_dumps sample_os 4 "setlists/2023" 0 clashing_row
           (next_run (final_world
              (concert_iter 2 sample_retriable dated_server sample_int_of_str
                 sample_dumps sample_os 4 "setlists/2023" 0 renamed_row empty_world)))))
    !! "setlists/2023/2024-01-01_1_The Band.json" = Some "63de4613".
Proof.
  edestruct (later_row_overwrites 2 sample_retriable dated_server
               sample_int_of_str sample_dumps sample_os 4 "setlists/2023" 0 0
               renamed_row clashing_row empty_world)
    as (H1 & H2 & _).
  - vm_compute. reflexivity.
  - vm_compute. reflexivity.
  - instantiate (1 := next_run _). reflexivity.
  - vm_compute. reflexivity.
  - vm_compute. reflexivity.
  - split; [exact H1|exact H2].
Defined.

(** * The names generated in one run are distinct *)

Lemma pretty_N_char_digit x : digit (pretty_N_char x).
Proof.
  unfold pretty_N_char, digit. repeat case_match; vm_compute; lia.
Qed.

Lemma pretty_N_go_occurs x : forall s a,
  occurs a (pretty_N_go x s) -> digit a \/ occurs a s.
Proof.
  induction (N.lt_wf_0 x) as [x _ IH]. intros s a H.
  destruct (decide (x = 0)%N) as [->|Hx]; [by right|].
  rewrite pretty_N_go_step in H by lia.
  apply IH in H; [|apply N.div_lt; lia].
  destruct H as [H|[->|H]]; [by left| |by right].
  left. apply pretty_N_char_digit.
Qed.


(** The decimal form of a number: digits after an optional sign, and as
    many digits as the size of the number needs. *)
Lemma pretty_Z_occurs (z : Z) a : occurs a (pretty z) -> digit a \/ a = "-"%char.
Proof.
  unfold pretty, pretty_Z, pretty, pretty_positive, pretty, pretty_N.
  destruct z as [|p|p]; cbn [decide_rel].
  - intros [->|[]]. left. unfold digit. vm_compute. lia.
  - destruct (decide _); [done|]. intros H.
    apply pretty_N_go_occurs in H as [?|[]]. by left.
  - destruct (decide _); [done|]. intros [->|H]; [by right|].
    apply pretty_N_go_occurs in H as [?|[]]. by left.
Qed.










(** * Case-insensitive comparison and [lower] *)

Lemma lower_ascii_upper a :
  upper_case a -> lower_ascii a = ascii_of_nat (nat_of_ascii a + 32).
Proof. intros H. unfold lower_ascii. by rewrite bool_decide_eq_true_2. Qed.

Lemma lower_ascii_other a : ~ upper_case a -> lower_ascii a = a.
Proof. intros H. unfold lower_ascii. by rewrite bool_decide_eq_false_2. Qed.

Lemma nat_of_lower_upper a :
  upper_case a -> nat_of_ascii (lower_ascii a) = (nat_of_ascii a + 32)%nat.
Proof.
  intros H. rewrite lower_ascii_upper by done.
  apply nat_ascii_embedding. unfold upper_case in H. lia.
Qed.

Lemma nat_of_ascii_inj a b : nat_of_ascii a = nat_of_ascii b -> a = b.
Proof.
  intros H. rewrite <- (ascii_nat_embedding a), <- (ascii_nat_embedding b).
  by rewrite H.
Qed.

(** Lowering identifies exactly the characters that are the same letter. *)
Lemma lower_ascii_same_letter a b :
  lower_ascii a = lower_ascii b <-> same_letter a b.
Proof.
  unfold same_letter.
  destruct (decide (upper_case a)) as [Ha|Ha];
    destruct (decide (upper_case b)) as [Hb|Hb]; split.
  - intros H. left. apply nat_of_ascii_inj.
    apply (f_equal nat_of_ascii) in H.
    rewrite !nat_of_lower_upper in H by done. lia.
  - intros [->|[[_ H]|[_ H]]]; [done| |]; unfold upper_case in *; lia.
  - intros H. right. left. split; [done|].
    apply (f_equal nat_of_ascii) in H.
    rewrite (nat_of_lower_upper a), (lower_ascii_other b) in H by done. lia.
  - intros [->|[[_ H]|[? _]]]; [done| |done].
    apply nat_of_ascii_inj.
    rewrite (nat_of_lower_upper a), (lower_ascii_other b) by done. lia.
  - intros H. right. right. split; [done|].
    apply (f_equal nat_of_ascii) in H.
    rewrite (nat_of_lower_upper b), (lower_ascii_other a) in H by done. lia.
  - intros [->|[[? _]|[_ H]]]; [done|done|].
    apply nat_of_ascii_inj.
    rewrite (nat_of_lower_upper b), (lower_ascii_other a) by done. lia.
  - rewrite !lower_ascii_other by done. auto.
  - intros [->|[[? _]|[? _]]]; done.
Qed.

Lemma lower_eq_nocase s : forall t, ascii_lower s = ascii_lower t <-> eq_nocase s t.
Proof.
  induction s as [|a s IH]; intros [|b t]; cbn; try (split; done).
  rewrite <- IH, <- lower_ascii_same_letter. split.
  - by intros [= -> ->].
  - by intros [-> ->].
Qed.

(** * Track resolution and submission *)

Section SpotifyFacts.

Variable str_lower : string -> string.
Variable search : string -> list Track.
Variable current_user : string.
Variable user_playlists : string -> list Playlist.
Variable user_playlist_create : string -> string -> Playlist.

Local Abbreviation find := (search_spotify_track str_lower search).
Local Abbreviation songs := (songs_loop str_lower search).
Local Abbreviation sets := (sets_loop str_lower search).
Local Abbreviation concert := (concert_body str_lower search).

(** C3.  When the search for a song has a top result (and the track names
    its artist), the identifier of that result is returned whatever its
    metadata; the call made is the one search.  The names are compared
    without regard to case, which the script does by comparing their
    [lower()] forms: when the first artist and the title of the result both
    equal the queried ones in that sense, nothing is logged; when one of them
    differs, one warning is logged, and the identifier is returned all the
    same.  For names of ASCII characters the comparison is the one of the
    letters up to case. *)
Theorem search_spotify_track_accepts (track_name0 artist_name0 : string)
    (c : Client) (result : Track) (others : list Track)
    (artist0 : SpArtist) (artists : list SpArtist) :
  let same_artist := str_lower (sp_artist_name artist0) = str_lower artist_name0 in
  let same_title := str_lower (track_name result) = str_lower track_name0 in
  search (track_name0 +:+ " " +:+ artist_name0) = result :: others ->
  track_artists result = artist0 :: artists ->
  (exists c',
     find track_name0 artist_name0 c = Ok (Some (track_uri result)) c' /\
     sp_calls c' = sp_calls c ++ [Search (track_name0 +:+ " " +:+ artist_name0)] /\
     (same_artist /\ same_title -> sp_log c' = sp_log c) /\
     (~ (same_artist /\ same_title) ->
      sp_log c' = sp_log c ++
        [(WARNING, TrackMismatch (sp_artist_name artist0) artist_name0
                     (track_name result) track_name0)]))
  /\
  (lowers_ascii str_lower ->
   is_ascii (sp_artist_name artist0) -> is_ascii artist_name0 ->
   is_ascii (track_name result) -> is_ascii track_name0 ->
   (same_artist <-> eq_nocase (sp_artist_name artist0) artist_name0) /\
   (same_title <-> eq_nocase (track_name result) track_name0)).
Proof.
  intros same_artist same_title Hsearch Hartists.
  subst same_artist same_title. split.
  - unfold search_spotify_track. rewrite Hsearch, Hartists.
    destruct (decide (str_lower (sp_artist_name artist0) = str_lower artist_name0))
      as [Ha|Ha];
      [destruct (decide (str_lower (track_name result) = str_lower track_name0))
         as [Ht|Ht]|].
    + rewrite (bool_decide_eq_false_2 (_ ≠ _)) by (intros H; exact (H Ha)).
      rewrite (bool_decide_eq_false_2 (_ ≠ _)) by (intros H; exact (H Ht)).
      eexists. split; [reflexivity|]. split; [reflexivity|]. split; [done|].
      intros H. destruct H. done.
    + rewrite (bool_decide_eq_false_2 (_ ≠ _)) by (intros H; exact (H Ha)).
      rewrite (bool_decide_eq_true_2 (_ ≠ _)) by exact Ht.
      eexists. split; [reflexivity|]. split; [reflexivity|]. split; [|done].
      by intros [_ H].
    + rewrite (bool_decide_eq_true_2 (_ ≠ _)) by exact Ha.
      eexists. split; [reflexivity|]. split; [reflexivity|]. split; [|done].
      by intros [H _].
  - intros Hlow Ha Ha0 Ht Ht0.
    rewrite !Hlow by done. split; apply lower_eq_nocase.
Qed.

(** *** One search *)

(** Whatever the outcome, a search is one call and no error entry. *)
Lemma find_hit track_name0 artist_name0 c t rest :
  search (track_name0 +:+ " " +:+ artist_name0) = t :: rest ->
  track_artists t <> [] ->
  exists warn,
    find track_name0 artist_name0 c
    = Ok (Some (track_uri t))
        {| sp_log := sp_log c ++ warn;
           sp_calls := sp_calls c ++ [Search (track_name0 +:+ " " +:+ artist_name0)] |}
    /\ List.filter is_error warn = [].
Proof.
  intros Hs Ha. unfold search_spotify_track. rewrite Hs.
  destruct (track_artists t) as [|a0 l]; [done|].
  destruct (_ || _).
  - by exists [(WARNING, TrackMismatch (sp_artist_name a0) artist_name0
                           (track_name t) track_name0)].
  - exists []. cbn. by rewrite app_nil_r.
Qed.

Lemma find_miss track_name0 artist_name0 c :
  search (track_name0 +:+ " " +:+ artist_name0) = [] ->
  find track_name0 artist_name0 c
  = Ok None (sp_call (Search (track_name0 +:+ " " +:+ artist_name0)) c).
Proof. intros Hs. unfold search_spotify_track. by rewrite Hs. Qed.

Lemma find_calls track_name0 artist_name0 c r c' :
  find track_name0 artist_name0 c = Ok r c' ->
  sp_calls c' = sp_calls c ++ [Search (track_name0 +:+ " " +:+ artist_name0)].
Proof.
  unfold search_spotify_track.
  destruct (search _) as [|t rest]; [by intros [= <- <-]|].
  destruct (track_artists t); [done|].
  destruct (_ || _); by intros [= <- <-].
Qed.

Lemma top_hit_Some artist s t :
  top_hit search artist s = Some t ->
  exists rest, search (song_name s +:+ " " +:+ artist) = t :: rest.
Proof.
  unfold top_hit, query_for. destruct (search _) as [|t' rest]; [done|].
  intros [= ->]. by exists rest.
Qed.

Lemma top_hit_None artist s :
  top_hit search artist s = None ->
  search (song_name s +:+ " " +:+ artist) = [].
Proof. unfold top_hit, query_for. by destruct (search _). Qed.

(** *** The loops over songs and sets *)

(** The searches of a loop are one per song, in order, and nothing else. *)
Lemma songs_loop_calls artist pn l : forall acc c batch c',
  songs artist pn l acc c = Ok batch c' ->
  sp_calls c' = sp_calls c ++ (Search <$> (query_for artist <$> l)).
Proof.
  induction l as [|s l IH]; intros acc c batch c' H; cbn in H.
  - injection H as <- <-. cbn. by rewrite app_nil_r.
  - destruct (find (song_name s) artist c) as [r c1|] eqn:Hf; [|done].
    apply find_calls in Hf.
    destruct (uri_truthy r); apply IH in H; rewrite H; cbn;
      rewrite Hf, <- app_assoc; reflexivity.
Qed.

Lemma sets_loop_calls artist pn l : forall acc c batch c',
  sets artist pn l acc c = Ok batch c' ->
  sp_calls c' = sp_calls c ++ (Search <$> (query_for artist <$> all_songs l)).
Proof.
  induction l as [|s l IH]; intros acc c batch c' H; cbn in H.
  - injection H as <- <-. cbn. by rewrite app_nil_r.
  - destruct (songs artist pn (set_song s) acc c) as [b1 c1|] eqn:Hs; [|done].
    apply songs_loop_calls in Hs. apply IH in H.
    unfold all_songs. cbn. rewrite !fmap_app, H, Hs, <- app_assoc. reflexivity.
Qed.

(** With a well-formed catalogue the loop over songs adds the identifiers of
    the songs that have a result and logs one error per song that has none. *)
Lemma songs_loop_resolved artist pn l :
  catalogue_ok search ->
  forall acc c, exists c' new,
    songs artist pn l acc c = Ok (acc ++ resolved_ids search artist l) c' /\
    sp_log c' = sp_log c ++ new /\
    List.filter is_error new
    = not_found_entries artist (unmatched search artist l).
Proof.
  intros Hok. induction l as [|s l IH]; intros acc c.
  - exists c, []. cbn. by rewrite !app_nil_r.
  - cbn [songs_loop]. unfold resolved_ids, unmatched. cbn [omap list_omap List.filter].
    unfold no_hit. destruct (top_hit search artist s) as [t|] eqn:Hhit.
    + destruct (Hok _ _ Hhit) as [Hart Huri].
      apply top_hit_Some in Hhit as [rest Hs].
      destruct (find_hit (song_name s) artist c t rest Hs Hart) as (warn & -> & Hw).
      cbn [uri_truthy]. rewrite bool_decide_eq_true_2 by done.
      cbn [default fmap option_fmap option_map].
      edestruct (IH (acc ++ [track_uri t])) as (c' & new & -> & Hlog & Hnew).
      exists c', (warn ++ [(DEBUG, AddingSong artist (song_name s) pn)] ++ new).
      split; [by rewrite <- app_assoc|]. split.
      * rewrite Hlog. cbn. by rewrite <- !app_assoc.
      * rewrite !List.filter_app, Hw. cbn. exact Hnew.
    + apply top_hit_None in Hhit as Hs. rewrite find_miss by done.
      cbn [uri_truthy fmap option_fmap option_map].
      edestruct (IH acc) as (c' & new & -> & Hlog & Hnew).
      exists c', ((ERROR, SongNotFound artist (song_name s)) :: new).
      split; [done|]. split.
      * rewrite Hlog. cbn. by rewrite <- !app_assoc.
      * cbn. by rewrite Hnew.
Qed.

Lemma sets_loop_resolved artist pn l :
  catalogue_ok search ->
  forall acc c, exists c' new,
    sets artist pn l acc c = Ok (acc ++ resolved_ids search artist (all_songs l)) c' /\
    sp_log c' = sp_log c ++ new /\
    List.filter is_error new
    = not_found_entries artist (unmatched search artist (all_songs l)).
Proof.
  intros Hok. induction l as [|s l IH]; intros acc c.
  - exists c, []. cbn. by rewrite !app_nil_r.
  - cbn [sets_loop].
    destruct (songs_loop_resolved artist pn (set_song s) Hok acc c)
      as (c1 & new1 & -> & Hlog1 & Hnew1).
    destruct (IH (acc ++ resolved_ids search artist (set_song s)) c1)
      as (c' & new & -> & Hlog & Hnew).
    exists c', (new1 ++ new). unfold all_songs, resolved_ids, unmatched in *.
    cbn [fmap list_fmap concat]. split; [|split].
    + by rewrite omap_app, app_assoc.
    + by rewrite Hlog, Hlog1, app_assoc.
    + rewrite !List.filter_app, Hnew1, Hnew.
      unfold not_found_entries. by rewrite fmap_app.
Qed.

(** C4.  With a catalogue whose tracks name an artist and have a non-empty
    identifier, resolving the sets of a setlist from an empty batch always
    succeeds; the batch is exactly the identifiers of the songs that have a
    top result, in setlist order; the errors logged on the way are exactly one
    "not found" entry per song without a result, in order.  In particular, for
    one set with the songs [A; B] where A has a result and B has none, the
    batch is A's identifier alone. *)
Theorem resolved_batch (artist : string) (pn : option string)
    (l : list SetItem) (c : Client) :
  catalogue_ok search ->
  (exists c' new,
     sets artist pn l [] c = Ok (resolved_ids search artist (all_songs l)) c' /\
     sp_log c' = sp_log c ++ new /\
     List.filter is_error new
     = not_found_entries artist (unmatched search artist (all_songs l)))
  /\
  (forall (set_name0 : string) (A B : Song) (tA : Track),
     l = [ {| set_name := set_name0; set_song := [A; B] |} ] ->
     top_hit search artist A = Some tA ->
     top_hit search artist B = None ->
     exists c' new,
       sets artist pn l [] c = Ok [track_uri tA] c' /\
       sp_log c' = sp_log c ++ new /\
       List.filter is_error new = [(ERROR, SongNotFound artist (song_name B))]).
Proof.
  intros Hok.
  destruct (sets_loop_resolved artist pn l Hok [] c) as (c' & new & Hrun & Hlog & Hnew).
  split; [by exists c', new|].
  intros nm A B tA -> HA HB. exists c', new.
  unfold all_songs, resolved_ids, unmatched, no_hit in *.
  cbn in Hrun, Hnew. rewrite HA, HB in Hrun, Hnew. by cbn in *.
Qed.

(** *** One concert *)

(** C5.  A concert whose songs have all been resolved, giving [batch]: the
    calls made so far are the searches, one per song; if the batch is empty
    the body of the loop makes no further call (nothing is appended to the
    playlist) and logs an error; if it is not, the body makes exactly one
    further call, which appends the whole batch to the playlist, and logs the
    success. *)
Theorem concert_submission (playlist_id0 : string) (pn : option string)
    (concert_name : string) (doc : SetlistJson) (c c1 : Client)
    (setlist0 : Setlist) (later : list Setlist) (batch : list string) :
  sj_setlist doc = setlist0 :: later ->
  sets (artist_name (sl_artist setlist0)) pn (sl_sets setlist0) [] c
  = Ok batch c1 ->
  sp_calls c1
  = sp_calls c ++ (Search <$> (query_for (artist_name (sl_artist setlist0))
                                 <$> all_songs (sl_sets setlist0)))
  /\
  (batch = [] ->
   exists c', concert playlist_id0 pn concert_name doc c = Ok tt c' /\
     sp_calls c' = sp_calls c1 /\
     List.filter is_mutation (sp_calls c') = List.filter is_mutation (sp_calls c) /\
     sp_log c' = sp_log c1 ++ [(ERROR, NoMatchingTracks concert_name)])
  /\
  (batch <> [] ->
   exists c', concert playlist_id0 pn concert_name doc c = Ok tt c' /\
     sp_calls c' = sp_calls c1 ++ [PlaylistAddItems playlist_id0 batch] /\
     List.filter is_mutation (sp_calls c')
     = List.filter is_mutation (sp_calls c) ++ [PlaylistAddItems playlist_id0 batch] /\
     sp_log c' = sp_log c1 ++ [(INFO, ConcertAdded concert_name)]).
Proof.
  intros Hdoc Hsets. pose proof (sets_loop_calls _ _ _ _ _ _ _ Hsets) as Hcalls.
  assert (List.filter is_mutation (sp_calls c1) = List.filter is_mutation (sp_calls c))
    as Hmut.
  { rewrite Hcalls, List.filter_app.
    assert (forall qs, List.filter is_mutation (Search <$> qs) = []) as ->
      by (by induction qs).
    by rewrite app_nil_r. }
  split; [exact Hcalls|]. unfold concert_body. rewrite Hdoc, Hsets. split.
  - intros ->. eexists. split; [reflexivity|]. cbn. auto.
  - intros Hne. destruct batch as [|u batch]; [done|].
    eexists. split; [reflexivity|]. cbn [sp_calls sp_logger add_tracks_to_playlist sp_call sp_log].
    split; [done|]. split; [|done].
    rewrite List.filter_app, Hmut. reflexivity.
Qed.

(** C9.  Two documents with the same first setlist (or both without any) are
    treated alike: the body of the loop gives the same result in the same
    state, hence the same searches, the same batch, the same playlist calls
    and the same log, whatever the later setlists are.  When the body
    succeeds, its searches are those for the songs of the first setlist with
    the artist of the first setlist. *)
Theorem first_setlist_only (playlist_id0 : string) (pn : option string)
    (concert_name : string) (doc1 doc2 : SetlistJson) (c : Client) :
  head (sj_setlist doc1) = head (sj_setlist doc2) ->
  concert playlist_id0 pn concert_name doc1 c
  = concert playlist_id0 pn concert_name doc2 c
  /\
  (forall setlist0 c',
     head (sj_setlist doc1) = Some setlist0 ->
     concert playlist_id0 pn concert_name doc1 c = Ok tt c' ->
     exists batch,
       sp_calls c'
       = sp_calls c
         ++ (Search <$> (query_for (artist_name (sl_artist setlist0))
                           <$> all_songs (sl_sets setlist0)))
         ++ submission playlist_id0 batch).
Proof.
  intros Hhead. split.
  - unfold concert_body.
    destruct (sj_setlist doc1) as [|s1 l1], (sj_setlist doc2) as [|s2 l2];
      try done.
    cbn in Hhead. by injection Hhead as ->.
  - intros setlist0 c' H0. unfold concert_body.
    destruct (sj_setlist doc1) as [|s1 l1]; [done|]. cbn in H0.
    injection H0 as ->.
    destruct (sets _ pn (sl_sets setlist0) [] c) as [batch c1|] eqn:Hsets; [|done].
    apply sets_loop_calls in Hsets. exists batch.
    destruct batch; injection H as <-; cbn; rewrite Hsets, <- ?app_assoc;
      by rewrite ?app_nil_r.
Qed.

(** *** The playlist *)

Local Abbreviation resolve :=
  (resolve_playlist current_user user_playlists user_playlist_create).

(** The loop over the playlists returns the first one with the name. *)
Lemma playlists_loop_first name before p after :
  Forall (fun x => playlist_name x <> name) before ->
  playlist_name p = name ->
  playlists_loop name (before ++ p :: after) = Some (playlist_id p).
Proof.
  intros Hb Hp. induction Hb as [|x l Hx _ IH]; cbn.
  - by rewrite bool_decide_eq_true_2.
  - by rewrite bool_decide_eq_false_2.
Qed.

Lemma playlists_loop_none name l :
  Forall (fun x => playlist_name x <> name) l ->
  playlists_loop name l = None.
Proof.
  intros Hl. induction Hl as [|x l Hx _ IH]; cbn; [done|].
  by rewrite bool_decide_eq_false_2.
Qed.

(** C6.  Which playlist is filled.
    (i) A name is supplied and the user's playlists contain one with exactly
    that name: the identifier of the first such playlist is used; the calls
    are the lookup, nothing is created.
    (ii) A name is supplied and no playlist has exactly that name: a playlist
    with that name is created and used.
    (iii) No name is supplied: a playlist named [Concerts_<input_dir>] is
    created and used, without any lookup, whatever playlists exist. *)
Theorem playlist_resolution (input_dir : string) (c : Client) :
  (forall name before p after,
     user_playlists current_user = before ++ p :: after ->
     Forall (fun x => playlist_name x <> name) before ->
     playlist_name p = name ->
     resolve input_dir (Some name) c
     = (playlist_id p,
        {| sp_log := sp_log c;
           sp_calls := sp_calls c ++ [CurrentUser; UserPlaylists current_user] |}))
  /\
  (forall name,
     Forall (fun x => playlist_name x <> name) (user_playlists current_user) ->
     resolve input_dir (Some name) c
     = (playlist_id (user_playlist_create current_user name),
        {| sp_log := sp_log c ++ [(INFO, PlaylistNotFound name)];
           sp_calls := sp_calls c ++ [CurrentUser; UserPlaylists current_user;
                                      CurrentUser;
                                      UserPlaylistCreate current_user name] |}))
  /\
  resolve input_dir None c
  = (playlist_id (user_playlist_create current_user ("Concerts_" +:+ input_dir)),
     {| sp_log := sp_log c;
        sp_calls := sp_calls c ++ [CurrentUser;
                                   UserPlaylistCreate current_user
                                     ("Concerts_" +:+ input_dir)] |}).
Proof.
  split; [|split].
  - intros name before p after Hl Hb Hp.
    unfold resolve_playlist, get_playlist_id_by_name.
    rewrite Hl, (playlists_loop_first _ _ _ _ Hb Hp).
    unfold sp_call. cbn. by rewrite <- app_assoc.
  - intros name Hl.
    unfold resolve_playlist, get_playlist_id_by_name, create_spotify_playlist.
    rewrite (playlists_loop_none _ _ Hl).
    unfold sp_call, sp_logger. cbn. by rewrite <- !app_assoc.
  - unfold resolve_playlist, create_spotify_playlist, sp_call. cbn.
    by rewrite <- !app_assoc.
Qed.

End SpotifyFacts.

(** ** The sample catalogue *)

Lemma sample_search_ok : catalogue_ok sample_search.
Proof.
  intros q t. unfold sample_search. case_bool_decide; [|done].
  intros [= <-]. split; done.
Defined.

(** The query "song"/"artist" answered by "Song"/"Artist" is accepted in
    silence; answered by a track of "Other Artist" it is accepted with a
    warning. *)
Lemma search_spotify_track_accepts_witness :
  search_spotify_track ascii_lower search_same_names "song" "artist" empty_client
  = Ok (Some "spotify:track:1")
      {| sp_log := []; sp_calls := [Search "song artist"] |}
  /\
  search_spotify_track ascii_lower search_other_artist "song" "artist" empty_client
  = Ok (Some "spotify:track:2")
      {| sp_log := [(WARNING, TrackMismatch "Other Artist" "artist" "song" "song")];
         sp_calls := [Search "song artist"] |}
  /\
  eq_nocase "Artist" "artist" /\ ~ eq_nocase "Other Artist" "artist".
Proof.
  assert (lowers_ascii ascii_lower) as Hlow by (intros s _; reflexivity).
  destruct (search_spotify_track_accepts ascii_lower search_same_names "song"
              "artist" empty_client _ _ _ _ eq_refl eq_refl)
    as [(c1 & Hrun1 & Hcalls1 & Hquiet & _) Hsame].
  destruct (search_spotify_track_accepts ascii_lower search_other_artist "song"
              "artist" empty_client _ _ _ _ eq_refl eq_refl)
    as [(c2 & Hrun2 & Hcalls2 & _ & Hwarn) Hother].
  split; [|split; [|split]].
  - rewrite Hrun1. destruct c1 as [l k]. cbn [sp_calls sp_log empty_client] in *.
    rewrite Hcalls1, Hquiet; [reflexivity|]. split; reflexivity.
  - rewrite Hrun2. destruct c2 as [l k]. cbn [sp_calls sp_log empty_client] in *.
    rewrite Hcalls2, Hwarn; [reflexivity|]. intros [H _]. discriminate H.
  - apply Hsame; [exact Hlow|cbn; repeat split; vm_compute; lia..|reflexivity].
  - intros H. apply Hother in H;
      [discriminate H|exact Hlow|cbn; repeat split; vm_compute; lia..].
Defined.

(** The sample setlist has the songs A and B in one set; the catalogue knows
    A only. *)
Lemma resolved_batch_witness :
  exists c' new,
    sets_loop ascii_lower sample_search "The Band" (Some "Tour") (sl_sets full_setlist) []
      empty_client
    = Ok ["spotify:track:A"] c'
    /\ sp_log c' = new
    /\ List.filter is_error new = [(ERROR, SongNotFound "The Band" "Song B")].
Proof.
  destruct (resolved_batch ascii_lower sample_search "The Band" (Some "Tour")
              (sl_sets full_setlist) empty_client sample_search_ok)
    as [_ H].
  apply (H "Set 1" (song "Song A") (song "Song B")
           (track "The Band" "Song A" "spotify:track:A"));
    reflexivity.
Defined.

(** With the sample catalogue the concert is submitted in one call after its
    two searches; with the empty catalogue nothing is submitted. *)
Lemma concert_submission_witness :
  (exists c',
     concert_body ascii_lower sample_search "p2" (Some "Tour") "2023-07-14_1_The Band"
       (doc_of [full_setlist]) empty_client = Ok tt c'
     /\ sp_calls c' = [ Search "Song A The Band"; Search "Song B The Band";
                        PlaylistAddItems "p2" ["spotify:track:A"] ])
  /\
  (exists c',
     concert_body ascii_lower silent_search "p2" (Some "Tour") "2023-07-14_1_The Band"
       (doc_of [full_setlist]) empty_client = Ok tt c'
     /\ sp_calls c' = [ Search "Song A The Band"; Search "Song B The Band" ]
     /\ List.last (sp_log c') (DEBUG, ConcertAdded EmptyString)
        = (ERROR, NoMatchingTracks "2023-07-14_1_The Band")).
Proof.
  split.
  - edestruct (concert_submission ascii_lower sample_search "p2" (Some "Tour")
                 "2023-07-14_1_The Band" (doc_of [full_setlist]) empty_client)
      as (Hcalls & _ & Hsome); [reflexivity|vm_compute; reflexivity|].
    destruct Hsome as (c' & Hrun & Hc' & _); [done|].
    exists c'. split; [exact Hrun|]. rewrite Hc'. reflexivity.
  - edestruct (concert_submission ascii_lower silent_search "p2" (Some "Tour")
                 "2023-07-14_1_The Band" (doc_of [full_setlist]) empty_client)
      as (Hcalls & Hnone & _); [reflexivity|vm_compute; reflexivity|].
    destruct Hnone as (c' & Hrun & Hc' & _ & Hlog); [done|].
    exists c'. split; [exact Hrun|]. rewrite Hc', Hlog. split; reflexivity.
Defined.

(** The account has two playlists called "Concerts": the first is used.  No
    playlist is called "concerts": one is created.  Without a name a playlist
    called "Concerts_2023" is created. *)
Lemma playlist_resolution_witness :
  fst (resolve_playlist sample_user sample_playlists sample_create
         "2023" (Some "Concerts") empty_client) = "p2"
  /\
  resolve_playlist sample_user sample_playlists sample_create
    "2023" (Some "concerts") empty_client
  = ("new:concerts",
     {| sp_log := [(INFO, PlaylistNotFound "concerts")];
        sp_calls := [CurrentUser; UserPlaylists "user-1"; CurrentUser;
                     UserPlaylistCreate "user-1" "concerts"] |})
  /\
  resolve_playlist sample_user sample_playlists sample_create
    "2023" None empty_client
  = ("new:Concerts_2023",
     {| sp_log := [];
        sp_calls := [CurrentUser; UserPlaylistCreate "user-1" "Concerts_2023"] |}).
Proof.
  destruct (playlist_resolution sample_user sample_playlists sample_create
              "2023" empty_client) as (Hfound & Hmissing & Hunnamed).
  split; [|split].
  - rewrite (Hfound "Concerts"
               [ {| playlist_id := "p1"; playlist_name := "Summer" |} ]
               {| playlist_id := "p2"; playlist_name := "Concerts" |}
               [ {| playlist_id := "p3"; playlist_name := "Concerts" |} ]);
      [reflexivity|reflexivity| |reflexivity].
    repeat constructor. discriminate.
  - rewrite (Hmissing "concerts"); [reflexivity|].
    repeat constructor; discriminate.
  - exact Hunnamed.
Defined.

(** A document with a second setlist is treated as the document without
    it. *)
Lemma first_setlist_only_witness :
  concert_body ascii_lower sample_search "p2" (Some "Tour") "2023-07-14_1_The Band"
    (doc_of [full_setlist; other_setlist]) empty_client
  = concert_body ascii_lower sample_search "p2" (Some "Tour") "2023-07-14_1_The Band"
      (doc_of [full_setlist]) empty_client.
Proof.
  apply (first_setlist_only ascii_lower sample_search "p2" (Some "Tour")
           "2023-07-14_1_The Band" (doc_of [full_setlist; other_setlist])
           (doc_of [full_setlist]) empty_client).
  reflexivity.
Defined.

(** * More on the fetch *)

Section GetSetlistShape.

Variable setlist_num_retries : Z.
Variable setlist_retriable_errors : gset string.
Variable server : nat -> Request -> Response.

Local Abbreviation iter := (get_setlist_iter setlist_num_retries setlist_retriable_errors server).
Local Abbreviation loop := (get_setlist_loop setlist_num_retries setlist_retriable_errors server).
Local Abbreviation fetch := (get_setlist setlist_num_retries setlist_retriable_errors server).
Local Abbreviation retriable := (retriable_failure setlist_retriable_errors).
Local Abbreviation fatal := (fatal_failure setlist_retriable_errors).
Local Abbreviation ending := (Ending setlist_num_retries setlist_retriable_errors server).

Lemma after_retries_from_0 n w a d : after_retries_from server n w a d 0 = w.
Proof.
  unfold after_retries_from, first_reasons. cbn. rewrite !app_nil_r. by destruct w.
Qed.

Lemma after_retries_from_S n w a d k :
  after_retries_from server n w a d (S k)
  = after_retries_from server (n + 1)
      (logger INFO (RetriableError a (strftime_dmy d)
                      (reason (server (length (sent w)) (query_of a d))) (n + 1))
         (record_request (query_of a d) w)) a d k.
Proof.
  unfold after_retries_from. rewrite first_reasons_S. cbn.
  rewrite <- !app_assoc. reflexivity.
Qed.

(** Every fetch that returns ends in one of the four ways, after some number
    [k] of retriable failures that stays within the budget. *)
Lemma loop_ending fuel a d : forall n w r w',
  loop fuel a (strftime_dmy d) (n, w) = Some (r, w') ->
  exists k,
    (forall i, (i < k)%nat -> retriable (nth_response server w (query_of a d) i)) /\
    ((0 < k)%nat -> n + Z.of_nat k <= setlist_num_retries + 1) /\
    ending a d n w k r w'.
Proof.
  induction fuel as [|fuel IH]; intros n w r w' Hrun; [done|].
  cbn [get_setlist_loop] in Hrun.
  destruct (decide (n <= setlist_num_retries)) as [Hn|Hn].
  - destruct (response_cases setlist_retriable_errors
                (server (length (sent w)) (query_of a d))) as [Hs|[Hr|Hf]].
    + rewrite iter_success in Hrun by done.
      exists 0%nat. split; [lia|]. split; [lia|].
      destruct (has_setlist _) eqn:Hhas; injection Hrun as <- <-.
      * pose proof (Found setlist_num_retries setlist_retriable_errors server
                      a d n w 0) as H.
        unfold nth_response in H. rewrite Nat.add_0_r, after_retries_from_0 in H.
        apply H; [lia|done|done].
      * pose proof (NotFound setlist_num_retries setlist_retriable_errors server
                      a d n w 0) as H.
        unfold nth_response in H. rewrite Nat.add_0_r, after_retries_from_0 in H.
        apply H; [lia|done|done].
    + rewrite iter_retry in Hrun by done.
      apply IH in Hrun as (k & Hk & Hb & He).
      exists (S k). split; [|split; [lia|]].
      * intros [|i] Hi.
        -- unfold nth_response. by rewrite Nat.add_0_r.
        -- specialize (Hk i ltac:(lia)). unfold nth_response in *. cbn in Hk.
           rewrite length_app in Hk. cbn in Hk.
           by replace (length (sent w) + S i)%nat
             with (length (sent w) + 1 + i)%nat by lia.
      * assert (forall i, nth_response server
                  (logger INFO (RetriableError a (strftime_dmy d)
                     (reason (server (length (sent w)) (query_of a d))) (n + 1))
                     (record_request (query_of a d) w)) (query_of a d) i
                = nth_response server w (query_of a d) (S i)) as Hnth.
        { intros i. unfold nth_response. cbn. rewrite length_app. cbn.
          f_equal. lia. }
        destruct He as [He|He Hs Hh|He Hs Hh|He Hf];
          rewrite ?Hnth in *; rewrite <- after_retries_from_S.
        -- apply MaxReached. lia.
        -- apply Found; [lia|done|done].
        -- apply NotFound; [lia|done|done].
        -- apply Failed; [lia|done].
    + rewrite iter_fatal in Hrun by done. injection Hrun as <- <-.
      exists 0%nat. split; [lia|]. split; [lia|].
      pose proof (Failed setlist_num_retries setlist_retriable_errors server
                    a d n w 0) as H.
      unfold nth_response in H. rewrite Nat.add_0_r, after_retries_from_0 in H.
      apply H; [lia|done].
  - rewrite iter_exit in Hrun by lia. injection Hrun as <- <-.
    exists 0%nat. split; [lia|]. split; [lia|].
    pose proof (MaxReached setlist_num_retries setlist_retriable_errors server
                  a d n w 0) as H.
    rewrite after_retries_from_0 in H. apply H. lia.
Qed.

Lemma fetch_ending fuel a d w r w' :
  fetch fuel a d w = Some (r, w') ->
  exists k,
    (forall i, (i < k)%nat -> retriable (nth_response server w (query_of a d) i)) /\
    ((0 < k)%nat -> Z.of_nat k <= setlist_num_retries + 1) /\
    ending a d 0 w k r w'.
Proof.
  intros H. apply loop_ending in H as (k & ? & ? & ?). exists k.
  split; [done|]. split; [lia|done].
Qed.

Lemma filter_error_retry_entries a fd n l :
  List.filter is_error (retry_entries a fd n l) = [].
Proof. revert n. induction l as [|r l IH]; intros n; cbn; [done|apply IH]. Qed.

Lemma filter_retry_retry_entries a fd n l :
  List.filter is_retry (retry_entries a fd n l) = retry_entries a fd n l.
Proof. revert n. induction l as [|r l IH]; intros n; cbn; [done|by rewrite IH]. Qed.

Lemma length_retry_entries a fd n l :
  length (retry_entries a fd n l) = length l.
Proof. revert n. induction l as [|r l IH]; intros n; cbn; [done|by rewrite IH]. Qed.

Lemma length_first_reasons w q k : length (first_reasons server w q k) = k.
Proof. unfold first_reasons. by rewrite length_fmap, length_seq. Qed.

(** What an ending leaves: the files as they were, [k] retry entries then at
    most one error in the log, and [k] requests plus the one that was
    answered, if one was. *)
Lemma ending_facts a d n w k r w' :
  ending a d n w k r w' ->
  fs w' = fs w /\
  exists tail (answered : nat),
    log w' = log w ++ retry_entries a (strftime_dmy d) n
                        (first_reasons server w (query_of a d) k) ++ tail /\
    sent w' = sent w ++ replicate (k + answered) (query_of a d) /\
    List.filter is_retry tail = [] /\
    length (List.filter is_error tail) = match r with Some _ => 0%nat | None => 1%nat end /\
    ((answered = 0%nat /\ setlist_num_retries < n + Z.of_nat k /\ r = None) \/
     (answered = 1%nat /\ n + Z.of_nat k <= setlist_num_retries)).
Proof.
  assert (forall j, sent w ++ replicate j (query_of a d) ++ [query_of a d]
                    = sent w ++ replicate (j + 1) (query_of a d)) as Hrep.
  { intros j. by rewrite replicate_add. }
  intros [He|He Hs Hh|He Hs Hh|He Hf]; (split; [reflexivity|]); cbn.
  - eexists [_], 0%nat. rewrite <- app_assoc, Nat.add_0_r. cbn. auto 10.
  - exists [], 1%nat. rewrite <- !app_assoc, app_nil_r, Hrep. cbn. auto 10.
  - eexists [_], 1%nat. rewrite <- !app_assoc, Hrep. cbn. auto 10.
  - eexists [_], 1%nat. rewrite <- !app_assoc, Hrep. cbn. auto 10.
Qed.

(** X1.  A document returned by a fetch is the body of one of the service's
    responses to the query of this fetch, a response with status 200, and its
    first setlist has at least one set. *)
Theorem get_setlist_returns_setlist (fuel : nat) (artist : string) (d : Date)
    (w w' : World) (doc : SetlistJson) :
  fetch fuel artist d w = Some (Some doc, w') ->
  first_setlist_has_sets doc /\
  exists i, doc = json (nth_response server w (query_of artist d) i) /\
            success (nth_response server w (query_of artist d) i).
Proof.
  intros H. apply fetch_ending in H as (k & _ & _ & He).
  inversion He as [|He' Hs Hh| |]; subst. split; [by apply has_setlist_spec|].
  by exists k.
Qed.

(** X2.  A fetch keeps the log it found and adds to it.  Among the entries it
    adds there is exactly one error when it returns nothing and no error when
    it returns a document; and it touches no file. *)
Theorem get_setlist_error_logged (fuel : nat) (artist : string) (d : Date)
    (w w' : World) (r : option SetlistJson) :
  fetch fuel artist d w = Some (r, w') ->
  log w' = log w ++ new_entries w w' /\
  length (List.filter is_error (new_entries w w')) = match r with Some _ => 0%nat | None => 1%nat end /\
  fs w' = fs w.
Proof.
  intros H. apply fetch_ending in H as (k & _ & _ & He).
  apply ending_facts in He as (Hfs & tail & j & Hlog & _ & _ & Herr & _).
  unfold new_entries. rewrite Hlog, drop_app_length.
  split; [done|]. split; [|done].
  by rewrite List.filter_app, filter_error_retry_entries.
Qed.

(** X3.  Requests and retries of a fetch.  All its requests are its query.
    It sends no request at all exactly when the configured maximum is
    negative.  Every request but the first follows a retry entry in the log:
    the requests are one more than the retry entries when a response ended the
    fetch (always so when a document is returned), and as many as the retry
    entries when the maximum was reached. *)
Theorem get_setlist_requests (fuel : nat) (artist : string) (d : Date)
    (w w' : World) (r : option SetlistJson) :
  fetch fuel artist d w = Some (r, w') ->
  let requests := requests_issued w w' in
  let retries := length (List.filter is_retry (new_entries w w')) in
  sent w' = sent w ++ replicate requests (query_of artist d) /\
  (requests = 0%nat <-> setlist_num_retries < 0) /\
  (retries <= requests <= retries + 1)%nat /\
  (is_Some r -> requests = (retries + 1)%nat) /\
  (requests = retries ->
   last (log w') = Some (ERROR, MaxRetriesReached artist (strftime_dmy d))).
Proof.
  intros H requests retries. apply fetch_ending in H as (k & _ & Hb & He).
  assert (last (log w') = Some (ERROR, MaxRetriesReached artist (strftime_dmy d))
          \/ setlist_num_retries >= Z.of_nat k) as Hlast.
  { destruct He; [left|right; lia..]. cbn. by rewrite last_snoc. }
  apply ending_facts in He as (_ & tail & j & Hlog & Hsent & Hret & _ & Hj).
  assert (requests = (k + j)%nat) as ->.
  { subst requests. unfold requests_issued.
    rewrite Hsent, length_app, length_replicate. lia. }
  assert (retries = k) as ->.
  { subst retries. unfold new_entries.
    rewrite Hlog, drop_app_length, List.filter_app, filter_retry_retry_entries,
      Hret, app_nil_r, length_retry_entries. apply length_first_reasons. }
  split; [done|].
  destruct Hj as [(-> & Hmax & ->)|(-> & Hmax)].
  - repeat split; try lia.
    + by intros [? ?].
    + intros _. destruct Hlast as [?|?]; [done|lia].
  - repeat split; lia.
Qed.

(** The requests of a fetch: its query, at most max+1 times. *)
Lemma fetch_sent fuel a d w r w' :
  fetch fuel a d w = Some (r, w') ->
  exists j, sent w' = sent w ++ replicate j (query_of a d) /\
            (j <= Z.to_nat (setlist_num_retries + 1))%nat.
Proof.
  intros H. apply fetch_ending in H as (k & _ & Hb & He).
  apply ending_facts in He as (_ & tail & j & _ & Hsent & _ & _ & Hj).
  exists (k + j)%nat. split; [done|]. lia.
Qed.

(** The log of a fetch: the old log, then entries with one error exactly
    when nothing is returned. *)
Lemma fetch_log fuel a d w r w' :
  fetch fuel a d w = Some (r, w') ->
  exists new, log w' = log w ++ new /\
    length (List.filter is_error new) = match r with Some _ => 0%nat | None => 1%nat end.
Proof.
  intros H. apply fetch_ending in H as (k & _ & _ & He).
  apply ending_facts in He as (_ & tail & j & Hlog & _ & _ & Herr & _).
  eexists. split; [exact Hlog|].
  by rewrite List.filter_app, filter_error_retry_entries.
Qed.

(** With more than max+1 passes of fuel a fetch returns, and what it returns
    does not depend on the fuel. *)
Lemma fetch_total a d w :
  exists r w', forall fuel, (Z.to_nat (setlist_num_retries + 1) < fuel)%nat ->
    fetch fuel a d w = Some (r, w').
Proof.
  destruct (loop_total setlist_num_retries setlist_retriable_errors server a d
              (Z.to_nat (setlist_num_retries + 1)) 0 w)
    as (r & w' & k & _ & _ & Hrun); [f_equal; lia|].
  by exists r, w'.
Qed.

End GetSetlistShape.

(** The fetch from the sample service that fails twice and then answers. *)
Lemma get_setlist_returns_setlist_witness :
  first_setlist_has_sets (doc_of [full_setlist]).
Proof.
  edestruct (get_setlist_returns_setlist 2 sample_retriable flaky_server 3
               "The Band" bastille_day empty_world) as [H _].
  - vm_compute. reflexivity.
  - exact H.
Defined.

(** The fetch from the sample service that is down adds one error. *)
Lemma get_setlist_error_logged_witness :
  exists w',
    get_setlist 2 sample_retriable down_server 4 "The Band" bastille_day
      empty_world = Some (None, w')
    /\ length (List.filter is_error (new_entries empty_world w')) = 1%nat.
Proof.
  eexists. split; [vm_compute; reflexivity|].
  edestruct (get_setlist_error_logged 2 sample_retriable down_server 4
               "The Band" bastille_day empty_world) as (_ & H & _).
  - vm_compute. reflexivity.
  - exact H.
Defined.

(** Three requests and two retry entries when the third response answers. *)
Lemma get_setlist_requests_witness :
  exists w',
    get_setlist 2 sample_retriable flaky_server 3 "The Band" bastille_day
      empty_world = Some (Some (doc_of [full_setlist]), w')
    /\ requests_issued empty_world w'
       = (length (List.filter is_retry (new_entries empty_world w')) + 1)%nat.
Proof.
  eexists. split; [vm_compute; reflexivity|].
  edestruct (get_setlist_requests 2 sample_retriable flaky_server 3
               "The Band" bastille_day empty_world) as (_ & _ & _ & H & _).
  - vm_compute. reflexivity.
  - apply H. by eexists.
Defined.

(** * More on [write_concerts_to_json] *)

Section WriteConcertsRun.

Variable setlist_num_retries : Z.
Variable setlist_retriable_errors : gset string.
Variable server : nat -> Request -> Response.
Variable setlists_dir : string.
Variable int_of_str : string -> option Z.
Variable json_dumps : SetlistJson -> string.
Variable os_write : string -> string -> World -> WriteResult.

Local Abbreviation fetch := (get_setlist setlist_num_retries setlist_retriable_errors server).
Local Abbreviation body :=
  (concert_iter setlist_num_retries setlist_retriable_errors server int_of_str
     json_dumps os_write).
Local Abbreviation rows_loop :=
  (concerts_loop setlist_num_retries setlist_retriable_errors server int_of_str
     json_dumps os_write).
Local Abbreviation run :=
  (write_concerts_to_json setlist_num_retries setlist_retriable_errors server
     setlists_dir int_of_str json_dumps os_write).
Local Abbreviation file_of :=
  (row_file setlist_num_retries setlist_retriable_errors server int_of_str).
Local Abbreviation enough := (Z.to_nat (setlist_num_retries + 1)).

(** The ways through one pass for a row. *)
Lemma concert_iter_cases fuel dir index row w :
  (exists e, date_error_of int_of_str row = Some e /\
     (e = ValueError \/ e = OverflowError) /\
     body fuel dir index row w = Raised e w)
  \/
  (exists cd pd, concert_date_of int_of_str row = Some cd /\
     display_date_of int_of_str row = Some pd /\
     body fuel dir index row w
     = match fetch fuel (Group row) cd w with
       | None => OutOfFuel
       | Some (Some result, w') =>
           write_text os_write
             (dir +:+ "/" +:+ generated_name pd index (Group row))
             (json_dumps result) w'
       | Some (None, w') => Finished w'
       end).
Proof.
  destruct (concert_date_of int_of_str row) as [cd|] eqn:Hcd;
    [destruct (display_date_of int_of_str row) as [pd|] eqn:Hpd|].
  - right. exists cd, pd. split; [done|]. split; [done|].
    by apply concert_iter_dates.
  - left. destruct (date_error_of_Some int_of_str row) as (e & He & Hk); [by right|].
    exists e. split; [done|]. split; [done|]. by apply concert_iter_invalid.
  - left. destruct (date_error_of_Some int_of_str row) as (e & He & Hk); [by left|].
    exists e. split; [done|]. split; [done|]. by apply concert_iter_invalid.
Qed.

(** One pass never runs out of fuel above max+1, and does the same with any
    such fuel. *)
Lemma concert_iter_total fuel fuel' dir index row w :
  (enough < fuel)%nat -> (enough < fuel')%nat ->
  body fuel dir index row w = body fuel' dir index row w /\
  body fuel dir index row w <> OutOfFuel.
Proof.
  intros Hf Hf'.
  destruct (concert_iter_cases fuel dir index row w)
    as [(e & He & _ & H)|(cd & pd & Hcd & Hpd & H)].
  - rewrite H. by erewrite concert_iter_invalid by exact He.
  - rewrite H. erewrite (concert_iter_dates _ _ _ _ _ _ fuel') by eassumption.
    destruct (fetch_total setlist_num_retries setlist_retriable_errors server
                (Group row) cd w) as (r & w' & Hrun).
    rewrite !Hrun by done. destruct r; [|done].
    split; [done|apply write_text_fuel].
Qed.

(** X4.  With more than max+1 passes of fuel for each fetch, a run over any
    table ends, finished or stopped by an exception, and its outcome is the
    same whatever the fuel. *)
Theorem write_concerts_to_json_terminates (fuel fuel' : nat)
    (concerts_df : list Row) (output_dir : string) (w : World) :
  (enough < fuel)%nat -> (enough < fuel')%nat ->
  run fuel concerts_df output_dir w = run fuel' concerts_df output_dir w /\
  run fuel concerts_df output_dir w <> OutOfFuel.
Proof.
  intros Hf Hf'. unfold write_concerts_to_json.
  generalize 0 as index. revert w.
  induction concerts_df as [|row rows IH]; intros w index; cbn; [done|].
  destruct (concert_iter_total fuel fuel' (setlists_dir +:+ "/" +:+ output_dir)
              index row w Hf Hf') as [<- Hne].
  destruct (body fuel _ index row w); [apply IH|done|done].
Qed.

(** X5.  Both dates of a row are built before its setlist is fetched.  When
    the concert date or the display date of a row cannot be built, the run
    stops there with the exception of the conversion that failed, a
    [ValueError] or an [OverflowError]: nothing is requested for this row, not
    even when only the override date is wrong, and the rows after it are not
    processed.  What the earlier rows wrote stays.  For a row whose Day, Month
    and Year are integers, a concert date that does not exist raises
    [ValueError] when the three numbers fit a C [int], and [OverflowError]
    when one of them does not. *)
Theorem write_concerts_to_json_bad_date (fuel : nat) (output_dir : string)
    (pre post : list Row) (row : Row) (w w1 : World) :
  rows_loop fuel (setlists_dir +:+ "/" +:+ output_dir) 0 pre w = Finished w1 ->
  concert_date_of int_of_str row = None \/ display_date_of int_of_str row = None ->
  exists e,
    date_error_of int_of_str row = Some e /\
    (e = ValueError \/ e = OverflowError) /\
    run fuel (pre ++ row :: post) output_dir w = Raised e w1 /\
    (forall y m d,
       Year row = CInt y -> Month row = CInt m -> Day row = CInt d ->
       concert_date_of int_of_str row = None ->
       e = if fits_c_int y && fits_c_int m && fits_c_int d
           then ValueError else OverflowError).
Proof.
  intros Hpre Hbad.
  destruct (date_error_of_Some int_of_str row Hbad) as (e & He & Hkind).
  exists e. split; [done|]. split; [done|]. split.
  - unfold write_concerts_to_json.
    rewrite concerts_loop_app, Hpre. cbn [concerts_loop].
    by erewrite concert_iter_invalid by exact He.
  - intros y m d Hy Hm Hd Hcd. revert He Hcd.
    unfold date_error_of, concert_date_of. rewrite Hy, Hm, Hd.
    change (date_of_cells int_of_str (CInt y) (CInt m) (CInt d))
      with (datetime_date y m d).
    destruct (datetime_date y m d) as [cd|e1] eqn:Hdt; [done|].
    intros [= <-] _. by apply datetime_date_raises.
Qed.

(** What one pass leaves behind, when it does not run out of fuel: the
    requests of one fetch for the group of the row, and either the files as
    they were or the file of the row set. *)
Lemma concert_iter_ended fuel dir index row w w' :
  ended (body fuel dir index row w) w' ->
  (exists j, sent w' = sent w ++ replicate j
               {| artistName := Group row;
                  date := from_option strftime_dmy EmptyString
                            (concert_date_of int_of_str row) |} /\
             (j <= enough)%nat) /\
  (fs w' = fs w \/
   exists pd content,
     display_date_of int_of_str row = Some pd /\
     fs w' = <[dir +:+ "/" +:+ generated_name pd index (Group row)
               := content]> (fs w)).
Proof.
  intros Hend.
  destruct (concert_iter_cases fuel dir index row w)
    as [(e & _ & _ & H)|(cd & pd & Hcd & Hpd & H)]; rewrite H in Hend.
  - destruct Hend as [[=]|[e' [= _ <-]]].
    split; [|by left]. exists 0%nat. cbn. rewrite app_nil_r. split; [done|lia].
  - rewrite Hcd. cbn [from_option].
    destruct (fetch fuel (Group row) cd w) as [[r wf]|] eqn:Hf;
      [|by destruct Hend as [[=]|[e [=]]]].
    pose proof (fetch_sent _ _ _ _ _ _ _ _ _ Hf) as Hsent.
    apply get_setlist_frame in Hf as [Hfs _].
    destruct r as [result|].
    + apply write_text_ended in Hend as [->|[content ->]].
      * split; [exact Hsent|]. by left.
      * split; [exact Hsent|]. right. exists pd, content. split; [done|].
        cbn. by rewrite Hfs.
    + destruct Hend as [[= <-]|[e [=]]]. split; [exact Hsent|]. by left.
Qed.

(** X6.  The requests of a run.  A run that ends has sent, in addition to
    what was sent before, at most max+1 requests per row of the table, and
    every one of them asks for the group of a row of the table. *)
Theorem write_concerts_to_json_requests (fuel : nat) (concerts_df : list Row)
    (output_dir : string) (w w' : World) :
  ended (run fuel concerts_df output_dir w) w' ->
  exists new,
    sent w' = sent w ++ new /\
    (length new <= length concerts_df * enough)%nat /\
    Forall (fun q => exists row, row ∈ concerts_df /\ artistName q = Group row) new.
Proof.
  unfold write_concerts_to_json.
  set (dir := setlists_dir +:+ "/" +:+ output_dir).
  generalize 0 as index. revert w.
  induction concerts_df as [|row rows IH]; intros w index Hend; cbn in Hend.
  - destruct Hend as [[= <-]|[e [=]]]. exists []. by rewrite app_nil_r.
  - destruct (body fuel dir index row w) as [w1|e w1|] eqn:Hrow.
    + apply IH in Hend as (new & Hsent & Hlen & Hall).
      destruct (concert_iter_ended fuel dir index row w w1) as [(j & Hj & Hb) _];
        [left; exact Hrow|].
      rewrite Hsent, Hj, <- app_assoc.
      eexists. split; [reflexivity|]. split.
      * rewrite length_app, length_replicate. cbn. lia.
      * apply Forall_app. split.
        -- apply Forall_replicate. exists row. split; [left|done].
        -- eapply Forall_impl; [exact Hall|].
           intros q (r & Hr & Hq). exists r. split; [by right|done].
    + destruct Hend as [[=]|[e' [= _ <-]]].
      destruct (concert_iter_ended fuel dir index row w w1) as [(j & Hj & Hb) _];
        [right; eexists; exact Hrow|].
      eexists. split; [exact Hj|]. split.
      * rewrite length_replicate. cbn. lia.
      * apply Forall_replicate. exists row. split; [left|done].
    + by destruct Hend as [[=]|[e' [=]]].
Qed.





(** X9.  What a pass of the loop does for a row, when it finishes: either the
    row is matched, its file is set and the pass logs no error; or the row is
    not matched, the files stay as they are and the pass logs exactly one
    error.  In both cases the earlier log is kept. *)
Theorem concert_iter_file_or_error (fuel : nat) (dir : string) (index : Z)
    (row : Row) (w w' : World) :
  body fuel dir index row w = Finished w' ->
  log w' = log w ++ new_entries w w' /\
  ((exists name result,
      file_of fuel index row w = Some (name, result) /\
      fs w' = <[dir +:+ "/" +:+ name := json_dumps result]> (fs w) /\
      List.filter is_error (new_entries w w') = [])
   \/
   (file_of fuel index row w = None /\
    fs w' = fs w /\
    length (List.filter is_error (new_entries w w')) = 1%nat)).
Proof.
  intros Hrow.
  destruct (concert_iter_cases fuel dir index row w)
    as [(e & _ & _ & H)|(cd & pd & Hcd & Hpd & H)]; rewrite H in Hrow; [done|].
  unfold row_file. rewrite Hcd, Hpd. cbn.
  destruct (fetch fuel (Group row) cd w) as [[r wf]|] eqn:Hf; [|done].
  destruct (fetch_log _ _ _ _ _ _ _ _ _ Hf) as (new & Hlog & Herr).
  apply get_setlist_frame in Hf as [Hfs _].
  destruct r as [result|];
    [apply write_text_Finished in Hrow as [_ ->]|injection Hrow as <-];
    unfold new_entries; cbn [log write_file]; rewrite Hlog, drop_app_length.
  - split; [done|]. left. eexists _, result.
    split; [reflexivity|]. split; [cbn; by rewrite Hfs|].
    by destruct (List.filter is_error new).
  - split; [done|]. right. done.
Qed.

End WriteConcertsRun.

(** ** Runs over the sample tables *)

Lemma write_concerts_to_json_terminates_witness :
  write_concerts_to_json 2 sample_retriable dated_server "setlists"
    sample_int_of_str sample_dumps sample_os 4 first_table "2023" empty_world
  = write_concerts_to_json 2 sample_retriable dated_server "setlists"
      sample_int_of_str sample_dumps sample_os 9 first_table "2023" empty_world
  /\
  write_concerts_to_json 2 sample_retriable dated_server "setlists"
    sample_int_of_str sample_dumps sample_os 4 first_table "2023" empty_world
  <> OutOfFuel.
Proof.
  apply (write_concerts_to_json_terminates 2 sample_retriable dated_server
           "setlists" sample_int_of_str sample_dumps sample_os 4 9 first_table "2023"
           empty_world); cbn; lia.
Defined.

(** The second row of the table has the override date 30 February: the run
    stops there with [ValueError], after the one request of the first row.  A
    row for the year 2147483648 stops the run with [OverflowError]. *)
Lemma write_concerts_to_json_bad_date_witness :
  (exists w1,
     write_concerts_to_json 2 sample_retriable dated_server "setlists"
       sample_int_of_str sample_dumps sample_os 4 broken_table "2023" empty_world
     = Raised ValueError w1
     /\ sent w1 = [ {| artistName := "The Band"; date := "14-07-2023" |} ])
  /\
  write_concerts_to_json 2 sample_retriable dated_server "setlists"
    sample_int_of_str sample_dumps sample_os 4 [far_year_row] "2023" empty_world
  = Raised OverflowError empty_world.
Proof.
  split.
  - edestruct (write_concerts_to_json_bad_date 2 sample_retriable dated_server
                 "setlists" sample_int_of_str sample_dumps sample_os 4 "2023"
                 [plain_row] [renamed_row] bad_override_row empty_world)
      as (e & He & _ & Hrun & _).
    + vm_compute. reflexivity.
    + right. vm_compute. reflexivity.
    + vm_compute in He. injection He as <-.
      eexists. split; [exact Hrun|reflexivity].
  - edestruct (write_concerts_to_json_bad_date 2 sample_retriable dated_server
                 "setlists" sample_int_of_str sample_dumps sample_os 4 "2023"
                 [] [] far_year_row empty_world)
      as (e & _ & _ & Hrun & Hkind).
    + reflexivity.
    + left. vm_compute. reflexivity.
    + rewrite (Hkind 2147483648 7 14) in Hrun;
        [exact Hrun|reflexivity|reflexivity|reflexivity|vm_compute; reflexivity].
Defined.

Lemma write_concerts_to_json_requests_witness :
  exists w' new,
    write_concerts_to_json 2 sample_retriable dated_server "setlists"
      sample_int_of_str sample_dumps sample_os 4 first_table "2023" empty_world
    = Finished w'
    /\ sent w' = new /\ (length new <= 6)%nat.
Proof.
  edestruct (write_concerts_to_json_requests 2 sample_retriable dated_server
               "setlists" sample_int_of_str sample_dumps sample_os 4 first_table "2023"
               empty_world) as (new & Hsent & Hlen & _).
  - left. vm_compute. reflexivity.
  - eexists _, new. split; [vm_compute; reflexivity|]. split; [exact Hsent|exact Hlen].
Defined.



(** The service knows no concert on 1 January 2024: no file, one error. *)
Lemma concert_iter_file_or_error_witness :
  exists w',
    concert_iter 2 sample_retriable dated_server sample_int_of_str sample_dumps sample_os
      4 "setlists/2023" 0 unknown_row empty_world = Finished w'
    /\ log w' = [(ERROR, HttpError "Not Found" "The Band" "01-01-2024")]
    /\ row_file 2 sample_retriable dated_server sample_int_of_str 4 0
         unknown_row empty_world = None.
Proof.
  eexists. split; [vm_compute; reflexivity|].
  edestruct (concert_iter_file_or_error 2 sample_retriable dated_server
               sample_int_of_str sample_dumps sample_os 4 "setlists/2023" 0 unknown_row
               empty_world) as [Hlog [H|H]].
  - vm_compute. reflexivity.
  - destruct H as (name & result & Hfile & _). vm_compute in Hfile. discriminate Hfile.
  - destruct H as (Hfile & _ & _). split; [reflexivity|exact Hfile].
Defined.

(** * The configured set of retriable reasons *)

Lemma str_split_not_nil sep s : str_split sep s <> [].
Proof.
  destruct s as [|c s]; cbn [str_split]; [done|].
  case_bool_decide; [done|]. by destruct (str_split sep s).
Qed.

Lemma str_split_no_sep sep s : ~ occurs sep s -> str_split sep s = [s].
Proof.
  induction s as [|c s IH]; cbn [str_split]; [done|]. intros H.
  rewrite bool_decide_eq_false_2 by (intros ->; apply H; by left).
  rewrite IH; [done|]. intros ?. apply H. by right.
Qed.

Lemma str_split_app sep s rest :
  ~ occurs sep s ->
  str_split sep (s +:+ String sep rest) = s :: str_split sep rest.
Proof.
  induction s as [|c s IH]; intros H.
  - change (str_split sep (String sep rest) = EmptyString :: str_split sep rest).
    cbn [str_split]. by rewrite bool_decide_eq_true_2.
  - change (str_split sep (String c (s +:+ String sep rest))
            = String c s :: str_split sep rest).
    cbn [str_split].
    rewrite bool_decide_eq_false_2 by (intros ->; apply H; by left).
    rewrite IH; [done|]. intros ?. apply H. by right.
Qed.

Lemma str_split_concat sep fields :
  fields <> [] -> Forall (fun f => ~ occurs sep f) fields ->
  str_split sep (String.concat (String sep EmptyString) fields) = fields.
Proof.
  intros Hne Hall. induction Hall as [|f l Hf Hl IH]; [done|].
  destruct l as [|g l].
  - cbn. by apply str_split_no_sep.
  - change (String.concat (String sep EmptyString) (f :: g :: l))
      with (f +:+ String sep (String.concat (String sep EmptyString) (g :: l))).
    rewrite str_split_app by done. f_equal. by apply IH.
Qed.

Lemma concat_str_split sep s :
  String.concat (String sep EmptyString) (str_split sep s) = s.
Proof.
  induction s as [|c s IH]; cbn [str_split]; [done|].
  pose proof (str_split_not_nil sep s) as Hne.
  destruct (str_split sep s) as [|field fields]; [done|].
  case_bool_decide as Hc.
  - subst c.
    change (String sep (String.concat (String sep EmptyString) (field :: fields))
            = String sep s).
    by rewrite IH.
  - destruct fields as [|g l].
    + change (String c field = String c s). f_equal. exact IH.
    + change (String c (String.concat (String sep EmptyString) (field :: g :: l))
              = String c s).
      by rewrite IH.
Qed.

Lemma str_split_fields sep s : Forall (fun f => ~ occurs sep f) (str_split sep s).
Proof.
  induction s as [|c s IH]; cbn [str_split].
  - constructor; [by intros []|constructor].
  - case_bool_decide as Hc.
    + constructor; [by intros []|done].
    + destruct (str_split sep s) as [|field fields].
      * constructor; [|constructor]. intros [?|[]]. by subst.
      * inversion IH as [|? ? Hf Hl]; subst. constructor; [|done].
        intros [?|?]; [by subst|done].
Qed.

(** X10.  The retriable reasons are the fields of the configured value, as
    they are written.  When the value is a list of fields joined by commas
    (no field containing a comma), a reason is retriable exactly when it
    equals one of the fields, character by character: fields are not
    trimmed and letter case matters. *)
Theorem retriable_errors_are_the_fields (fields : list string) (r : string) :
  fields <> [] ->
  Forall (fun f => ~ occurs ","%char f) fields ->
  r ∈ retriable_errors_of (String.concat "," fields) <-> r ∈ fields.
Proof.
  intros Hne Hall. unfold retriable_errors_of.
  by rewrite elem_of_list_to_set, str_split_concat.
Qed.

(** X11.  Whatever the configured value, splitting it loses nothing: the
    retriable reasons joined by commas give the value back, no retriable
    reason contains a comma, and there is always at least one retriable
    reason (for an empty value, the empty reason). *)
Theorem retriable_errors_of_any_value (value : string) :
  String.concat "," (str_split ","%char value) = value /\
  (forall r, r ∈ retriable_errors_of value -> ~ occurs ","%char r) /\
  (exists r, r ∈ retriable_errors_of value) /\
  retriable_errors_of EmptyString = {[ EmptyString ]}.
Proof.
  split; [apply concat_str_split|]. split; [|split].
  - intros r Hr. unfold retriable_errors_of in Hr.
    apply elem_of_list_to_set in Hr.
    pose proof (str_split_fields ","%char value) as Hall.
    rewrite Forall_forall in Hall. by apply Hall.
  - unfold retriable_errors_of. pose proof (str_split_not_nil ","%char value).
    destruct (str_split ","%char value) as [|f l]; [done|].
    exists f. apply elem_of_list_to_set. by left.
  - unfold retriable_errors_of. cbn. apply set_eq. intros x.
    rewrite elem_of_union, elem_of_singleton, elem_of_empty. tauto.
Qed.

Lemma String_ne_tail c s : String c s <> s.
Proof.
  intros H. apply (f_equal String.length) in H. cbn in H. lia.
Qed.

(** X12.  A space after the comma belongs to the field.  With the value
    [a, b] (comma, space) the second retriable reason is [b] with a space in
    front, so a failure whose reason is [b] itself is not retried: the fetch
    logs the error and returns nothing after that one request. *)
Theorem untrimmed_field_not_retried (setlist_num_retries : Z)
    (server : nat -> Request -> Response) (a b artist : string) (d : Date)
    (w : World) (fuel : nat) :
  ~ occurs ","%char a -> ~ occurs ","%char b -> b <> a ->
  0 <= setlist_num_retries ->
  status_code (nth_response server w (query_of artist d) 0) <> 200 ->
  reason (nth_response server w (query_of artist d) 0) = b ->
  (b ∉ retriable_errors_of (a +:+ ", " +:+ b)) /\
  get_setlist setlist_num_retries (retriable_errors_of (a +:+ ", " +:+ b)) server
    (S fuel) artist d w
  = Some (None, logger ERROR (HttpError b artist (strftime_dmy d))
                  (record_request (query_of artist d) w)).
Proof.
  intros Ha Hb Hne Hmax Hstatus Hreason.
  assert (b ∉ retriable_errors_of (a +:+ ", " +:+ b)) as Hnot.
  { change (a +:+ ", " +:+ b) with (String.concat "," [a; String " " b]).
    unfold retriable_errors_of. rewrite elem_of_list_to_set, str_split_concat.
    - rewrite !elem_of_cons, elem_of_nil.
      intros [?|[?|[]]]; [done|]. by apply (String_ne_tail " "%char b).
    - done.
    - repeat constructor; [done|]. intros [?|?]; done. }
  split; [exact Hnot|].
  unfold get_setlist. cbn [get_setlist_loop].
  unfold nth_response, query_of in *. rewrite Nat.add_0_r in *.
  rewrite iter_fatal; [by rewrite Hreason|lia|]. split; [done|].
  by rewrite Hreason.
Qed.

Lemma no_comma_in_samples :
  ~ occurs ","%char "Bad Gateway" /\ ~ occurs ","%char "Service Unavailable".
Proof. split; cbn; intuition discriminate. Qed.

(** With the value [Bad Gateway,Service Unavailable] the second reason is
    retriable as written, and not in lower case. *)
Lemma retriable_errors_are_the_fields_witness :
  "Service Unavailable" ∈ retriable_errors_of "Bad Gateway,Service Unavailable"
  /\ "service unavailable" ∉ retriable_errors_of "Bad Gateway,Service Unavailable".
Proof.
  destruct no_comma_in_samples as [H1 H2].
  split.
  - apply (retriable_errors_are_the_fields
             ["Bad Gateway"; "Service Unavailable"] "Service Unavailable");
      [done|by repeat constructor|].
    right. left.
  - intros H.
    apply (retriable_errors_are_the_fields
             ["Bad Gateway"; "Service Unavailable"] "service unavailable") in H;
      [|done|by repeat constructor].
    rewrite !elem_of_cons, elem_of_nil in H. by destruct H as [?|[?|[]]].
Defined.

(** With the value [Bad Gateway, Service Unavailable] a service that is
    unavailable is asked once. *)
Lemma untrimmed_field_not_retried_witness :
  get_setlist 2 (retriable_errors_of "Bad Gateway, Service Unavailable")
    unavailable_server 1 "The Band" bastille_day empty_world
  = Some (None, {| fs := ∅;
                   log := [(ERROR, HttpError "Service Unavailable" "The Band"
                                     "14-07-2023")];
                   sent := [query_of "The Band" bastille_day] |}).
Proof.
  destruct no_comma_in_samples as [H1 H2].
  apply (untrimmed_field_not_retried 2 unavailable_server "Bad Gateway"
           "Service Unavailable" "The Band" bastille_day empty_world 0);
    try done.
Defined.

(** * More on the playlist builder *)

Section SpotifyRun.

Variable str_lower : string -> string.
Variable search : string -> list Track.
Variable current_user : string.
Variable user_playlists : string -> list Playlist.
Variable user_playlist_create : string -> string -> Playlist.

Local Abbreviation find := (search_spotify_track str_lower search).
Local Abbreviation songs := (songs_loop str_lower search).
Local Abbreviation sets := (sets_loop str_lower search).
Local Abbreviation concert := (concert_body str_lower search).
Local Abbreviation concerts := (concerts_dict_loop str_lower search).
Local Abbreviation resolve :=
  (resolve_playlist current_user user_playlists user_playlist_create).
Local Abbreviation populate :=
  (populate_year_spotify_playlist str_lower search current_user user_playlists
     user_playlist_create).

(** A search is one call, whether it returns or raises. *)
Lemma find_client_calls track_name0 artist_name0 c :
  sp_calls (result_client (find track_name0 artist_name0 c))
  = sp_calls c ++ [Search (track_name0 +:+ " " +:+ artist_name0)].
Proof.
  unfold search_spotify_track. destruct (search _) as [|t rest]; [done|].
  destruct (track_artists t); [done|]. by destruct (_ || _).
Qed.

Lemma find_no_artist track_name0 artist_name0 c t rest :
  search (track_name0 +:+ " " +:+ artist_name0) = t :: rest ->
  track_artists t = [] ->
  find track_name0 artist_name0 c
  = Fail IndexError (sp_call (Search (track_name0 +:+ " " +:+ artist_name0)) c).
Proof. intros Hs Ha. unfold search_spotify_track. by rewrite Hs, Ha. Qed.

Lemma accepted_ids_cons artist s l :
  accepted_ids search artist (s :: l)
  = match top_hit search artist s with
    | Some t => if nonempty (track_uri t)
                then track_uri t :: accepted_ids search artist l
                else accepted_ids search artist l
    | None => accepted_ids search artist l
    end.
Proof.
  unfold accepted_ids, resolved_ids. cbn [omap list_omap].
  destruct (top_hit search artist s) as [t|]; [|done]. cbn.
  by destruct (nonempty (track_uri t)).
Qed.

Lemma accepted_ids_app artist l1 l2 :
  accepted_ids search artist (l1 ++ l2)
  = accepted_ids search artist l1 ++ accepted_ids search artist l2.
Proof. unfold accepted_ids, resolved_ids. by rewrite omap_app, List.filter_app. Qed.

(** The loop over songs succeeds when the artists are known, and then gives
    the accepted identifiers. *)
Lemma songs_loop_ok artist pn l :
  artists_known search artist l ->
  forall acc c, exists c',
    songs artist pn l acc c = Ok (acc ++ accepted_ids search artist l) c'.
Proof.
  intros Hk. induction Hk as [|s l Hs _ IH]; intros acc c.
  - exists c. cbn. by rewrite app_nil_r.
  - cbn [songs_loop]. rewrite accepted_ids_cons.
    destruct (top_hit search artist s) as [t|] eqn:Hhit.
    + apply top_hit_Some in Hhit as [rest Hsearch].
      destruct (find_hit str_lower search (song_name s) artist c t rest Hsearch (Hs t eq_refl))
        as (warn & -> & _).
      cbn [uri_truthy]. fold (nonempty (track_uri t)).
      destruct (nonempty (track_uri t)).
      * edestruct (IH (acc ++ [track_uri t])) as [c' ->].
        exists c'. cbn. by rewrite <- app_assoc.
      * apply IH.
    + apply top_hit_None in Hhit. rewrite find_miss by done. cbn [uri_truthy].
      apply IH.
Qed.

(** It raises only [IndexError], and only when an artist is missing. *)
Lemma songs_loop_fail artist pn l : forall acc c e c',
  songs artist pn l acc c = Fail e c' ->
  e = IndexError /\ ~ artists_known search artist l.
Proof.
  induction l as [|s l IH]; intros acc c e c' H; cbn in H; [done|].
  destruct (top_hit search artist s) as [t|] eqn:Hhit.
  - pose proof Hhit as Hh. apply top_hit_Some in Hh as [rest Hsearch].
    destruct (track_artists t) as [|a0 la] eqn:Ha.
    + rewrite (find_no_artist _ _ _ _ _ Hsearch Ha) in H. injection H as <- _.
      split; [done|]. intros Hk. inversion Hk as [|? ? Hs _]; subst.
      by apply (Hs t).
    + destruct (find_hit str_lower search (song_name s) artist c t rest Hsearch)
        as (warn & Hf & _); [by rewrite Ha|].
      rewrite Hf in H.
      destruct (uri_truthy _); apply IH in H as [-> Hn]; (split; [done|]);
        intros Hk; apply Hn; by inversion Hk.
  - apply top_hit_None in Hhit. rewrite find_miss in H by done.
    cbn [uri_truthy] in H. apply IH in H as [-> Hn]. split; [done|].
    intros Hk; apply Hn; by inversion Hk.
Qed.

Lemma artists_known_app artist l1 l2 :
  artists_known search artist (l1 ++ l2)
  <-> artists_known search artist l1 /\ artists_known search artist l2.
Proof. apply Forall_app. Qed.

Lemma sets_loop_ok artist pn l :
  artists_known search artist (all_songs l) ->
  forall acc c, exists c',
    sets artist pn l acc c = Ok (acc ++ accepted_ids search artist (all_songs l)) c'.
Proof.
  induction l as [|s l IH]; intros Hk acc c.
  - exists c. cbn. by rewrite app_nil_r.
  - unfold all_songs in Hk. cbn in Hk. apply artists_known_app in Hk as [H1 H2].
    cbn [sets_loop].
    destruct (songs_loop_ok artist pn (set_song s) H1 acc c) as [c1 ->].
    destruct (IH H2 (acc ++ accepted_ids search artist (set_song s)) c1) as [c' ->].
    exists c'. unfold all_songs. cbn [fmap list_fmap concat].
    by rewrite accepted_ids_app, app_assoc.
Qed.

Lemma sets_loop_fail artist pn l : forall acc c e c',
  sets artist pn l acc c = Fail e c' ->
  e = IndexError /\ ~ artists_known search artist (all_songs l).
Proof.
  induction l as [|s l IH]; intros acc c e c' H; cbn in H; [done|].
  unfold all_songs. cbn [fmap list_fmap concat]. rewrite artists_known_app.
  destruct (songs artist pn (set_song s) acc c) as [b c1|e1 c1] eqn:Hs.
  - apply IH in H as [-> Hn]. split; [done|]. by intros [_ ?].
  - injection H as <- _. apply songs_loop_fail in Hs as [-> Hn].
    split; [done|]. by intros [? _].
Qed.

(** The batch of a loop that returns, whatever the catalogue. *)
Lemma songs_loop_batch artist pn l : forall acc c batch c',
  songs artist pn l acc c = Ok batch c' ->
  batch = acc ++ accepted_ids search artist l.
Proof.
  induction l as [|s l IH]; intros acc c batch c' H; cbn [songs_loop] in H.
  - injection H as <- _. cbn. by rewrite app_nil_r.
  - rewrite accepted_ids_cons.
    destruct (top_hit search artist s) as [t|] eqn:Hhit.
    + apply top_hit_Some in Hhit as [rest Hsearch].
      destruct (track_artists t) as [|a0 la] eqn:Ha;
        [by rewrite (find_no_artist _ _ _ _ _ Hsearch Ha) in H|].
      destruct (find_hit str_lower search (song_name s) artist c t rest Hsearch)
        as (warn & Hf & _); [by rewrite Ha|].
      rewrite Hf in H. cbn [uri_truthy] in H. fold (nonempty (track_uri t)) in H.
      destruct (nonempty (track_uri t)); apply IH in H as ->; [|done].
      cbn. by rewrite <- app_assoc.
    + apply top_hit_None in Hhit. rewrite find_miss in H by done.
      cbn [uri_truthy] in H. by apply IH in H.
Qed.

Lemma sets_loop_batch artist pn l : forall acc c batch c',
  sets artist pn l acc c = Ok batch c' ->
  batch = acc ++ accepted_ids search artist (all_songs l).
Proof.
  induction l as [|s l IH]; intros acc c batch c' H; cbn [sets_loop] in H.
  - injection H as <- _. cbn. by rewrite app_nil_r.
  - destruct (songs artist pn (set_song s) acc c) as [b c1|] eqn:Hs; [|done].
    apply songs_loop_batch in Hs as ->. apply IH in H as ->.
    unfold all_songs. cbn [fmap list_fmap concat].
    by rewrite accepted_ids_app, app_assoc.
Qed.

(** A loop that returns has met no top result without artist. *)
Lemma songs_loop_known artist pn l : forall acc c batch c',
  songs artist pn l acc c = Ok batch c' -> artists_known search artist l.
Proof.
  induction l as [|s l IH]; intros acc c batch c' H; cbn [songs_loop] in H;
    [constructor|].
  destruct (find (song_name s) artist c) as [r c1|] eqn:Hf; [|done].
  constructor.
  - intros t Hhit Ha. apply top_hit_Some in Hhit as [rest Hsearch].
    by rewrite (find_no_artist _ _ _ _ _ Hsearch Ha) in Hf.
  - destruct (uri_truthy r); by apply IH in H.
Qed.

Lemma sets_loop_known artist pn l : forall acc c batch c',
  sets artist pn l acc c = Ok batch c' ->
  artists_known search artist (all_songs l).
Proof.
  induction l as [|s l IH]; intros acc c batch c' H; cbn [sets_loop] in H;
    [constructor|].
  destruct (songs artist pn (set_song s) acc c) as [b c1|] eqn:Hs; [|done].
  unfold all_songs. cbn [fmap list_fmap concat]. apply artists_known_app.
  split; [by apply songs_loop_known in Hs|by apply IH in H].
Qed.

Lemma accepted_ids_nonempty artist l :
  Forall (fun u => u <> EmptyString) (accepted_ids search artist l).
Proof.
  unfold accepted_ids. apply Forall_forall. intros u Hu.
  apply list_elem_of_In, List.filter_In in Hu as [_ Hu].
  by apply bool_decide_eq_true in Hu.
Qed.

Lemma accepted_ids_found artist l u :
  u ∈ accepted_ids search artist l ->
  exists s t, s ∈ l /\ top_hit search artist s = Some t /\ track_uri t = u.
Proof.
  unfold accepted_ids, resolved_ids. intros Hu.
  apply list_elem_of_In, List.filter_In in Hu as [Hu _].
  apply list_elem_of_In, list_elem_of_omap in Hu as (s & Hs & Hu).
  destruct (top_hit search artist s) as [t|] eqn:Hhit; [|done].
  cbn in Hu. injection Hu as <-. by exists s, t.
Qed.

(** The calls of a loop that raises are searches too. *)
Lemma songs_loop_fail_calls artist pn l : forall acc c e c',
  songs artist pn l acc c = Fail e c' ->
  exists qs, sp_calls c' = sp_calls c ++ (Search <$> qs).
Proof.
  induction l as [|s l IH]; intros acc c e c' H; cbn [songs_loop] in H; [done|].
  pose proof (find_client_calls (song_name s) artist c) as Hc.
  destruct (find (song_name s) artist c) as [r c1|e1 c1]; cbn in Hc.
  - destruct (uri_truthy r); apply IH in H as [qs Hqs];
      exists ((song_name s +:+ " " +:+ artist) :: qs);
      rewrite Hqs; cbn; by rewrite Hc, <- app_assoc.
  - injection H as _ <-. exists [song_name s +:+ " " +:+ artist]. by rewrite Hc.
Qed.

Lemma sets_loop_fail_calls artist pn l : forall acc c e c',
  sets artist pn l acc c = Fail e c' ->
  exists qs, sp_calls c' = sp_calls c ++ (Search <$> qs).
Proof.
  induction l as [|s l IH]; intros acc c e c' H; cbn [sets_loop] in H; [done|].
  destruct (songs artist pn (set_song s) acc c) as [b c1|e1 c1] eqn:Hs.
  - apply songs_loop_calls in Hs. apply IH in H as [qs Hqs].
    eexists (_ ++ qs). by rewrite Hqs, Hs, fmap_app, app_assoc.
  - injection H as _ <-. by apply songs_loop_fail_calls in Hs.
Qed.

Lemma filter_mutation_searches qs : List.filter is_mutation (Search <$> qs) = [].
Proof. by induction qs. Qed.

(** X13.  The batch of a setlist, for any catalogue.  When the songs of the
    sets are resolved without an exception, starting from an empty batch, the
    batch is exactly the identifiers of the top results that are not the
    empty string, in setlist order: each of them is the identifier of the top
    result of a song of these sets, and a top result whose identifier is
    empty is left out like a song without result. *)
Theorem resolved_batch_any_catalogue (artist : string) (pn : option string)
    (l : list SetItem) (c c' : Client) (batch : list string) :
  sets artist pn l [] c = Ok batch c' ->
  batch = List.filter nonempty (resolved_ids search artist (all_songs l)) /\
  Forall (fun u => u <> EmptyString) batch /\
  (forall u, u ∈ batch ->
     exists s t, s ∈ all_songs l /\ top_hit search artist s = Some t /\
                 track_uri t = u).
Proof.
  intros H. apply sets_loop_batch in H as ->. cbn [app].
  split; [done|]. split; [apply accepted_ids_nonempty|apply accepted_ids_found].
Qed.

(** What one concert does when its document can be processed. *)
Lemma concert_ok playlist_id0 pn name doc c :
  processable search doc ->
  exists c',
    concert playlist_id0 pn name doc c = Ok tt c' /\
    sp_calls c' = sp_calls c ++ concert_calls search playlist_id0 doc.
Proof.
  intros (s0 & later & Hdoc & Hk). unfold concert_body, concert_calls.
  rewrite Hdoc.
  destruct (sets_loop_ok (artist_name (sl_artist s0)) pn (sl_sets s0) Hk [] c)
    as [c1 Hsets].
  rewrite Hsets. apply sets_loop_calls in Hsets as Hcalls. cbn [app].
  destruct (accepted_ids search _ _) as [|u batch]; eexists; (split; [reflexivity|]);
    cbn; rewrite Hcalls, <- ?app_assoc; by rewrite ?app_nil_r.
Qed.

(** What one concert does when it raises. *)
Lemma concert_fail playlist_id0 pn name doc c e c' :
  concert playlist_id0 pn name doc c = Fail e c' ->
  e = IndexError /\ ~ processable search doc /\
  exists qs, sp_calls c' = sp_calls c ++ (Search <$> qs).
Proof.
  unfold concert_body. destruct (sj_setlist doc) as [|s0 later] eqn:Hdoc.
  - intros [= <- <-]. split; [done|]. split.
    + intros (? & ? & Hd & _). by rewrite Hdoc in Hd.
    + exists []. cbn. by rewrite app_nil_r.
  - destruct (sets _ pn (sl_sets s0) [] c) as [batch c1|e1 c1] eqn:Hsets;
      [by destruct batch|].
    intros [= <- <-]. pose proof (sets_loop_fail_calls _ _ _ _ _ _ _ Hsets) as Hq.
    apply sets_loop_fail in Hsets as [-> Hn].
    split; [done|]. split; [|done].
    intros (? & ? & Hd & Hk). rewrite Hdoc in Hd. injection Hd as <- <-. done.
Qed.

(** X14.  A concert is processed without exception exactly when its document
    has a first setlist and every top result for its songs names an artist.
    Otherwise the body of the loop raises [IndexError], and then it has made
    searches only: nothing was appended to the playlist for this concert. *)
Theorem concert_body_raises (playlist_id0 : string) (pn : option string)
    (concert_name : string) (doc : SetlistJson) (c : Client) :
  (processable search doc <->
   exists c', concert playlist_id0 pn concert_name doc c = Ok tt c')
  /\
  (forall e c',
     concert playlist_id0 pn concert_name doc c = Fail e c' ->
     e = IndexError /\
     List.filter is_mutation (sp_calls c') = List.filter is_mutation (sp_calls c)).
Proof.
  split; [split|].
  - intros Hp. destruct (concert_ok playlist_id0 pn concert_name doc c Hp)
      as (c' & H & _). by exists c'.
  - intros [c' H].
    destruct (sj_setlist doc) as [|s0 later] eqn:Hdoc;
      [unfold concert_body in H; by rewrite Hdoc in H|].
    exists s0, later. split; [done|].
    unfold concert_body in H. rewrite Hdoc in H.
    destruct (sets _ pn (sl_sets s0) [] c) as [batch c1|e1 c1] eqn:Hsets; [|done].
    by apply sets_loop_known in Hsets.
  - intros e c' H. apply concert_fail in H as (-> & _ & qs & Hq).
    split; [done|]. by rewrite Hq, List.filter_app, filter_mutation_searches, app_nil_r.
Qed.

Lemma concert_processable playlist_id0 pn name doc c c' :
  concert playlist_id0 pn name doc c = Ok tt c' -> processable search doc.
Proof.
  unfold concert_body. intros H.
  destruct (sj_setlist doc) as [|s0 later] eqn:Hdoc; [done|].
  exists s0, later. split; [done|].
  destruct (sets _ pn (sl_sets s0) [] c) as [batch c1|e1 c1] eqn:Hsets; [|done].
  by apply sets_loop_known in Hsets.
Qed.

Lemma concert_calls_allowed playlist_id0 doc :
  Forall (allowed_call playlist_id0) (concert_calls search playlist_id0 doc) /\
  (length (List.filter is_mutation (concert_calls search playlist_id0 doc)) <= 1)%nat.
Proof.
  unfold concert_calls. destruct (sj_setlist doc) as [|s0 later].
  { split; [constructor|cbn; lia]. }
  cbn zeta. rewrite List.filter_app, filter_mutation_searches. cbn [app].
  pose proof (accepted_ids_nonempty (artist_name (sl_artist s0))
                (all_songs (sl_sets s0))) as Hne.
  split.
  - apply Forall_app. split; [by apply Forall_fmap, Forall_true|].
    destruct (accepted_ids search _ _) as [|u batch]; [constructor|].
    constructor; [|constructor]. cbn. done.
  - destruct (accepted_ids search _ _); cbn; lia.
Qed.

(** The calls of one concert, whether it returns or raises. *)
Lemma concert_client_calls playlist_id0 pn name doc c :
  exists new,
    sp_calls (result_client (concert playlist_id0 pn name doc c))
    = sp_calls c ++ new /\
    Forall (allowed_call playlist_id0) new /\
    (length (List.filter is_mutation new) <= 1)%nat.
Proof.
  destruct (concert playlist_id0 pn name doc c) as [[] c'|e c'] eqn:H.
  - apply concert_processable in H as Hp.
    destruct (concert_ok playlist_id0 pn name doc c Hp) as (c2 & H2 & Hcalls).
    rewrite H in H2. injection H2 as <-.
    exists (concert_calls search playlist_id0 doc). split; [done|].
    apply concert_calls_allowed.
  - apply concert_fail in H as (_ & _ & qs & Hq). exists (Search <$> qs).
    split; [done|]. rewrite filter_mutation_searches. split; [|cbn; lia].
    by apply Forall_fmap, Forall_true.
Qed.

Lemma concerts_dict_loop_app playlist_id0 pn pre post : forall c,
  concerts playlist_id0 pn (pre ++ post) c
  = match concerts playlist_id0 pn pre c with
    | Ok _ c1 => concerts playlist_id0 pn post c1
    | Fail e c1 => Fail e c1
    end.
Proof.
  induction pre as [|[name doc] pre IH]; intros c; cbn; [done|].
  destruct (concert playlist_id0 pn name doc c); [apply IH|done].
Qed.

Lemma concerts_client_calls playlist_id0 pn dict : forall c,
  exists new,
    sp_calls (result_client (concerts playlist_id0 pn dict c)) = sp_calls c ++ new /\
    Forall (allowed_call playlist_id0) new /\
    (length (List.filter is_mutation new) <= length dict)%nat.
Proof.
  induction dict as [|[name doc] dict IH]; intros c; cbn [concerts_dict_loop].
  - exists []. cbn. by rewrite app_nil_r.
  - destruct (concert_client_calls playlist_id0 pn name doc c)
      as (new1 & H1 & Ha1 & Hl1).
    destruct (concert playlist_id0 pn name doc c) as [[] c1|e c1]; cbn in H1.
    + destruct (IH c1) as (new & H & Ha & Hl). exists (new1 ++ new).
      rewrite H, H1, <- app_assoc. split; [done|]. split; [by apply Forall_app|].
      rewrite List.filter_app, length_app. cbn. lia.
    + exists new1. split; [done|]. split; [done|]. cbn. lia.
Qed.

(** X15.  What a run of the builder may call.  After the playlist is
    resolved, and whether the run returns or is stopped by an exception, its
    calls are searches and submissions; every submission goes to the
    resolved playlist, with a batch that is not empty and holds no empty
    identifier; and there is at most one submission per concert. *)
Theorem populate_calls_allowed (input_dir : string) (pn : option string)
    (concerts_dict : list (string * SetlistJson)) (c c0 : Client)
    (playlist_id0 : string) :
  resolve input_dir pn c = (playlist_id0, c0) ->
  exists new,
    sp_calls (result_client (populate input_dir pn concerts_dict c))
    = sp_calls c0 ++ new /\
    Forall (allowed_call playlist_id0) new /\
    (length (List.filter is_mutation new) <= length concerts_dict)%nat.
Proof.
  intros Hres. unfold populate_year_spotify_playlist. rewrite Hres.
  apply concerts_client_calls.
Qed.

(** X16.  A document that cannot be processed stops the run.  When the
    concerts before it were processed and the document has no setlist, or a
    top result for one of its songs names no artist, the run raises
    [IndexError] at this concert: nothing is submitted for it, the concerts
    after it are not processed, and what was submitted before stays
    submitted.  With an empty setlist array not even a search is made. *)
Theorem populate_stops_at_bad_document (input_dir : string)
    (pn : option string) (pre post : list (string * SetlistJson))
    (name : string) (doc : SetlistJson) (c c0 c1 : Client)
    (playlist_id0 : string) :
  resolve input_dir pn c = (playlist_id0, c0) ->
  concerts playlist_id0 pn pre c0 = Ok tt c1 ->
  ~ processable search doc ->
  exists c',
    populate input_dir pn (pre ++ (name, doc) :: post) c = Fail IndexError c' /\
    List.filter is_mutation (sp_calls c') = List.filter is_mutation (sp_calls c1) /\
    (sj_setlist doc = [] -> c' = c1).
Proof.
  intros Hres Hpre Hbad. unfold populate_year_spotify_playlist.
  rewrite Hres, concerts_dict_loop_app, Hpre. cbn [concerts_dict_loop].
  destruct (concert playlist_id0 pn name doc c1) as [[] c'|e c'] eqn:H.
  - by apply concert_processable in H.
  - pose proof H as H'. apply concert_fail in H as (-> & _ & qs & Hq).
    exists c'. split; [done|]. split.
    + by rewrite Hq, List.filter_app, filter_mutation_searches, app_nil_r.
    + intros Hdoc. unfold concert_body in H'. rewrite Hdoc in H'.
      by injection H' as <-.
Qed.

(** X17.  The calls of a run that succeeds.  When every document can be
    processed the run returns, and its calls after the resolution of the
    playlist are, concert by concert in the order of the dictionary, one
    search per song of the first setlist followed by the submission of the
    batch (no call for an empty batch).  For an empty dictionary there is no
    call at all. *)
Theorem populate_calls (input_dir : string) (pn : option string)
    (concerts_dict : list (string * SetlistJson)) (c c0 : Client)
    (playlist_id0 : string) :
  resolve input_dir pn c = (playlist_id0, c0) ->
  Forall (fun item => processable search item.2) concerts_dict ->
  exists c',
    populate input_dir pn concerts_dict c = Ok tt c' /\
    sp_calls c' = sp_calls c0 ++ run_calls search playlist_id0 concerts_dict.
Proof.
  intros Hres Hall. unfold populate_year_spotify_playlist. rewrite Hres.
  clear Hres. revert c0.
  induction Hall as [|[name doc] dict Hp _ IH]; intros c0.
  - exists c0. cbn. by rewrite app_nil_r.
  - cbn [concerts_dict_loop].
    destruct (concert_ok playlist_id0 pn name doc c0 Hp) as (c1 & -> & Hc1).
    destruct (IH c1) as (c' & -> & Hc'). exists c'. split; [done|].
    rewrite Hc', Hc1. unfold run_calls. cbn. by rewrite <- app_assoc.
Qed.

End SpotifyRun.

(** * Only the top result of a search is used *)

Section TopResultOnly.

Variable str_lower : string -> string.
Variable search1 search2 : string -> list Track.
Hypothesis same_top : forall q, head (search1 q) = head (search2 q).

Lemma search_spotify_track_top track_name0 artist_name0 c :
  search_spotify_track str_lower search1 track_name0 artist_name0 c
  = search_spotify_track str_lower search2 track_name0 artist_name0 c.
Proof.
  unfold search_spotify_track.
  pose proof (same_top (track_name0 +:+ " " +:+ artist_name0)) as H.
  destruct (search1 _) as [|t1 l1], (search2 _) as [|t2 l2]; try done.
  cbn in H. by injection H as ->.
Qed.

Lemma songs_loop_top artist pn l : forall acc c,
  songs_loop str_lower search1 artist pn l acc c = songs_loop str_lower search2 artist pn l acc c.
Proof.
  induction l as [|s l IH]; intros acc c; cbn [songs_loop]; [done|].
  rewrite search_spotify_track_top.
  destruct (search_spotify_track str_lower search2 _ _ _) as [r c1|]; [|done].
  by rewrite !IH.
Qed.

Lemma sets_loop_top artist pn l : forall acc c,
  sets_loop str_lower search1 artist pn l acc c = sets_loop str_lower search2 artist pn l acc c.
Proof.
  induction l as [|s l IH]; intros acc c; cbn [sets_loop]; [done|].
  rewrite songs_loop_top. destruct (songs_loop str_lower search2 _ _ _ _ _); [apply IH|done].
Qed.

Lemma concerts_dict_loop_top playlist_id0 pn dict : forall c,
  concerts_dict_loop str_lower search1 playlist_id0 pn dict c
  = concerts_dict_loop str_lower search2 playlist_id0 pn dict c.
Proof.
  induction dict as [|[name doc] dict IH]; intros c; cbn [concerts_dict_loop];
    [done|].
  unfold concert_body. destruct (sj_setlist doc) as [|s0 later]; [done|].
  rewrite sets_loop_top. destruct (sets_loop str_lower search2 _ _ _ _ _) as [batch c1|]; [|done].
  destruct batch; apply IH.
Qed.

(** X18.  The builder looks at the first item of a search result and at
    nothing after it: two catalogues that give the same top result for every
    query give the same run, with the same calls, log and outcome. *)
Theorem only_top_result_matters (current_user : string)
    (user_playlists : string -> list Playlist)
    (user_playlist_create : string -> string -> Playlist)
    (input_dir : string) (pn : option string)
    (concerts_dict : list (string * SetlistJson)) (c : Client) :
  populate_year_spotify_playlist str_lower search1 current_user user_playlists
    user_playlist_create input_dir pn concerts_dict c
  = populate_year_spotify_playlist str_lower search2 current_user user_playlists
      user_playlist_create input_dir pn concerts_dict c.
Proof.
  unfold populate_year_spotify_playlist.
  destruct (resolve_playlist _ _ _ _ _ _) as [pid c0].
  apply concerts_dict_loop_top.
Qed.

End TopResultOnly.

(** * From the fetcher to the builder *)

Lemma catalogue_ok_known search artist l :
  catalogue_ok search -> artists_known search artist l.
Proof.
  intros Hok. apply Forall_forall. intros s _ t Hhit. by apply (Hok _ _ Hhit).
Qed.

(** X19.  A document that a fetch returned never stops the builder.  With a
    catalogue whose tracks name an artist, the body of the builder's loop
    processes such a document without exception, and its calls are the
    searches for the songs of the first setlist and the submission of the
    batch.  (The document is taken as it was fetched: the file in between is
    assumed to give it back.) *)
Theorem fetched_document_is_processed (setlist_num_retries : Z)
    (setlist_retriable_errors : gset string)
    (server : nat -> Request -> Response) (str_lower : string -> string)
    (search : string -> list Track)
    (fuel : nat) (artist : string) (d : Date) (w w' : World)
    (doc : SetlistJson) (playlist_id0 : string) (pn : option string)
    (concert_name : string) (c : Client) :
  get_setlist setlist_num_retries setlist_retriable_errors server fuel artist d w
  = Some (Some doc, w') ->
  catalogue_ok search ->
  exists c',
    concert_body str_lower search playlist_id0 pn concert_name doc c = Ok tt c' /\
    sp_calls c' = sp_calls c ++ concert_calls search playlist_id0 doc.
Proof.
  intros Hfetch Hok. apply fetch_ending in Hfetch as (k & _ & _ & He).
  inversion He as [|_ _ Hh| |]; subst.
  apply has_setlist_spec in Hh as (s0 & later & Hdoc & _).
  apply concert_ok. exists s0, later. split; [done|].
  by apply catalogue_ok_known.
Qed.

(** ** The builder on the sample catalogues *)

(** The top result for "Song A" has an empty identifier: the batch is the
    identifier of "Song B" alone. *)
Lemma resolved_batch_any_catalogue_witness :
  exists c',
    sets_loop ascii_lower blank_search "The Band" None (sl_sets full_setlist) [] empty_client
    = Ok ["spotify:track:B"] c'
    /\ Forall (fun u => u <> EmptyString) ["spotify:track:B"].
Proof.
  eexists. split; [vm_compute; reflexivity|].
  edestruct (resolved_batch_any_catalogue ascii_lower blank_search "The Band" None
               (sl_sets full_setlist) empty_client) as (_ & H & _).
  - vm_compute. reflexivity.
  - exact H.
Defined.

Lemma no_setlist_not_processable search : ~ processable search (doc_of []).
Proof. by intros (s0 & later & H & _). Qed.

(** A document without setlist raises, and nothing is appended. *)
Lemma concert_body_raises_witness :
  concert_body ascii_lower sample_search "p2" None "c0" (doc_of []) empty_client
  = Fail IndexError empty_client
  /\ List.filter is_mutation (sp_calls empty_client) = [].
Proof.
  split; [reflexivity|].
  destruct (concert_body_raises ascii_lower sample_search "p2" None "c0" (doc_of [])
              empty_client) as [_ H].
  destruct (H IndexError empty_client eq_refl) as [_ Hm]. exact Hm.
Defined.

Lemma sample_dict_processable :
  Forall (fun item => processable sample_search item.2) sample_dict.
Proof.
  repeat constructor; cbn.
  - exists full_setlist, []. split; [done|].
    apply catalogue_ok_known, sample_search_ok.
  - exists other_setlist, []. split; [done|].
    apply catalogue_ok_known, sample_search_ok.
Qed.

Lemma populate_calls_allowed_witness :
  exists new,
    sp_calls (result_client
      (populate_year_spotify_playlist ascii_lower sample_search sample_user sample_playlists
         sample_create "2023" (Some "Concerts") broken_dict empty_client))
    = [CurrentUser; UserPlaylists "user-1"] ++ new
    /\ Forall (allowed_call "p2") new
    /\ (length (List.filter is_mutation new) <= 3)%nat.
Proof.
  apply (populate_calls_allowed ascii_lower sample_search sample_user sample_playlists
           sample_create "2023" (Some "Concerts") broken_dict empty_client
           {| sp_log := []; sp_calls := [CurrentUser; UserPlaylists "user-1"] |}
           "p2").
  reflexivity.
Defined.

(** The second document has no setlist: the run stops there, with the first
    concert submitted and the third never searched. *)
Lemma populate_stops_at_bad_document_witness :
  exists c',
    populate_year_spotify_playlist ascii_lower sample_search sample_user sample_playlists
      sample_create "2023" (Some "Concerts") broken_dict empty_client
    = Fail IndexError c'
    /\ List.filter is_mutation (sp_calls c')
       = [PlaylistAddItems "p2" ["spotify:track:A"]].
Proof.
  edestruct (populate_stops_at_bad_document ascii_lower sample_search sample_user
               sample_playlists sample_create "2023" (Some "Concerts")
               [("c1", doc_of [full_setlist])] [("c2", doc_of [other_setlist])]
               "c0" (doc_of []) empty_client) as (c' & Hrun & Hmut & _).
  - reflexivity.
  - vm_compute. reflexivity.
  - apply no_setlist_not_processable.
  - exists c'. split; [exact Hrun|]. rewrite Hmut. reflexivity.
Defined.

Lemma populate_calls_witness :
  exists c',
    populate_year_spotify_playlist ascii_lower sample_search sample_user sample_playlists
      sample_create "2023" (Some "Concerts") sample_dict empty_client
    = Ok tt c'
    /\ sp_calls c'
       = [ CurrentUser; UserPlaylists "user-1";
           Search "Song A The Band"; Search "Song B The Band";
           PlaylistAddItems "p2" ["spotify:track:A"];
           Search "Song C The Band" ].
Proof.
  edestruct (populate_calls ascii_lower sample_search sample_user sample_playlists
               sample_create "2023" (Some "Concerts") sample_dict empty_client)
    as (c' & Hrun & Hcalls).
  - reflexivity.
  - apply sample_dict_processable.
  - exists c'. split; [exact Hrun|]. rewrite Hcalls. reflexivity.
Defined.

Lemma crowded_search_top q : head (sample_search q) = head (crowded_search q).
Proof. unfold crowded_search. by destruct (sample_search q). Qed.

Lemma only_top_result_matters_witness :
  populate_year_spotify_playlist ascii_lower sample_search sample_user sample_playlists
    sample_create "2023" None sample_dict empty_client
  = populate_year_spotify_playlist ascii_lower crowded_search sample_user sample_playlists
      sample_create "2023" None sample_dict empty_client.
Proof.
  apply (only_top_result_matters ascii_lower sample_search crowded_search crowded_search_top).
Defined.

(** The document fetched from the sample service is processed. *)
Lemma fetched_document_is_processed_witness :
  exists c',
    concert_body ascii_lower sample_search "p2" None "2023-07-14_1_The Band"
      (doc_of [full_setlist]) empty_client = Ok tt c'
    /\ sp_calls c' = [ Search "Song A The Band"; Search "Song B The Band";
                       PlaylistAddItems "p2" ["spotify:track:A"] ].
Proof.
  edestruct (fetched_document_is_processed 2 sample_retriable flaky_server
               ascii_lower sample_search 3 "The Band" bastille_day empty_world)
    as (c' & Hrun & Hcalls).
  - vm_compute. reflexivity.
  - apply sample_search_ok.
  - exists c'. split; [exact Hrun|]. rewrite Hcalls. reflexivity.
Defined.

(** * Reading the setlists back *)

Lemma append_assoc_str s t u : (s +:+ t) +:+ u = s +:+ t +:+ u.
Proof.
  induction s as [|a s IH]; [done|].
  change (String a ((s +:+ t) +:+ u) = String a (s +:+ t +:+ u)). by rewrite IH.
Qed.

Lemma append_nil_r_str s : s +:+ EmptyString = s.
Proof.
  induction s as [|a s IH]; [done|].
  change (String a (s +:+ EmptyString) = String a s). by rewrite IH.
Qed.

Lemma occursb_occurs a s : occursb a s = true <-> occurs a s.
Proof.
  induction s as [|b s IH]; cbn; [done|].
  rewrite orb_true_iff, bool_decide_eq_true, IH. done.
Qed.

Lemma occurs_append a s t : occurs a (s +:+ t) <-> occurs a s \/ occurs a t.
Proof.
  induction s as [|b s IH]; [cbn; tauto|].
  change (a = b \/ occurs a (s +:+ t) <-> (a = b \/ occurs a s) \/ occurs a t).
  rewrite IH. tauto.
Qed.

Lemma startswith_no_first s (a : ascii) p :
  ~ occurs a s -> s <> EmptyString -> startswith (s +:+ p) (String a EmptyString) = false.
Proof.
  destruct s as [|b s]; [done|]. intros H _.
  change (bool_decide (a = b) && startswith (s +:+ p) EmptyString = false).
  rewrite bool_decide_eq_false_2; [done|]. intros ->. apply H. by left.
Qed.

Lemma endswith_spec s p : endswith s p = true <-> exists x, s = x +:+ p.
Proof.
  induction s as [|a s IH]; cbn [endswith].
  - rewrite orb_false_r, bool_decide_eq_true. split.
    + intros <-. by exists EmptyString.
    + intros [x Hx]. destruct x; [done|]. by destruct p.
  - rewrite orb_true_iff, bool_decide_eq_true, IH. split.
    + intros [<-|[x ->]]; [by exists EmptyString|by exists (String a x)].
    + intros [[|b x] Hx]; [by left|]. right.
      change (String a s = String b (x +:+ p)) in Hx.
      injection Hx as -> ->. by exists x.
Qed.

Lemma basename_no_slash f : ~ occurs "/"%char f -> basename f = f.
Proof.
  destruct f as [|c f]; [done|]. intros H. cbn [basename].
  destruct (occursb "/" (String c f)) eqn:Hb; [|done].
  by apply occursb_occurs in Hb.
Qed.

Lemma basename_append_slash x f :
  ~ occurs "/"%char f -> basename (x +:+ String "/" f) = f.
Proof.
  intros Hf. induction x as [|c x IH].
  - change (basename (String "/" f) = f). cbn [basename].
    cbn [occursb]. rewrite bool_decide_eq_true_2 by done. cbn [orb].
    by apply basename_no_slash.
  - change (basename (String c (x +:+ String "/" f)) = f). cbn [basename].
    assert (occursb "/" (String c (x +:+ String "/" f)) = true) as ->; [|done].
    apply occursb_occurs. right. apply occurs_append. right. by left.
Qed.

(** [split] gives back the name that [join] added to the directory. *)
Lemma basename_path_join d f :
  ~ occurs "/"%char f -> basename (path_join d f) = f.
Proof.
  intros Hf. unfold path_join.
  destruct (startswith f "/") eqn:Hs.
  { destruct f as [|c f]; [done|]. cbn [startswith] in Hs.
    apply andb_true_iff in Hs as [Hc _]. apply bool_decide_eq_true in Hc.
    subst c. destruct Hf. by left. }
  destruct (bool_decide (d = EmptyString) || endswith d "/") eqn:Hd.
  - apply orb_true_iff in Hd as [Hd|Hd].
    + apply bool_decide_eq_true in Hd. subst d. by apply basename_no_slash.
    + apply endswith_spec in Hd as [x ->]. rewrite append_assoc_str.
      by apply basename_append_slash.
  - by apply basename_append_slash.
Qed.

Lemma before_first_app s t :
  ~ occurs "."%char s ->
  before_first ".json" (s +:+ t) = s +:+ before_first ".json" t.
Proof.
  induction s as [|a s IH]; intros Hs; [done|].
  change (before_first ".json" (String a (s +:+ t))
          = String a (s +:+ before_first ".json" t)).
  cbn [before_first startswith].
  rewrite bool_decide_eq_false_2 by (intros <-; apply Hs; by left).
  cbn [andb]. f_equal. apply IH. intros ?. apply Hs. by right.
Qed.

Lemma occurs_zeros a n : occurs a (zeros n) -> a = "0"%char.
Proof. induction n as [|n IH]; cbn; [done|]. intros [->|?]; auto. Qed.

Lemma occurs_zfill a w (z : Z) : occurs a (zfill w z) -> digit a \/ a = "-"%char.
Proof.
  unfold zfill. rewrite occurs_append. intros [H|H].
  - apply occurs_zeros in H as ->. left. unfold digit. vm_compute. lia.
  - by apply (pretty_Z_occurs z).
Qed.

Lemma occurs_date_str a dt : occurs a (date_str dt) -> digit a \/ a = "-"%char.
Proof.
  unfold date_str. rewrite !occurs_append. cbn [occurs].
  intros H. decompose [or] H; subst; try (by right); try done;
    by eapply occurs_zfill.
Qed.

Lemma not_digit_or_dash (a : ascii) :
  a = "."%char \/ a = "/"%char \/ a = "_"%char -> ~ (digit a \/ a = "-"%char).
Proof.
  intros Ha [H|H].
  - unfold digit in H. destruct Ha as [Ha|[Ha|Ha]]; subst a; vm_compute in H; lia.
  - destruct Ha as [Ha|[Ha|Ha]]; subst a; discriminate H.
Qed.

(** ** The dictionary *)

Lemma dict_get_set_eq {V : Type} k (v : V) d : dict_get k (dict_set k v d) = Some v.
Proof.
  induction d as [|[k' v'] d IH]; cbn.
  - by rewrite bool_decide_eq_true_2.
  - case_bool_decide as Hk; cbn.
    + by rewrite bool_decide_eq_true_2.
    + by rewrite bool_decide_eq_false_2.
Qed.

Lemma dict_get_set_ne {V : Type} k k' (v : V) d :
  k <> k' -> dict_get k' (dict_set k v d) = dict_get k' d.
Proof.
  intros Hne. induction d as [|[k0 v0] d IH]; cbn.
  - by rewrite bool_decide_eq_false_2.
  - case_bool_decide as Hk; cbn.
    + subst k0. by rewrite !bool_decide_eq_false_2.
    + by rewrite IH.
Qed.

Lemma dict_set_keys {V : Type} k (v : V) d :
  (dict_set k v d).*1 = if bool_decide (k ∈ d.*1) then d.*1 else d.*1 ++ [k].
Proof.
  induction d as [|[k0 v0] d IH]; cbn.
  - rewrite bool_decide_eq_false_2; [done|]. apply not_elem_of_nil.
  - destruct (decide (k0 = k)) as [->|Hk].
    + rewrite bool_decide_eq_true_2 by done. cbn.
      rewrite bool_decide_eq_true_2; [done|]. by left.
    + rewrite (bool_decide_eq_false_2 (k0 = k)) by done. cbn. rewrite IH.
      destruct (decide (k ∈ d.*1)) as [Hin|Hin].
      * rewrite (bool_decide_eq_true_2 (k ∈ d.*1)) by done.
        rewrite bool_decide_eq_true_2; [done|]. by right.
      * rewrite (bool_decide_eq_false_2 (k ∈ d.*1)) by done.
        rewrite bool_decide_eq_false_2; [done|].
        intros [?|?]%elem_of_cons; [by subst|done].
Qed.

Lemma dict_set_NoDup {V : Type} k (v : V) d :
  NoDup d.*1 -> NoDup (dict_set k v d).*1.
Proof.
  intros Hd. rewrite dict_set_keys. case_bool_decide as Hin; [done|].
  apply NoDup_app. split; [done|]. split; [|apply NoDup_singleton].
  intros x Hx ->%list_elem_of_singleton. done.
Qed.

Lemma dict_set_length {V : Type} k (v : V) d :
  (length (dict_set k v d) <= S (length d))%nat.
Proof.
  rewrite <- (length_fmap fst (dict_set k v d)), dict_set_keys.
  case_bool_decide; rewrite ?length_app, length_fmap; cbn; lia.
Qed.

Section ReadSetlistsFacts.

Variable listdir : string -> list string.
Variable isfile : string -> bool.
Variable file_text : string -> string.
Variable json_load : string -> option SetlistJson.
Variable setlists_dir : string.

Local Abbreviation files_of := (list_files listdir isfile).
Local Abbreviation reading := (read_loop file_text json_load).
Local Abbreviation read := (read_setlists_from_json listdir isfile file_text json_load setlists_dir).

(** X20.  What [list_files] lists.  In a directory whose entry names contain
    no slash, the listed paths are exactly the joins of the directory with
    the names of its regular files that end with the extension, and
    [os.path.split] gives the name back from each listed path. *)
Theorem list_files_lists (directory ext p : string) :
  (forall f, f ∈ listdir directory -> ~ occurs "/"%char f) ->
  p ∈ files_of directory ext <->
  exists f stem,
    f ∈ listdir directory /\ f = stem +:+ ext /\
    isfile p = true /\ p = path_join directory f /\ basename p = f.
Proof.
  intros Hnames. unfold list_files. rewrite list_elem_of_fmap. split.
  - intros (f & -> & Hf). apply list_elem_of_In, List.filter_In in Hf as [Hin Hf].
    apply list_elem_of_In in Hin. apply andb_true_iff in Hf as [Hfile Hext].
    apply endswith_spec in Hext as [stem ->].
    exists (stem +:+ ext), stem. repeat split; try done.
    apply basename_path_join. by apply Hnames.
  - intros (f & stem & Hin & -> & Hfile & -> & _). exists (stem +:+ ext).
    split; [done|]. apply list_elem_of_In, List.filter_In.
    split; [by apply list_elem_of_In|]. rewrite Hfile. cbn.
    apply endswith_spec. by exists stem.
Qed.

(** X21.  The name of a concert read back from a file the fetcher wrote.
    For a group without slash and without dot, the key under which the file
    [<display-date>_<sequence>_<group>.json] of a directory enters the
    dictionary is the file name without its [.json]. *)
Theorem concert_file_name_generated (directory : string) (y m d : Z)
    (pd : Date) (position : Z) (group : string) :
  datetime_date y m d = Val pd ->
  ~ occurs "/"%char group -> ~ occurs "."%char group ->
  concert_file_name (path_join directory (generated_name pd position group))
  = date_str pd +:+ "_" +:+ pretty (position + 1) +:+ "_" +:+ group.
Proof.
  intros Hpd Hslash Hdot. unfold concert_file_name.
  assert (forall a, a = "."%char \/ a = "/"%char ->
            ~ occurs a (date_str pd) /\ ~ occurs a (pretty (position + 1))) as Hchars.
  { intros a Ha. split; intros H.
    - apply occurs_date_str in H. revert H. apply not_digit_or_dash.
      destruct Ha; auto.
    - apply pretty_Z_occurs in H. revert H. apply not_digit_or_dash.
      destruct Ha; auto. }
  destruct (Hchars "."%char ltac:(by left)) as [Hd1 Hd2].
  destruct (Hchars "/"%char ltac:(by right)) as [Hs1 Hs2].
  rewrite basename_path_join.
  - unfold generated_name.
    rewrite (before_first_app (date_str pd)) by done.
    rewrite (before_first_app "_") by (by intros [|[]]).
    rewrite (before_first_app (pretty (position + 1))) by done.
    rewrite (before_first_app "_") by (by intros [|[]]).
    rewrite (before_first_app group) by done.
    change (before_first ".json" ".json") with EmptyString.
    by rewrite append_nil_r_str.
  - unfold generated_name. rewrite !occurs_append. cbn [occurs].
    intros H. decompose [or] H; try done.
Qed.

(** What the loop over the files leaves in the dictionary. *)
Lemma read_loop_get files : forall d d',
  reading files d = Some d' ->
  forall k doc,
    dict_get k d' = Some doc <->
    (exists pre f post,
       files = pre ++ f :: post /\ concert_file_name f = k /\
       json_load (file_text f) = Some doc /\
       Forall (fun g => concert_file_name g <> k) post)
    \/ (Forall (fun g => concert_file_name g <> k) files /\ dict_get k d = Some doc).
Proof.
  induction files as [|f files IH]; intros d d' H k doc; cbn [read_loop] in H.
  - injection H as <-. split; [by right|].
    intros [(pre & f & post & Hl & _)|[_ ?]]; [by destruct pre|done].
  - destruct (json_load (file_text f)) as [obj|] eqn:Hload; [|done].
    rewrite (IH _ _ H k doc). split.
    + intros [(pre & g & post & -> & Hg)|[Hall Hget]].
      * left. by exists (f :: pre), g, post.
      * destruct (decide (concert_file_name f = k)) as [Hk|Hk].
        -- subst k. rewrite dict_get_set_eq in Hget. injection Hget as <-.
           left. by exists [], f, files.
        -- rewrite dict_get_set_ne in Hget by done. right. split; [|done].
           by constructor.
    + intros [(pre & g & post & Hl & Hk & Hdoc & Hpost)|[Hall Hget]].
      * destruct pre as [|f' pre]; cbn in Hl; injection Hl as -> ->.
        -- right. split; [done|]. subst k.
           rewrite dict_get_set_eq. congruence.
        -- left. by exists pre, g, post.
      * inversion Hall as [|? ? Hf Hfiles]; subst. right. split; [done|].
        by rewrite dict_get_set_ne.
Qed.

Lemma read_loop_keys files : forall d d',
  reading files d = Some d' ->
  NoDup d.*1 ->
  NoDup d'.*1 /\ (length d' <= length d + length files)%nat.
Proof.
  induction files as [|f files IH]; intros d d' H Hd; cbn [read_loop] in H.
  - injection H as <-. split; [done|lia].
  - destruct (json_load (file_text f)) as [obj|]; [|done].
    apply IH in H as [Hn Hl]; [|by apply dict_set_NoDup].
    split; [done|].
    pose proof (dict_set_length (concert_file_name f) obj d). cbn. lia.
Qed.

(** X22.  The dictionary of concerts.  When the reading succeeds, the
    dictionary has no key twice and no more entries than files were listed,
    and a key maps to a document exactly when that document is what
    [json.load] gave for the last listed file with this key: of two files
    with the same key (as [a.json] and [a.json.json]) only the later one is
    kept. *)
Theorem read_setlists_dictionary (input_dir : string)
    (concerts_dict : list (string * SetlistJson)) :
  let concerts_files := files_of (setlists_dir +:+ "/" +:+ input_dir) ".json" in
  read input_dir = Some concerts_dict ->
  NoDup concerts_dict.*1 /\
  (length concerts_dict <= length concerts_files)%nat /\
  (forall k doc,
     dict_get k concerts_dict = Some doc <->
     exists pre f post,
       concerts_files = pre ++ f :: post /\ concert_file_name f = k /\
       json_load (file_text f) = Some doc /\
       Forall (fun g => concert_file_name g <> k) post).
Proof.
  intros concerts_files H. unfold read_setlists_from_json in H.
  fold concerts_files in H.
  destruct (read_loop_keys _ _ _ H) as [Hn Hl]; [constructor|].
  split; [done|]. split; [cbn in Hl; lia|].
  intros k doc. rewrite (read_loop_get _ _ _ H k doc). split.
  - by intros [?|[_ ?]].
  - by left.
Qed.

Lemma read_loop_none files f : forall d,
  f ∈ files -> json_load (file_text f) = None -> reading files d = None.
Proof.
  induction files as [|g files IH]; intros d Hin Hload; [by apply elem_of_nil in Hin|].
  cbn [read_loop]. apply elem_of_cons in Hin as [<-|Hin]; [by rewrite Hload|].
  destruct (json_load (file_text g)); [by apply IH|done].
Qed.

(** X23.  One file that [json.load] rejects stops the builder after the
    playlist was resolved: the run raises [ValueError] in the state the
    resolution left, no concert is processed, not even those of the files
    that are well formed.  When no playlist name was given, the playlist
    [Concerts_<input_dir>] has been created all the same and stays empty. *)
Theorem populate_from_directory_bad_file (str_lower : string -> string)
    (search : string -> list Track)
    (current_user : string) (user_playlists : string -> list Playlist)
    (user_playlist_create : string -> string -> Playlist)
    (input_dir f : string) (pn : option string) (c : Client) :
  f ∈ files_of (setlists_dir +:+ "/" +:+ input_dir) ".json" ->
  json_load (file_text f) = None ->
  populate_from_directory listdir isfile file_text json_load setlists_dir
    str_lower search current_user user_playlists user_playlist_create input_dir pn c
  = Fail ValueError
      (resolve_playlist current_user user_playlists user_playlist_create
         input_dir pn c).2
  /\
  populate_from_directory listdir isfile file_text json_load setlists_dir
    str_lower search current_user user_playlists user_playlist_create input_dir None c
  = Fail ValueError
      {| sp_log := sp_log c;
         sp_calls := sp_calls c ++
           [CurrentUser;
            UserPlaylistCreate current_user ("Concerts_" +:+ input_dir)] |}.
Proof.
  intros Hin Hload.
  assert (read input_dir = None) as Hread
    by (unfold read_setlists_from_json; by apply (read_loop_none _ f)).
  unfold populate_from_directory. split.
  - destruct (resolve_playlist _ _ _ _ _ _) as [pid c0]. by rewrite Hread.
  - unfold resolve_playlist, create_spotify_playlist, sp_call.
    rewrite Hread. cbn. by rewrite <- app_assoc.
Qed.

End ReadSetlistsFacts.

(** ** The sample directory *)

Lemma sample_names_no_slash f :
  f ∈ sample_listdir "setlists/2023" -> ~ occurs "/"%char f.
Proof.
  unfold sample_listdir. rewrite bool_decide_eq_true_2 by done.
  rewrite !elem_of_cons, elem_of_nil.
  intros [->|[->|[->|[->|[]]]]]; cbn; intuition discriminate.
Qed.

Lemma no_slash_no_dot_in_group :
  ~ occurs "/"%char "The Band" /\ ~ occurs "."%char "The Band".
Proof. split; cbn; intuition discriminate. Qed.

(** The file of the concert is listed; the directory [archive.json] is
    not. *)
Lemma list_files_lists_witness :
  "setlists/2023/2023-07-14_1_The Band.json"
    ∈ list_files sample_listdir sample_isfile "setlists/2023" ".json"
  /\ "setlists/2023/archive.json"
    ∉ list_files sample_listdir sample_isfile "setlists/2023" ".json".
Proof.
  split.
  - apply (list_files_lists sample_listdir sample_isfile "setlists/2023" ".json"
             _ sample_names_no_slash).
    exists "2023-07-14_1_The Band.json", "2023-07-14_1_The Band".
    repeat split; try reflexivity. unfold sample_listdir.
    rewrite bool_decide_eq_true_2 by done. by left.
  - intros H.
    apply (list_files_lists sample_listdir sample_isfile "setlists/2023" ".json"
             _ sample_names_no_slash) in H as (f & stem & _ & _ & Hfile & _).
    discriminate Hfile.
Defined.

Lemma concert_file_name_generated_witness :
  concert_file_name (path_join "setlists/2023"
                       (generated_name bastille_day 0 "The Band"))
  = "2023-07-14_1_The Band".
Proof.
  destruct no_slash_no_dot_in_group as [H1 H2].
  rewrite (concert_file_name_generated "setlists/2023" 2023 7 14 bastille_day 0
             "The Band" eq_refl H1 H2).
  vm_compute. reflexivity.
Defined.

(** The two files of the concert have the same key: the dictionary holds the
    document of the one listed last. *)
Lemma read_setlists_dictionary_witness :
  exists concerts_dict,
    read_setlists_from_json sample_listdir sample_isfile sample_file_text
      sample_json_load "setlists" "2023" = Some concerts_dict
    /\ NoDup concerts_dict.*1
    /\ dict_get "2023-07-14_1_The Band" concerts_dict = Some (doc_of [other_setlist]).
Proof.
  eexists. split; [vm_compute; reflexivity|].
  edestruct (read_setlists_dictionary sample_listdir sample_isfile
               sample_file_text sample_json_load "setlists" "2023")
    as (Hn & _ & Hget).
  - vm_compute. reflexivity.
  - split; [exact Hn|]. apply Hget.
    exists ["setlists/2023/2023-07-14_1_The Band.json"],
      "setlists/2023/2023-07-14_1_The Band.json.json", [].
    repeat split; try (vm_compute; reflexivity). constructor.
Defined.

(** [broken.json] is not JSON: the playlist is created and nothing else
    happens. *)
Lemma populate_from_directory_bad_file_witness :
  populate_from_directory corrupt_listdir sample_isfile sample_file_text
    sample_json_load "setlists" ascii_lower sample_search sample_user
    sample_playlists sample_create "2023" None empty_client
  = Fail ValueError
      {| sp_log := [];
         sp_calls := [CurrentUser; UserPlaylistCreate "user-1" "Concerts_2023"] |}.
Proof.
  apply (populate_from_directory_bad_file corrupt_listdir sample_isfile
           sample_file_text sample_json_load "setlists" ascii_lower
           sample_search sample_user sample_playlists sample_create "2023"
           "setlists/2023/broken.json" None empty_client).
  - apply list_elem_of_In. vm_compute. auto.
  - reflexivity.
Defined.

(** * The log file *)

Lemma filter_ext_in {A : Type} (f g : A -> bool) l :
  (forall x, f x = g x) -> List.filter f l = List.filter g l.
Proof. intros H. induction l as [|x l IH]; cbn; [done|]. by rewrite H, IH. Qed.

Lemma level_passes debug l :
  bool_decide (levelno (log_level debug) <= levelno l)
  = match debug, l with
    | false, DEBUG => false
    | _, _ => true
    end.
Proof. destruct debug, l; vm_compute; reflexivity. Qed.

Lemma debug_of_flag_true flag : debug_of_flag flag = true <-> flag = Some "True".
Proof.
  destruct flag as [value|]; cbn; [|done].
  case_bool_decide as He; [by subst|].
  rewrite bool_decide_eq_true. split; congruence.
Qed.

(** X24.  Which entries reach the log file.  Debug traces are on only when
    the value of [--debug] is the string [True], letter for letter: then
    every entry is written.  For any other value, and without the option, the
    file holds everything but the DEBUG entries.  In both cases no error is
    lost. *)
Theorem log_file_entries (flag : option string) (entries : list LogEntry) :
  (flag = Some "True" -> log_file (debug_of_flag flag) entries = entries) /\
  (flag <> Some "True" ->
   log_file (debug_of_flag flag) entries
   = List.filter (fun e => negb (is_debug e)) entries) /\
  List.filter is_error (log_file (debug_of_flag flag) entries)
  = List.filter is_error entries.
Proof.
  unfold log_file. split; [|split].
  - intros H. apply debug_of_flag_true in H as ->.
    induction entries as [|[l m] es IH]; cbn [List.filter fst]; [done|].
    by rewrite level_passes, IH.
  - intros H. destruct (debug_of_flag flag) eqn:Hd;
      [by apply debug_of_flag_true in Hd|].
    apply filter_ext_in. intros [l m]. cbn [fst]. rewrite level_passes.
    by destruct l.
  - induction entries as [|[l m] es IH]; cbn [List.filter fst]; [done|].
    rewrite level_passes.
    destruct (debug_of_flag flag), l; cbn [List.filter]; by rewrite IH.
Qed.

(** With [--debug true] the trace of an added song is not written; the
    error for a missing song is. *)
Lemma log_file_entries_witness :
  log_file (debug_of_flag (Some "true"))
    [ (DEBUG, AddingSong "The Band" "Song A" None);
      (ERROR, SongNotFound "The Band" "Song B") ]
  = [ (ERROR, SongNotFound "The Band" "Song B") ]
  /\
  log_file (debug_of_flag (Some "True"))
    [ (DEBUG, AddingSong "The Band" "Song A" None);
      (ERROR, SongNotFound "The Band" "Song B") ]
  = [ (DEBUG, AddingSong "The Band" "Song A" None);
      (ERROR, SongNotFound "The Band" "Song B") ].
Proof.
  split.
  - destruct (log_file_entries (Some "true")
                [ (DEBUG, AddingSong "The Band" "Song A" None);
                  (ERROR, SongNotFound "The Band" "Song B") ]) as (_ & H & _).
    rewrite H; [reflexivity|discriminate].
  - destruct (log_file_entries (Some "True")
                [ (DEBUG, AddingSong "The Band" "Song A" None);
                  (ERROR, SongNotFound "The Band" "Song B") ]) as (H & _).
    by apply H.
Defined.
